(** * Headless collaborative document operations (da-agent backend)

  A shallow embedding of
    - [backend/src/services/document-operations.js]
      (class [DocumentOperations]: [connect], [disconnect], [findText],
      [positionCursor], [deleteBlock], [insertAtCursor], [replaceText]) and
    - [backend/src/services/headless-cursor-plugin.js]
      ([yHeadlessCursorPlugin]: [updateCursorInfo], [destroy]),
  together with the part of the ProseMirror document model these functions
  call into, specialised to the schema that [connect] builds
  (doc = block+, paragraph / heading = inline*, text, no marks).

  JavaScript strings are modelled as [string] whose characters are the code
  units U+0000..U+00FF; on that range [String.prototype.toLowerCase] is a
  length-preserving, character-wise map.  Positions are [Z], as the source
  uses the sentinel [-1]. *)

From Stdlib Require Import ZArith String Ascii Bool Lia.
From stdpp Require Import gmap strings list pretty.

Local Open Scope Z_scope.

(* ===================================================================== *)
(** ** JavaScript string primitives used by the source *)
(* ===================================================================== *)

Module JS.

(** The double-quote character, as it appears inside template literals. *)
Definition dquote : string := String "034"%char EmptyString.

(** Simple lower-case mapping of one code unit in U+0000..U+00FF:
    A-Z, and the Latin-1 capitals U+00C0..U+00DE except the
    multiplication sign U+00D7, move up by 32. *)
Definition lower_char (c : ascii) : ascii :=
  let n := nat_of_ascii c in
  if ((65 <=? n)%nat && (n <=? 90)%nat)
     || ((192 <=? n)%nat && (n <=? 222)%nat && negb (n =? 215)%nat)
  then ascii_of_nat (n + 32) else c.

(** [s.toLowerCase()] *)
Fixpoint toLowerCase (s : string) : string :=
  match s with
  | EmptyString => EmptyString
  | String c r => String (lower_char c) (toLowerCase r)
  end.

(** [s.indexOf(t)]: least index at which [t] occurs in [s], or [-1]. *)
Definition indexOf (s t : string) : Z :=
  match String.index 0 t s with
  | Some i => Z.of_nat i
  | None => -1
  end.

(** [s.length] *)
Definition len (s : string) : Z := Z.of_nat (String.length s).

(** [s.startsWith(t)] *)
Definition startsWith (s t : string) : bool := String.prefix t s.

(** [s.replace(pat, rep)] with a string pattern: the first occurrence only. *)
Definition replace (s pat rep : string) : string :=
  match String.index 0 pat s with
  | Some i =>
      substring 0 i s +:+ rep
      +:+ substring (i + String.length pat)
                    (String.length s - (i + String.length pat)) s
  | None => s
  end.

(** JavaScript numbers, as far as [parseInt] produces them. *)
Inductive Number := NaN | Num (z : Z).

Definition is_space (c : ascii) : bool :=
  let n := nat_of_ascii c in
  ((9 <=? n)%nat && (n <=? 13)%nat) || (n =? 32)%nat || (n =? 160)%nat.

Fixpoint trimStart (s : string) : string :=
  match s with
  | String c r => if is_space c then trimStart r else s
  | EmptyString => EmptyString
  end.

Definition digit_value (radix : Z) (c : ascii) : option Z :=
  let n := Z.of_nat (nat_of_ascii c) in
  let v := if (48 <=? n) && (n <=? 57) then Some (n - 48)
           else if (97 <=? n) && (n <=? 122) then Some (n - 87)
           else if (65 <=? n) && (n <=? 90) then Some (n - 55)
           else None in
  match v with
  | Some d => if d <? radix then Some d else None
  | None => None
  end.

(** Longest prefix of digits in the given radix; [None] when there is none. *)
Fixpoint digits (radix : Z) (acc : option Z) (s : string) : option Z :=
  match s with
  | String c r =>
      match digit_value radix c with
      | Some d => digits radix (Some (radix * default 0 acc + d)) r
      | None => acc
      end
  | EmptyString => acc
  end.

(** [parseInt(s)] without a radix argument.  The value is kept as the exact
    integer read. *)
Definition parseInt (s : string) : Number :=
  let s1 := trimStart s in
  let '(sign, s2) :=
    match s1 with
    | String "-"%char r => (-1, r)
    | String "+"%char r => (1, r)
    | _ => (1, s1)
    end in
  let '(radix, s3) :=
    match s2 with
    | String "0"%char (String "x"%char r) => (16, r)
    | String "0"%char (String "X"%char r) => (16, r)
    | _ => (10, s2)
    end in
  match digits radix None s3 with
  | Some v => Num (sign * v)
  | None => NaN
  end.

(** [t] occurs in [s] at character offset [k]. *)
Definition occurs_at (t s : string) (k : nat) : Prop :=
  (k + String.length t <= String.length s)%nat
  /\ substring k (String.length t) s = t.

End JS.

(* ===================================================================== *)
(** ** The structural document model (ProseMirror, for the schema of
       [connect]) *)
(* ===================================================================== *)

Module PM.

(** What a JavaScript call can throw.  [Unmodelled] is not a JavaScript
    error: the model raises it for arguments of a library function that lie
    outside the fragment described here; the engine never passes such
    arguments (lemmas [*_modelled] below). *)
Inductive Exn :=
| RangeError (msg : string)
| TypeError (msg : string)
| Error (msg : string)
| Unmodelled.

(** [error.message] *)
Definition message_of (e : Exn) : string :=
  match e with
  | RangeError m | TypeError m | Error m => m
  | Unmodelled => "unmodelled"
  end.

(** Block node types of the schema: [paragraph], and [heading] with its
    [level] attribute (which [NodeType.create] does not validate). *)
Inductive NodeType := paragraph | heading (level : JS.Number).

(** A block node.  The schema has no marks, so ProseMirror joins adjacent text
    nodes and a block has at most one text child; empty text nodes do not
    exist.  [text = EmptyString] stands for a block without children. *)
Record Block := { ntype : NodeType; text : string }.

Abbreviation Doc := (list Block).

(** The nodes [descendants] hands to its callback. *)
Inductive Node :=
| DocNode (d : list Block)
| BlockNode (b : Block)
| TextNode (t : string).

(** [schema.text(s)] *)
Definition schema_text (s : string) : Exn + string :=
  if decide (s = EmptyString)
  then inl (RangeError "Empty text nodes are not allowed")
  else inr s.

(** [node.nodeSize] of a block: its two boundary tokens and its text. *)
Definition nodeSize (b : Block) : Z := 2 + JS.len (text b).

(** [doc.content.size] *)
Fixpoint contentSize (d : Doc) : Z :=
  match d with
  | [] => 0
  | b :: r => nodeSize b + contentSize r
  end.

(** Position just before block [i]. *)
Definition block_start (d : Doc) (i : nat) : Z := contentSize (take i d).

(** Position of the first character of block [i]. *)
Definition text_start (d : Doc) (i : nat) : Z := block_start d i + 1.

(** A resolved position: at depth 0 between top-level blocks ([index] blocks
    before it), or at depth 1 inside block [index] after [offset]
    characters. *)
Inductive ResolvedPos :=
| Depth0 (index : nat)
| Depth1 (index : nat) (offset : nat).

Fixpoint resolve_from (d : Doc) (i : nat) (p : Z) : option ResolvedPos :=
  match d with
  | [] => if p =? 0 then Some (Depth0 i) else None
  | b :: r =>
      if p =? 0 then Some (Depth0 i)
      else if p <? nodeSize b then Some (Depth1 i (Z.to_nat (p - 1)))
      else resolve_from r (S i) (p - nodeSize b)
  end.

(** [doc.resolve(pos)] *)
Definition resolve (d : Doc) (p : Z) : Exn + ResolvedPos :=
  match (if p <? 0 then None else resolve_from d 0 p) with
  | Some r => inr r
  | None => inl (RangeError ("Position " +:+ pretty p +:+ " out of range"))
  end.

(** [$pos.before()] and [$pos.after()] at the position's own depth. *)
Definition before (d : Doc) (r : ResolvedPos) : Exn + Z :=
  match r with
  | Depth0 _ => inl (RangeError "There is no position before the top-level node")
  | Depth1 i _ => inr (block_start d i)
  end.

Definition after (d : Doc) (r : ResolvedPos) : Exn + Z :=
  match r with
  | Depth0 _ => inl (RangeError "There is no position after the top-level node")
  | Depth1 i _ => inr (block_start d (S i))
  end.

(** [doc.descendants(f)]: every block in order, and its text child when the
    callback did not return [false] for the block.  The callback threads a
    state (the variables it closes over); its boolean is [false] exactly when
    it returns [false]. *)
Fixpoint descendants_from {St : Type} (f : Node -> Z -> St -> bool * St)
    (d : Doc) (pos : Z) (st : St) : St :=
  match d with
  | [] => st
  | b :: r =>
      let '(descend, st1) := f (BlockNode b) pos st in
      let st2 :=
        if descend && negb (bool_decide (text b = EmptyString))
        then snd (f (TextNode (text b)) (pos + 1) st1)
        else st1 in
      descendants_from f r (pos + nodeSize b) st2
  end.

Definition descendants {St : Type} (f : Node -> Z -> St -> bool * St)
    (d : Doc) (st : St) : St :=
  descendants_from f d 0 st.

(** Selections: a text selection with its two endpoints, or the
    whole-document selection. *)
Inductive Selection :=
| TextSelection (anchor head : Z)
| AllSelection.

(** [selection.from], [selection.to] *)
Definition sel_from (d : Doc) (s : Selection) : Z :=
  match s with
  | TextSelection a h => Z.min a h
  | AllSelection => 0
  end.

Definition sel_to (d : Doc) (s : Selection) : Z :=
  match s with
  | TextSelection a h => Z.max a h
  | AllSelection => contentSize d
  end.

(** [TextSelection.create(doc, anchor, head)] *)
Definition TextSelection_create (d : Doc) (a h : Z) : Exn + Selection :=
  match resolve d a with
  | inl e => inl e
  | inr _ =>
      match resolve d h with
      | inl e => inl e
      | inr _ => inr (TextSelection a h)
      end
  end.

(** [Selection.near($pos)] for a position at depth 0 before block [i]:
    the start of block [i], else the end of block [i-1], else everything. *)
Definition near_depth0 (d : Doc) (i : nat) : Selection :=
  if (i <? length d)%nat
  then TextSelection (text_start d i) (text_start d i)
  else match i with
       | S j => TextSelection (block_start d i - 1) (block_start d i - 1)
       | O => AllSelection
       end.

(** [Selection.atStart(doc)] *)
Definition atStart (d : Doc) : Selection :=
  match d with
  | [] => AllSelection
  | _ :: _ => TextSelection 1 1
  end.

(** One replaced range of a step map: [oldSize] tokens at [start] became
    [newSize] tokens. *)
Record StepMap := { sm_start : Z; sm_old : Z; sm_new : Z }.

(** [mapping.map(pos)] with the default association (to the right). *)
Definition map_pos (m : StepMap) (p : Z) : Z :=
  if p <? sm_start m then p
  else if p <=? sm_start m + sm_old m then
    if sm_old m =? 0 then sm_start m + sm_new m
    else if p =? sm_start m then sm_start m
    else sm_start m + sm_new m
  else p + (sm_new m - sm_old m).

(** [selection.map(doc, mapping)] *)
Definition map_selection (d : Doc) (m : StepMap) (s : Selection)
  : Exn + Selection :=
  match s with
  | AllSelection => inr AllSelection
  | TextSelection a h =>
      match resolve d (map_pos m h) with
      | inl e => inl e
      | inr (Depth0 i) => inr (near_depth0 d i)
      | inr (Depth1 _ _) =>
          match resolve d (map_pos m a) with
          | inl e => inl e
          | inr (Depth1 _ _) => inr (TextSelection (map_pos m a) (map_pos m h))
          | inr (Depth0 _) => inr (TextSelection (map_pos m h) (map_pos m h))
          end
      end
  end.

(** [view.state]: the document and the selection. *)
Record EditorState := { doc : Doc; selection : Selection }.

(** [EditorState.create({doc, ...})] *)
Definition EditorState_create (d : Doc) : EditorState :=
  {| doc := d; selection := atStart d |}.

(** A transaction: the document and selection it will install. *)
Record Transaction := { tr_doc : Doc; tr_selection : Selection }.

(** [state.tr] *)
Definition tr (s : EditorState) : Transaction :=
  {| tr_doc := doc s; tr_selection := selection s |}.

(** [tr.setSelection(sel)] *)
Definition setSelection (t : Transaction) (s : Selection) : Transaction :=
  {| tr_doc := tr_doc t; tr_selection := s |}.

(** Record one replace step: the new document, and the selection mapped
    through the step. *)
Definition step (t : Transaction) (d' : Doc) (m : StepMap) : Exn + Transaction :=
  match map_selection d' m (tr_selection t) with
  | inl e => inl e
  | inr s => inr {| tr_doc := d'; tr_selection := s |}
  end.

(** [state.apply(tr)] *)
Definition apply (t : Transaction) : EditorState :=
  {| doc := tr_doc t; selection := tr_selection t |}.

(** The part of a text before / from a character offset. *)
Definition text_before (k : nat) (s : string) : string := substring 0 k s.
Definition text_from (k : nat) (s : string) : string :=
  substring k (String.length s - k) s.

(** [tr.delete(from, to)].  Modelled for ranges that cover whole top-level
    blocks: blocks [i .. j-1] go; when none would remain the document is
    completed with an empty paragraph, as [doc] requires [block+]. *)
Definition tr_delete (t : Transaction) (from to : Z) : Exn + Transaction :=
  if from =? to then inr t
  else
    let d := tr_doc t in
    match resolve d from with
    | inl e => inl e
    | inr rf =>
        match resolve d to with
        | inl e => inl e
        | inr rt =>
            match rf, rt with
            | Depth0 i, Depth0 j =>
                if (i <? j)%nat then
                  match take i d ++ drop j d with
                  | [] =>
                      step t [ {| ntype := paragraph; text := EmptyString |} ]
                           {| sm_start := from; sm_old := to - from; sm_new := 2 |}
                  | d' =>
                      step t d'
                           {| sm_start := from; sm_old := to - from; sm_new := 0 |}
                  end
                else inl Unmodelled
            | _, _ => inl Unmodelled
            end
        end
    end.

(** [tr.insert(pos, node)] for a block node.  Between blocks the node is put
    there.  Inside a block the block is split around the node; at the end of
    the block's text nothing is left to split off. *)
Definition tr_insert (t : Transaction) (pos : Z) (n : Block) : Exn + Transaction :=
  let d := tr_doc t in
  match resolve d pos with
  | inl e => inl e
  | inr (Depth0 i) =>
      step t (take i d ++ n :: drop i d)
           {| sm_start := pos; sm_old := 0; sm_new := nodeSize n |}
  | inr (Depth1 i k) =>
      match d !! i with
      | None => inl Unmodelled
      | Some b =>
          if (k =? String.length (text b))%nat then
            step t (take i d ++ b :: n :: drop (S i) d)
                 {| sm_start := pos; sm_old := 1; sm_new := nodeSize n + 1 |}
          else
            step t (take i d
                    ++ {| ntype := ntype b; text := text_before k (text b) |}
                    :: n
                    :: {| ntype := ntype b; text := text_from k (text b) |}
                    :: drop (S i) d)
                 {| sm_start := pos; sm_old := 0; sm_new := nodeSize n + 2 |}
      end
  end.

(** [tr.replaceWith(from, to, schema.text(s))].  Modelled for a range inside
    the text of one block: the text of the range is replaced by [s]. *)
Definition tr_replaceWith (t : Transaction) (from to : Z) (s : string)
  : Exn + Transaction :=
  let d := tr_doc t in
  match resolve d from with
  | inl e => inl e
  | inr rf =>
      match resolve d to with
      | inl e => inl e
      | inr rt =>
          match rf, rt with
          | Depth1 i k1, Depth1 j k2 =>
              match d !! i with
              | Some b =>
                  if bool_decide (i = j) && (k1 <=? k2)%nat then
                    step t (<[ i := {| ntype := ntype b;
                                       text := text_before k1 (text b) +:+ s
                                               +:+ text_from k2 (text b) |} ]> d)
                         {| sm_start := from; sm_old := to - from;
                            sm_new := JS.len s |}
                  else inl Unmodelled
              | None => inl Unmodelled
              end
          | _, _ => inl Unmodelled
          end
      end
  end.

End PM.
(* ===================================================================== *)
(** ** Occurrences of a search text in a document *)
(* ===================================================================== *)

(** [s] occurs, ignoring case, in the text node of block [b] at character
    offset [k]. *)
Definition matches_at (s : string) (b : PM.Block) (k : nat) : Prop :=
  PM.text b <> EmptyString
  /\ JS.occurs_at (JS.toLowerCase s) (JS.toLowerCase (PM.text b)) k.

(** [s] occurs somewhere in the inline text of [d]. *)
Definition occurs_in (s : string) (d : PM.Doc) : Prop :=
  exists i b k, d !! i = Some b /\ matches_at s b k.

(** The first occurrence of [s] in document order: block [i], offset [k]. *)
Definition first_match (s : string) (d : PM.Doc) (i k : nat) : Prop :=
  exists b,
    d !! i = Some b /\ matches_at s b k
    /\ (forall k', (k' < k)%nat -> ~ matches_at s b k')
    /\ (forall j b' k', (j < i)%nat -> d !! j = Some b' -> ~ matches_at s b' k').

(** The text of the whole document: the texts of its blocks, in order. *)
Fixpoint all_text (d : PM.Doc) : string :=
  match d with
  | [] => EmptyString
  | b :: r => PM.text b +:+ all_text r
  end.

(** Both endpoints of a selection are positions of the document. *)
Definition valid_selection (d : PM.Doc) (s : PM.Selection) : Prop :=
  match s with
  | PM.TextSelection a h =>
      (0 <= a <= PM.contentSize d) /\ (0 <= h <= PM.contentSize d)
  | PM.AllSelection => True
  end.

(* ===================================================================== *)
(** ** Awareness and the cursor projection plugin
       ([headless-cursor-plugin.js]) *)
(* ===================================================================== *)

(** The Yjs side of the binding, as the plugin uses it: relative positions,
    [absolutePositionToRelativePosition(pos, ystate.type, mapping)] (the
    shared type and the mapping mirror the local document) and
    [Y.compareRelativePositions]. *)
Class YBinding := {
  RelPos : Type;
  absolutePositionToRelativePosition : Z -> PM.Doc -> RelPos;
  compareRelativePositions : RelPos -> RelPos -> bool
}.

Section Engine.

Context `{YBinding}.

(** The [user] field that [connect] registers. *)
Record User := { color : string; name : string; id : string }.

(** The [cursor] field: a pair of relative positions. *)
Record Cursor := { c_anchor : RelPos; c_head : RelPos }.

(** The local awareness state; [None] in a field stands for [null] or
    [undefined]. *)
Record LocalState := { user : option User; cursor : option Cursor }.

(** The awareness handle: the local state ([None] once it has been removed)
    and every local state broadcast so far, oldest first. *)
Record Awareness := {
  localState : option LocalState;
  published : list LocalState
}.

(** The awareness of a fresh provider: an empty local state. *)
Definition new_awareness : Awareness :=
  {| localState := Some {| user := None; cursor := None |}; published := [] |}.

(** [awareness.setLocalStateField('user', u)] *)
Definition setLocalStateField_user (aw : Awareness) (u : User) : Awareness :=
  match localState aw with
  | None => aw
  | Some s =>
      let s' := {| user := Some u; cursor := cursor s |} in
      {| localState := Some s'; published := published aw ++ [s'] |}
  end.

(** [awareness.setLocalStateField('cursor', c)] *)
Definition setLocalStateField_cursor (aw : Awareness) (c : option Cursor)
  : Awareness :=
  match localState aw with
  | None => aw
  | Some s =>
      let s' := {| user := user s; cursor := c |} in
      {| localState := Some s'; published := published aw ++ [s'] |}
  end.

(** [updateCursorInfo], the plugin view's [update]. *)
Definition updateCursorInfo (v : PM.EditorState) (aw : Awareness) : Awareness :=
  let current :=
    default {| user := None; cursor := None |} (localState aw) in
  match PM.selection v with
  | PM.AllSelection => aw
  | PM.TextSelection a h =>
      let anchor := absolutePositionToRelativePosition a (PM.doc v) in
      let head := absolutePositionToRelativePosition h (PM.doc v) in
      if match cursor current with
         | None => true
         | Some c =>
             negb (compareRelativePositions (c_anchor c) anchor)
             || negb (compareRelativePositions (c_head c) head)
         end
      then setLocalStateField_cursor aw (Some {| c_anchor := anchor; c_head := head |})
      else aw
  end.

(** The plugin view's [destroy]. *)
Definition plugin_destroy (aw : Awareness) : Awareness :=
  setLocalStateField_cursor aw None.

(* ===================================================================== *)
(** ** The session connection manager and the operations
       ([document-operations.js]) *)
(* ===================================================================== *)

(** What the collaboration endpoint does to one provider: whether
    [provider.synced] already holds when [connect] looks, after how many
    milliseconds the first ['sync'] event with [isSynced = true] arrives (if
    ever), the client id of the Yjs document, and the document found in the
    shared type once synced. *)
Record SyncOutcome := {
  synced : bool;
  sync_event : option Z;
  clientID : Z;
  remote_doc : PM.Doc
}.

(** The endpoint: collaboration URL, document URL and the number of the
    provider give the outcome. *)
Definition Network := string -> string -> nat -> SyncOutcome.

Variable net : Network.

(** The delay of [setTimeout] in [connect], in milliseconds. *)
Definition SYNC_TIMEOUT : Z := 10000.

(** The promise [connect] awaits resolves before its timer rejects it. *)
Definition sync_resolves (o : SyncOutcome) : bool :=
  synced o
  || match sync_event o with
     | Some t => t <? SYNC_TIMEOUT
     | None => false
     end.

(** The promise is rejected by the timer: the provider is not yet synced when
    [connect] looks, and no ['sync'] event with [isSynced = true] arrives
    before the 10000 milliseconds are over. *)
Definition sync_times_out (o : SyncOutcome) : Prop :=
  synced o = false /\ forall t, sync_event o = Some t -> SYNC_TIMEOUT <= t.

(** Everything [connect] builds around one [WebsocketProvider].  [view] is
    [None] until the editor view exists. *)
Record Session := {
  s_collabUrl : string;
  s_docUrl : string;
  awareness : Awareness;
  view : option PM.EditorState;
  destroyed : bool
}.

(** The process state: [this.connections] (key to connection object, the
    objects being named by the number of their provider), the objects
    themselves, and the number of providers opened so far. *)
Record OpsState := {
  connections : gmap string nat;
  sessions : gmap nat Session;
  opened : nat
}.

(** [new DocumentOperations()] *)
Definition initial : OpsState :=
  {| connections := ∅; sessions := ∅; opened := 0 |}.

(** Computations over the process state that may throw. *)
Definition M (A : Type) : Type := OpsState -> (PM.Exn + A) * OpsState.

Definition ret {A} (a : A) : M A := fun st => (inr a, st).

Definition bind {A B} (m : M A) (k : A -> M B) : M B :=
  fun st =>
    match m st with
    | (inr a, st') => k a st'
    | (inl e, st') => (inl e, st')
    end.

Definition throw {A} (e : PM.Exn) : M A := fun st => (inl e, st).

Definition lift {A} (r : PM.Exn + A) : M A := fun st => (r, st).

Notation "x <- m ;; k" := (bind m (fun x => k))
  (at level 100, m at next level, right associativity).
Notation "m ;;; k" := (bind m (fun _ => k))
  (at level 100, right associativity).

(** The object every operation returns. *)
Record Result := {
  success : bool;
  message : string;
  position : option (Z * Z)
}.

(** [try { ... } catch (error) { return { success: false, message:
    `Error: ${error.message}` } }] *)
Definition try_catch (m : M Result) : OpsState -> Result * OpsState :=
  fun st =>
    match m st with
    | (inr r, st') => (r, st')
    | (inl e, st') =>
        ({| success := false;
            message := "Error: " +:+ PM.message_of e;
            position := None |}, st')
    end.

(** The cache key, [`${collabUrl}:${docUrl}`]. *)
Definition cache_key (docUrl collabUrl : string) : string :=
  collabUrl +:+ ":" +:+ docUrl.

(** Where a call of [connect] stands when it first gives up control: it has
    returned the cached connection, or it awaits the sync promise of the
    provider it opened. *)
Inductive Pending :=
| Cached (h : nat)
| Awaiting (key : string) (h : nat) (o : SyncOutcome).

(** [connect] up to its [await]: the cache lookup and, on a miss, the new
    provider with the agent's awareness entry. *)
Definition connect_begin (docUrl collabUrl : string) (st : OpsState)
  : Pending * OpsState :=
  let key := cache_key docUrl collabUrl in
  match connections st !! key with
  | Some h => (Cached h, st)
  | None =>
      let h := opened st in
      let o := net collabUrl docUrl h in
      let aw :=
        setLocalStateField_user new_awareness
          {| color := "#667eea"; name := "🤖 DA Agent";
             id := "da-agent-" +:+ pretty (clientID o) |} in
      (Awaiting key h o,
       {| connections := connections st;
          sessions := <[ h := {| s_collabUrl := collabUrl; s_docUrl := docUrl;
                                 awareness := aw; view := None;
                                 destroyed := false |} ]> (sessions st);
          opened := S h |})
  end.

Definition set_view (v : PM.EditorState) (s : Session) : Session :=
  {| s_collabUrl := s_collabUrl s; s_docUrl := s_docUrl s;
     awareness := awareness s; view := Some v; destroyed := destroyed s |}.

(** [connect] from its [await] on: the timeout, or the editor view over the
    synced document and the cache entry. *)
Definition connect_resume (p : Pending) : M nat :=
  fun st =>
    match p with
    | Cached h => (inr h, st)
    | Awaiting key h o =>
        if sync_resolves o then
          (inr h,
           {| connections := <[ key := h ]> (connections st);
              sessions := alter (set_view (PM.EditorState_create (remote_doc o)))
                                h (sessions st);
              opened := opened st |})
        else (inl (PM.Error "Sync timeout"), st)
    end.

(** [connect(docUrl, collabUrl)], run without interruption. *)
Definition connect (docUrl collabUrl : string) : M nat :=
  fun st =>
    let '(p, st1) := connect_begin docUrl collabUrl st in
    connect_resume p st1.

(** Two calls of [connect] for the same document that overlap: the second
    starts while the first awaits its sync promise; they resume in order. *)
Definition connect_overlapping (docUrl collabUrl : string) (st : OpsState)
  : ((PM.Exn + nat) * (PM.Exn + nat)) * OpsState :=
  let '(p1, st1) := connect_begin docUrl collabUrl st in
  let '(p2, st2) := connect_begin docUrl collabUrl st1 in
  let '(r1, st3) := connect_resume p1 st2 in
  let '(r2, st4) := connect_resume p2 st3 in
  ((r1, r2), st4).

Definition destroy_session (s : Session) : Session :=
  {| s_collabUrl := s_collabUrl s; s_docUrl := s_docUrl s;
     awareness := plugin_destroy (awareness s); view := view s;
     destroyed := true |}.

(** [disconnect(docUrl, collabUrl)] *)
Definition disconnect (docUrl collabUrl : string) (st : OpsState) : OpsState :=
  let key := cache_key docUrl collabUrl in
  match connections st !! key with
  | Some h =>
      {| connections := delete key (connections st);
         sessions := alter destroy_session h (sessions st);
         opened := opened st |}
  | None => st
  end.

(** [const { view } = connection; ... view.state] *)
Definition view_state (h : nat) : M PM.EditorState :=
  fun st =>
    match sessions st !! h with
    | Some {| view := Some v |} => (inr v, st)
    | _ => (inl (PM.TypeError "Cannot read properties of undefined"), st)
    end.

Definition dispatch_session (t : PM.Transaction) (s : Session) : Session :=
  {| s_collabUrl := s_collabUrl s; s_docUrl := s_docUrl s;
     awareness := updateCursorInfo (PM.apply t) (awareness s);
     view := Some (PM.apply t); destroyed := destroyed s |}.

(** [view.dispatch(tr)]: the new state, then the plugin view's update. *)
Definition dispatch (h : nat) (t : PM.Transaction) : M unit :=
  fun st =>
    (inr tt,
     {| connections := connections st;
        sessions := alter (dispatch_session t) h (sessions st);
        opened := opened st |}).

(** The callback of [findText]; its state is [(found, foundPos)]. *)
Definition findText_visit (searchText : string) (n : PM.Node) (pos : Z)
    (acc : bool * Z) : bool * (bool * Z) :=
  let '(found, foundPos) := acc in
  if found then (false, acc)
  else
    match n with
    | PM.TextNode t =>
        if negb (bool_decide (t = EmptyString)) then
          let index :=
            JS.indexOf (JS.toLowerCase t) (JS.toLowerCase searchText) in
          if 0 <=? index then (false, (true, pos + index)) else (true, acc)
        else (true, acc)
    | PM.DocNode _ | PM.BlockNode _ => (true, acc)
    end.

(** [findText(view, searchText)] *)
Definition findText (v : PM.EditorState) (searchText : string)
  : option (Z * Z) :=
  let '(found, foundPos) :=
    PM.descendants (findText_visit searchText) (PM.doc v) (false, -1) in
  if found then Some (foundPos, foundPos + JS.len searchText) else None.

Definition not_found (searchText : string) : Result :=
  {| success := false;
     message := "Text " +:+ JS.dquote +:+ searchText +:+ JS.dquote
                +:+ " not found";
     position := None |}.

Definition found (searchText : string) (from to : Z) : Result :=
  {| success := true;
     message := "Found " +:+ JS.dquote +:+ searchText +:+ JS.dquote
                +:+ " at position " +:+ pretty from +:+ "-" +:+ pretty to;
     position := Some (from, to) |}.

(** [positionCursor(docUrl, collabUrl, searchText)] *)
Definition positionCursor (docUrl collabUrl searchText : string)
  : OpsState -> Result * OpsState :=
  try_catch (
    h <- connect docUrl collabUrl ;;
    v <- view_state h ;;
    match findText v searchText with
    | Some (from, to) =>
        sel <- lift (PM.TextSelection_create (PM.doc v) from to) ;;
        dispatch h (PM.setSelection (PM.tr v) sel) ;;;
        ret (found searchText from to)
    | None => ret (not_found searchText)
    end).

(** [$from.parent]: the document at depth 0, the block at depth 1. *)
Definition parent (d : PM.Doc) (r : PM.ResolvedPos) : option PM.Node :=
  match r with
  | PM.Depth0 _ => Some (PM.DocNode d)
  | PM.Depth1 i _ => PM.BlockNode <$> d !! i
  end.

(** [deleteBlock(docUrl, collabUrl)] *)
Definition deleteBlock (docUrl collabUrl : string)
  : OpsState -> Result * OpsState :=
  try_catch (
    h <- connect docUrl collabUrl ;;
    v <- view_state h ;;
    rfrom <- lift (PM.resolve (PM.doc v) (PM.sel_from (PM.doc v) (PM.selection v))) ;;
    match parent (PM.doc v) rfrom with
    | Some _ =>
        from <- lift (PM.before (PM.doc v) rfrom) ;;
        to <- lift (PM.after (PM.doc v) rfrom) ;;
        t <- lift (PM.tr_delete (PM.tr v) from to) ;;
        dispatch h t ;;;
        ret {| success := true; message := "Block deleted successfully";
               position := None |}
    | None =>
        ret {| success := false; message := "No block to delete";
               position := None |}
    end).

(** The node [insertAtCursor] creates for a [nodeType]. *)
Definition create_node (text nodeType : string) : PM.Exn + PM.Block :=
  if bool_decide (nodeType = "paragraph") then
    match PM.schema_text text with
    | inl e => inl e
    | inr t => inr {| PM.ntype := PM.paragraph; PM.text := t |}
    end
  else if JS.startsWith nodeType "heading" then
    let level := JS.parseInt (JS.replace nodeType "heading" "") in
    match PM.schema_text text with
    | inl e => inl e
    | inr t => inr {| PM.ntype := PM.heading level; PM.text := t |}
    end
  else
    match PM.schema_text text with
    | inl e => inl e
    | inr t => inr {| PM.ntype := PM.paragraph; PM.text := t |}
    end.

(** [insertAtCursor(docUrl, collabUrl, text, nodeType = 'paragraph')];
    [None] is an omitted [nodeType]. *)
Definition insertAtCursor (docUrl collabUrl text : string)
    (nodeType_arg : option string) : OpsState -> Result * OpsState :=
  let nodeType := default "paragraph" nodeType_arg in
  try_catch (
    h <- connect docUrl collabUrl ;;
    v <- view_state h ;;
    node <- lift (create_node text nodeType) ;;
    t <- lift (PM.tr_insert (PM.tr v) (PM.sel_to (PM.doc v) (PM.selection v)) node) ;;
    dispatch h t ;;;
    ret {| success := true; message := nodeType +:+ " inserted successfully";
           position := None |}).

(** [replaceText(docUrl, collabUrl, findText, replaceText)] *)
Definition replaceText (docUrl collabUrl findText_arg replaceText_arg : string)
  : OpsState -> Result * OpsState :=
  try_catch (
    h <- connect docUrl collabUrl ;;
    v <- view_state h ;;
    match findText v findText_arg with
    | Some (from, to) =>
        s <- lift (PM.schema_text replaceText_arg) ;;
        t <- lift (PM.tr_replaceWith (PM.tr v) from to s) ;;
        dispatch h t ;;;
        ret {| success := true; message := "Text replaced successfully";
               position := None |}
    | None => ret (not_found findText_arg)
    end).

End Engine.

(** Every editor view of the process has its selection inside its
    document. *)
Definition selections_valid `{YBinding} (st : OpsState) : Prop :=
  forall h s v,
    sessions st !! h = Some s -> view s = Some v ->
    valid_selection (PM.doc v) (PM.selection v).

(* ===================================================================== *)
(** ** Concrete data for running the model *)
(* ===================================================================== *)

(** A binding whose relative positions are the absolute ones. *)
Definition flat_binding : YBinding :=
  {| RelPos := Z;
     absolutePositionToRelativePosition := fun p _ => p;
     compareRelativePositions := Z.eqb |}.

Definition par (s : string) : PM.Block :=
  {| PM.ntype := PM.paragraph; PM.text := s |}.

(** The document of the scenario in the specification. *)
Definition scenario_doc : PM.Doc :=
  [par "Intro"; par "Old Title"; par "Conclusion"].

(** An endpoint that syncs after 120 ms and serves [scenario_doc]. *)
Definition quick_net : Network :=
  fun _ _ _ =>
    {| synced := false; sync_event := Some 120; clientID := 42;
       remote_doc := scenario_doc |}.

(** An endpoint whose first sync event comes after 15 seconds. *)
Definition slow_net : Network :=
  fun _ _ _ =>
    {| synced := false; sync_event := Some 15000; clientID := 42;
       remote_doc := scenario_doc |}.

(** A connected session over two paragraphs whose selection runs backwards:
    the anchor (position 6) is inside the second paragraph, the head
    (position 2) inside the first. *)
Definition backward_state : @OpsState flat_binding :=
  {| connections := {[ @cache_key "doc" "ws://c" := 0%nat ]};
     sessions :=
       {[ 0%nat :=
            {| s_collabUrl := "ws://c"; s_docUrl := "doc";
               awareness := @new_awareness flat_binding;
               view := Some {| PM.doc := [par "ab"; par "cd"];
                               PM.selection := PM.TextSelection 6 2 |};
               destroyed := false |} ]};
     opened := 1 |}.

(* ===================================================================== *)
(** ** The helper [setCursor] and invariants of the process state *)
(* ===================================================================== *)

(** [Selection.atEnd(doc)]: the end of the last block, or everything. *)
Definition Selection_atEnd (d : PM.Doc) : PM.Selection :=
  match d with
  | [] => PM.AllSelection
  | _ :: _ =>
      PM.TextSelection (PM.contentSize d - 1) (PM.contentSize d - 1)
  end.

(** A selection that runs forwards. *)
Definition forward_selection (s : PM.Selection) : Prop :=
  match s with
  | PM.TextSelection a h => a <= h
  | PM.AllSelection => True
  end.

Section Callers.

Context `{YBinding}.
Variable net : Network.

Notation "x <- m ;; k" := (bind m (fun x => k))
  (at level 100, m at next level, right associativity).

(** [setCursor(view, pos)], the view being the one of connection [h].  It has
    no [try]: what [TextSelection.create] throws leaves the function. *)
Definition setCursor (h : nat) (pos : Z) : M unit :=
  v <- view_state h ;;
  sel <- lift (if pos =? 0 then inr (PM.atStart (PM.doc v))
               else if pos <? 0 then inr (Selection_atEnd (PM.doc v))
               else PM.TextSelection_create (PM.doc v) pos pos) ;;
  dispatch h (PM.setSelection (PM.tr v) sel).

(** The cache and the sessions fit together: a cached connection is the
    number of a provider that was opened, its session has a view and is not
    destroyed; no connection is cached under two keys; every session belongs
    to a provider that was opened. *)
Definition cache_consistent (st : OpsState) : Prop :=
  (forall k h, connections st !! k = Some h ->
     (h < opened st)%nat
     /\ exists s v, sessions st !! h = Some s /\ view s = Some v
                    /\ destroyed s = false)
  /\ (forall k k' h,
        connections st !! k = Some h -> connections st !! k' = Some h -> k = k')
  /\ (forall h s, sessions st !! h = Some s -> (h < opened st)%nat).

(** Every text selection runs forwards: its anchor is not after its head. *)
Definition selections_forward (st : OpsState) : Prop :=
  forall h s v a hd,
    sessions st !! h = Some s -> view s = Some v ->
    PM.selection v = PM.TextSelection a hd -> a <= hd.

(** Every awareness state of the process, the local one and each one
    broadcast, carries the agent's [user] entry. *)
Definition agent_user (u : User) : Prop :=
  color u = "#667eea" /\ name u = "🤖 DA Agent".

(** An awareness handle whose local state and broadcast states all carry
    the agent's entry. *)
Definition registered_awareness (aw : Awareness) : Prop :=
  (exists ls u, localState aw = Some ls /\ user ls = Some u /\ agent_user u)
  /\ Forall (fun ls => exists u, user ls = Some u /\ agent_user u) (published aw).

Definition user_registered (st : OpsState) : Prop :=
  forall h s,
    sessions st !! h = Some s ->
    (exists ls u, localState (awareness s) = Some ls /\ user ls = Some u
                  /\ agent_user u)
    /\ Forall (fun ls => exists u, user ls = Some u /\ agent_user u)
          (published (awareness s)).

(** The four operations, as one call of the operations surface. *)
Inductive Call :=
| call_positionCursor (searchText : string)
| call_deleteBlock
| call_insertAtCursor (text : string) (nodeType : option string)
| call_replaceText (find replacement : string).

Definition run_call (docUrl collabUrl : string) (c : Call)
  : OpsState -> Result * OpsState :=
  match c with
  | call_positionCursor t => positionCursor net docUrl collabUrl t
  | call_deleteBlock => deleteBlock net docUrl collabUrl
  | call_insertAtCursor t nt => insertAtCursor net docUrl collabUrl t nt
  | call_replaceText f r => replaceText net docUrl collabUrl f r
  end.

(** The transactions an operation dispatches on a view [v]: a text selection
    that runs forwards, or the result of one of the three steps. *)
Definition operation_transaction (v : PM.EditorState) (t : PM.Transaction)
  : Prop :=
  (exists from to,
     from <= to
     /\ PM.TextSelection_create (PM.doc v) from to = inr (PM.TextSelection from to)
     /\ t = PM.setSelection (PM.tr v) (PM.TextSelection from to))
  \/ (exists from to, PM.tr_delete (PM.tr v) from to = inr t)
  \/ (exists pos n, PM.tr_insert (PM.tr v) pos n = inr t)
  \/ (exists from to s, PM.tr_replaceWith (PM.tr v) from to s = inr t).

(** What holds of every state the process reaches (see below). *)
Definition well_formed (st : OpsState) : Prop :=
  cache_consistent st /\ selections_valid st /\ selections_forward st
  /\ user_registered st.

(** The states the process reaches when calls run one after the other. *)
Inductive reachable : OpsState -> Prop :=
| reach_initial : reachable initial
| reach_connect docUrl collabUrl st :
    reachable st -> reachable (snd (connect net docUrl collabUrl st))
| reach_disconnect docUrl collabUrl st :
    reachable st -> reachable (disconnect docUrl collabUrl st)
| reach_call docUrl collabUrl c st :
    reachable st -> reachable (snd (run_call docUrl collabUrl c st))
| reach_setCursor h pos st :
    reachable st -> reachable (snd (setCursor h pos st)).

(** [n] calls of [connect] for one identity, one after the other. *)
Fixpoint connect_attempts (n : nat) (docUrl collabUrl : string)
    (st : OpsState) : OpsState :=
  match n with
  | O => st
  | S m =>
      connect_attempts m docUrl collabUrl
        (snd (connect net docUrl collabUrl st))
  end.

(* ===================================================================== *)
(** ** The routes ([routes/operations.js]) *)
(* ===================================================================== *)

(** The fields of [req.body] the routes read; [None] is a missing field. *)
Record RequestBody := {
  req_docUrl : option string;
  req_collabUrl : option string;
  req_text : option string;
  req_nodeType : option string;
  req_find : option string;
  req_replace : option string
}.

(** What a route sends: the status and the JSON body. *)
Record Response := { res_status : Z; res_body : Result }.

(** A value that is not falsy: a present, non-empty string. *)
Definition truthy (x : option string) : option string :=
  match x with
  | Some s => if bool_decide (s = EmptyString) then None else Some s
  | None => None
  end.

(** [a || b] *)
Definition js_or (a b : option string) : option string :=
  match truthy a with
  | Some s => Some s
  | None => b
  end.

(** [res.status(400).json({ success: false, message })] *)
Definition bad_request (msg : string) : Response :=
  {| res_status := 400;
     res_body := {| success := false; message := msg; position := None |} |}.

(** [res.json(result)] *)
Definition ok (r : Result) : Response := {| res_status := 200; res_body := r |}.

(** [POST /position-cursor] *)
Definition route_position_cursor (req : RequestBody) (st : OpsState)
  : Response * OpsState :=
  match truthy (req_docUrl req), truthy (req_collabUrl req),
        truthy (req_text req) with
  | Some docUrl, Some collabUrl, Some text =>
      let '(result, st') := positionCursor net docUrl collabUrl text st in
      (ok result, st')
  | _, _, _ =>
      (bad_request "Missing required parameters: docUrl, collabUrl, text", st)
  end.

(** [POST /delete-block] *)
Definition route_delete_block (req : RequestBody) (st : OpsState)
  : Response * OpsState :=
  match truthy (req_docUrl req), truthy (req_collabUrl req) with
  | Some docUrl, Some collabUrl =>
      let '(result, st') := deleteBlock net docUrl collabUrl st in
      (ok result, st')
  | _, _ => (bad_request "Missing required parameters: docUrl, collabUrl", st)
  end.

(** [POST /insert-at-cursor] *)
Definition route_insert_at_cursor (req : RequestBody) (st : OpsState)
  : Response * OpsState :=
  match truthy (req_docUrl req), truthy (req_collabUrl req),
        truthy (req_text req) with
  | Some docUrl, Some collabUrl, Some text =>
      let '(result, st') :=
        insertAtCursor net docUrl collabUrl text
          (js_or (req_nodeType req) (Some "paragraph")) st in
      (ok result, st')
  | _, _, _ =>
      (bad_request "Missing required parameters: docUrl, collabUrl, text", st)
  end.

(** [POST /replace-text] *)
Definition route_replace_text (req : RequestBody) (st : OpsState)
  : Response * OpsState :=
  match truthy (req_docUrl req), truthy (req_collabUrl req),
        truthy (req_find req), truthy (req_replace req) with
  | Some docUrl, Some collabUrl, Some find, Some replace =>
      let '(result, st') :=
        replaceText net docUrl collabUrl find replace st in
      (ok result, st')
  | _, _, _, _ =>
      (bad_request
         "Missing required parameters: docUrl, collabUrl, find, replace", st)
  end.

(** [POST /disconnect] *)
Definition route_disconnect (req : RequestBody) (st : OpsState)
  : Response * OpsState :=
  match truthy (req_docUrl req), truthy (req_collabUrl req) with
  | Some docUrl, Some collabUrl =>
      (ok {| success := true; message := "Disconnected"; position := None |},
       disconnect docUrl collabUrl st)
  | _, _ => (bad_request "Missing required parameters: docUrl, collabUrl", st)
  end.

(** The routes of the router, by the path they are mounted on. *)
Inductive Endpoint :=
| position_cursor
| delete_block
| insert_at_cursor
| replace_text
| disconnect_route.

Definition router (e : Endpoint) : RequestBody -> OpsState -> Response * OpsState :=
  match e with
  | position_cursor => route_position_cursor
  | delete_block => route_delete_block
  | insert_at_cursor => route_insert_at_cursor
  | replace_text => route_replace_text
  | disconnect_route => route_disconnect
  end.

End Callers.

(** The parameters the guard of each route tests, and the message it sends
    when one of them is falsy. *)
Definition required_parameters (e : Endpoint)
  : list (RequestBody -> option string) :=
  match e with
  | position_cursor | insert_at_cursor => [req_docUrl; req_collabUrl; req_text]
  | delete_block | disconnect_route => [req_docUrl; req_collabUrl]
  | replace_text => [req_docUrl; req_collabUrl; req_find; req_replace]
  end.

Definition missing_message (e : Endpoint) : string :=
  match e with
  | position_cursor | insert_at_cursor =>
      "Missing required parameters: docUrl, collabUrl, text"
  | delete_block | disconnect_route =>
      "Missing required parameters: docUrl, collabUrl"
  | replace_text =>
      "Missing required parameters: docUrl, collabUrl, find, replace"
  end.

(* ===================================================================== *)
(** ** The client loop ([sidepanel.js]) *)
(* ===================================================================== *)

(** [JSON.stringify] of a string: quotes and backslashes are escaped, control
    characters are written as their short escape or as [\u00XX]. *)
Definition hex_digit (n : nat) : ascii :=
  if (n <? 10)%nat then ascii_of_nat (48 + n) else ascii_of_nat (87 + n).

Definition json_escape_char (c : ascii) : string :=
  let n := nat_of_ascii c in
  let bs := String "092"%char EmptyString in
  if (n =? 34)%nat then bs +:+ JS.dquote
  else if (n =? 92)%nat then bs +:+ bs
  else if (n =? 8)%nat then bs +:+ "b"
  else if (n =? 9)%nat then bs +:+ "t"
  else if (n =? 10)%nat then bs +:+ "n"
  else if (n =? 12)%nat then bs +:+ "f"
  else if (n =? 13)%nat then bs +:+ "r"
  else if (n <? 32)%nat then
    bs +:+ "u00" +:+ String (hex_digit (n / 16))
                      (String (hex_digit (n mod 16)) EmptyString)
  else String c EmptyString.

Fixpoint json_escape (s : string) : string :=
  match s with
  | EmptyString => EmptyString
  | String c r => json_escape_char c +:+ json_escape r
  end.

Definition json_string (s : string) : string :=
  JS.dquote +:+ json_escape s +:+ JS.dquote.

(** [JSON.stringify(result)] for the objects the operations and routes
    return: [position] is left out when it is undefined. *)
Definition json_of_result (r : Result) : string :=
  "{" +:+ json_string "success" +:+ ":"
  +:+ (if success r then "true" else "false")
  +:+ "," +:+ json_string "message" +:+ ":" +:+ json_string (message r)
  +:+ match position r with
      | Some (from, to) =>
          "," +:+ json_string "position" +:+ ":{" +:+ json_string "from"
          +:+ ":" +:+ pretty from +:+ "," +:+ json_string "to" +:+ ":"
          +:+ pretty to +:+ "}"
      | None => EmptyString
      end
  +:+ "}".

(** What [fetch] gives [callBackendOperation]: a rejection, or a response
    with its status, its text and what [response.json()] parses from it. *)
Inductive FetchOutcome :=
| FetchRejected (msg : string)
| FetchResponse (status : Z) (text : string) (json : PM.Exn + Result).

(** The way to the backend: endpoint and request body in, outcome out, over
    whatever state [S] the other side has. *)
Definition Transport (S : Type) : Type :=
  Endpoint -> RequestBody -> S -> FetchOutcome * S.

(** [callBackendOperation(endpoint, data)] *)
Definition callBackendOperation {S : Type} (fetch : Transport S)
    (endpoint : Endpoint) (data : RequestBody) (st : S) : Result * S :=
  match fetch endpoint data st with
  | (FetchRejected msg, st') =>
      ({| success := false; message := msg; position := None |}, st')
  | (FetchResponse status text json, st') =>
      if (200 <=? status) && (status <=? 299) then
        match json with
        | inr result => (result, st')
        | inl e =>
            ({| success := false; message := PM.message_of e;
                position := None |}, st')
        end
      else
        ({| success := false;
            message := "Backend error: " +:+ pretty status +:+ " - " +:+ text;
            position := None |}, st')
  end.

(** A backend reached without network failures: the router answers, the
    client reads the JSON it sent. *)
Definition backend `{YBinding} (net : Network) : Transport OpsState :=
  fun endpoint data st =>
    let '(res, st') := router net endpoint data st in
    (FetchResponse (res_status res) (json_of_result (res_body res))
       (inr (res_body res)), st').

(** [op.params] *)
Record OpParams := {
  p_text : option string;
  p_nodeType : option string;
  p_find : option string;
  p_replace : option string
}.

(** One element of [data.operations]. *)
Record Operation := {
  op_type : string;
  op_text : option string;
  op_nodeType : option string;
  op_find : option string;
  op_replace : option string;
  op_params : option OpParams
}.

(** [currentContext] *)
Record PageContext := {
  org : option string;
  repo : option string;
  path : option string
}.

Definition empty_body : RequestBody :=
  {| req_docUrl := None; req_collabUrl := None; req_text := None;
     req_nodeType := None; req_find := None; req_replace := None |}.

(** The [switch] of [executeOperations] for one operation. *)
Definition execute_one {S : Type} (fetch : Transport S)
    (docUrl collabUrl : string) (op : Operation) (st : S) : Result * S :=
  let t := op_type op in
  if bool_decide (t = "position-cursor") || bool_decide (t = "positionCursor")
  then
    callBackendOperation fetch position_cursor
      {| req_docUrl := Some docUrl; req_collabUrl := Some collabUrl;
         req_text := js_or (op_text op) (op_params op ≫= p_text);
         req_nodeType := None; req_find := None; req_replace := None |} st
  else if bool_decide (t = "delete-block") || bool_decide (t = "deleteBlock")
  then
    callBackendOperation fetch delete_block
      {| req_docUrl := Some docUrl; req_collabUrl := Some collabUrl;
         req_text := None; req_nodeType := None; req_find := None;
         req_replace := None |} st
  else if bool_decide (t = "insert-at-cursor")
          || bool_decide (t = "insertAtCursor")
  then
    callBackendOperation fetch insert_at_cursor
      {| req_docUrl := Some docUrl; req_collabUrl := Some collabUrl;
         req_text := js_or (op_text op) (op_params op ≫= p_text);
         req_nodeType :=
           js_or (op_nodeType op)
             (js_or (op_params op ≫= p_nodeType) (Some "paragraph"));
         req_find := None; req_replace := None |} st
  else if bool_decide (t = "replace-text") || bool_decide (t = "replaceText")
  then
    callBackendOperation fetch replace_text
      {| req_docUrl := Some docUrl; req_collabUrl := Some collabUrl;
         req_text := None; req_nodeType := None;
         req_find := js_or (op_find op) (op_params op ≫= p_find);
         req_replace := js_or (op_replace op) (op_params op ≫= p_replace) |} st
  else
    ({| success := false; message := "Unknown operation type: " +:+ t;
        position := None |}, st).

(** The [for] loop: every operation in turn, each result pushed. *)
Fixpoint execute_all {S : Type} (fetch : Transport S)
    (docUrl collabUrl : string) (ops : list Operation) (st : S)
  : list Result * S :=
  match ops with
  | [] => ([], st)
  | op :: rest =>
      let '(result, st1) := execute_one fetch docUrl collabUrl op st in
      let '(results, st2) := execute_all fetch docUrl collabUrl rest st1 in
      (result :: results, st2)
  end.

(** What [executeOperations] leaves behind: the error it showed, or the
    results and the summary it put in the status line. *)
Inductive BatchOutcome :=
| ContextNotReady
| BatchDone (results : list Result) (summary : string).

Definition successCount (results : list Result) : nat :=
  length (filter (fun r => success r = true) results).

Definition failCount (results : list Result) : nat :=
  length (filter (fun r => success r = false) results).

(** The values of [op.type] the [switch] knows. *)
Definition operation_types : list string :=
  [ "position-cursor"; "positionCursor"; "delete-block"; "deleteBlock";
    "insert-at-cursor"; "insertAtCursor"; "replace-text"; "replaceText" ].

(** What an operation of an unknown type is answered with. *)
Definition unknown_operation (op : Operation) : Result :=
  {| success := false; message := "Unknown operation type: " +:+ op_type op;
     position := None |}.

(** [executeOperations(operations)] *)
Definition executeOperations {S : Type} (fetch : Transport S)
    (currentContext : option PageContext) (operations : list Operation)
    (st : S) : BatchOutcome * S :=
  match currentContext with
  | Some {| org := o; repo := r; path := p |} =>
      match truthy o, truthy r, truthy p with
      | Some org, Some repo, Some path =>
          let adminUrl := "http://localhost:8787" in
          let collabUrl := "ws://localhost:4711" in
          let docUrl :=
            adminUrl +:+ "/source/" +:+ org +:+ "/" +:+ repo +:+ "/" +:+ path
            +:+ ".html" in
          let '(results, st') :=
            execute_all fetch docUrl collabUrl operations st in
          (BatchDone results
             (if (0 <? failCount results)%nat
              then "⚠️ " +:+ pretty (successCount results) +:+ "/"
                   +:+ pretty (length operations) +:+ " operations succeeded"
              else "✅ All " +:+ pretty (successCount results)
                   +:+ " operations completed"),
           st')
      | _, _, _ => (ContextNotReady, st)
      end
  | None => (ContextNotReady, st)
  end.


(* ===================================================================== *)
(** ** More concrete data *)
(* ===================================================================== *)

(** The state after the first [connect] of the scenario. *)
Definition scenario_state : @OpsState flat_binding :=
  snd (@connect flat_binding quick_net "doc" "ws://c" (@initial flat_binding)).

(** Two identities connected on the same endpoint. *)
Definition two_identities : @OpsState flat_binding :=
  snd (@connect flat_binding quick_net "other" "ws://c" scenario_state).

(** An endpoint that is synced at once and serves a single paragraph. *)
Definition single_net : Network :=
  fun _ _ _ =>
    {| synced := true; sync_event := None; clientID := 7;
       remote_doc := [par "Only"] |}.

(** A page context, and operations as the assistant sends them. *)
Definition scenario_context : PageContext :=
  {| org := Some "o"; repo := Some "r"; path := Some "p" |}.

Definition operation (type : string) (text : option string) : Operation :=
  {| op_type := type; op_text := text; op_nodeType := None; op_find := None;
     op_replace := None; op_params := None |}.

Definition request (docUrl collabUrl text : option string) : RequestBody :=
  {| req_docUrl := docUrl; req_collabUrl := collabUrl; req_text := text;
     req_nodeType := None; req_find := None; req_replace := None |}.
(* ===================================================================== *)
(** * Properties *)
(* ===================================================================== *)

(** ** The model on small inputs *)

Example toLowerCase_ex : JS.toLowerCase "Old Title" = "old title".
Proof. reflexivity. Qed.

Example indexOf_ex :
  JS.indexOf "intro old title" "old" = 6 /\ JS.indexOf "abc" "" = 0
  /\ JS.indexOf "abc" "x" = -1.
Proof. repeat split. Qed.

Example parseInt_ex :
  JS.parseInt "2" = JS.Num 2 /\ JS.parseInt "7" = JS.Num 7
  /\ JS.parseInt "" = JS.NaN /\ JS.parseInt "foo" = JS.NaN
  /\ JS.parseInt " -12px" = JS.Num (-12) /\ JS.parseInt "0x1f" = JS.Num 31.
Proof. repeat split. Qed.

Example replace_ex : JS.replace "heading2" "heading" "" = "2".
Proof. reflexivity. Qed.

Example resolve_ex :
  PM.resolve scenario_doc 0 = inr (PM.Depth0 0)
  /\ PM.resolve scenario_doc 8 = inr (PM.Depth1 1 0)
  /\ PM.resolve scenario_doc 17 = inr (PM.Depth1 1 9)
  /\ PM.resolve scenario_doc 18 = inr (PM.Depth0 2)
  /\ PM.resolve scenario_doc 30 = inr (PM.Depth0 3)
  /\ PM.resolve scenario_doc 31
     = inl (PM.RangeError "Position 31 out of range").
Proof. repeat split. Qed.

Example findText_ex :
  findText (PM.EditorState_create scenario_doc) "old title" = Some (8, 17)
  /\ findText (PM.EditorState_create scenario_doc) "O" = Some (5, 6)
  /\ findText (PM.EditorState_create scenario_doc) "IntroOld" = None.
Proof. repeat split. Qed.

(** The scenario of the specification: select "Old Title", replace it by
    "New Title", insert the heading "Beaches" after it. *)
Example scenario_ex :
  let st1 := snd (@positionCursor flat_binding quick_net "doc" "ws://c"
                    "Old Title" initial) in
  let st2 := snd (@replaceText flat_binding quick_net "doc" "ws://c"
                    "Old Title" "New Title" st1) in
  let st3 := snd (@insertAtCursor flat_binding quick_net "doc" "ws://c"
                    "Beaches" (Some "heading2") st2) in
  (PM.doc <$> (sessions st3 !! 0%nat ≫= @view flat_binding))
  = Some [ par "Intro"; par "New Title";
           {| PM.ntype := PM.heading (JS.Num 2); PM.text := "Beaches" |};
           par "Conclusion" ].
Proof. reflexivity. Qed.

(** ** Strings *)

Module JSFacts.
Import JS.

Lemma app_empty t : EmptyString +:+ t = t.
Proof. reflexivity. Qed.

Lemma app_cons c s t : String c s +:+ t = String c (s +:+ t).
Proof. reflexivity. Qed.

Lemma toLowerCase_length s : String.length (toLowerCase s) = String.length s.
Proof. induction s as [|c r IH]; simpl; [reflexivity | now rewrite IH]. Qed.


Lemma toLowerCase_substring s : forall n m,
  toLowerCase (substring n m s) = substring n m (toLowerCase s).
Proof.
  induction s as [|c r IH]; intros [|n] [|m]; simpl; try reflexivity.
  - now rewrite IH.
  - apply IH.
  - apply IH.
Qed.

Lemma toLowerCase_empty s : toLowerCase s = EmptyString <-> s = EmptyString.
Proof. destruct s; simpl; split; congruence. Qed.

Lemma substring_length s : forall n m,
  String.length (substring n m s) = Nat.min m (String.length s - n).
Proof.
  induction s as [|c r IH]; intros [|n] [|m]; simpl; try reflexivity.
  - now rewrite IH, Nat.sub_0_r.
  - apply IH.
  - apply IH.
Qed.

Lemma substring_all s : substring 0 (String.length s) s = s.
Proof. induction s as [|c r IH]; simpl; [reflexivity | now rewrite IH]. Qed.


(** The text before an offset, followed by the text from it, is the text. *)
Lemma substring_split s : forall k, (k <= String.length s)%nat ->
  substring 0 k s +:+ substring k (String.length s - k) s = s.
Proof.
  induction s as [|c r IH]; intros [|k] Hk; simpl in *; try reflexivity.
  - now rewrite app_empty, substring_all.
  - rewrite app_cons, IH by lia. reflexivity.
Qed.



(** An occurrence found by [String.index] lies inside the text. *)
Lemma index_bound t s i :
  String.index 0 t s = Some i -> (i + String.length t <= String.length s)%nat.
Proof.
  intros Hi. destruct t as [|c t].
  - destruct (Nat.eq_dec i 0%nat) as [->|Hne]; [simpl; lia|].
    exfalso. apply (index_correct2 _ _ _ _ Hi 0%nat); [lia | lia |].
    now destruct s.
  - pose proof (index_correct1 _ _ _ _ Hi) as Hs.
    pose proof (substring_length s i (String.length (String c t))) as Hl.
    rewrite Hs in Hl.
    change (String.length (String c t)) with (S (String.length t)) in *. lia.
Qed.

Lemma indexOf_ge s t : -1 <= indexOf s t.
Proof. unfold indexOf. destruct (String.index 0 t s); lia. Qed.

(** [indexOf] returns the least offset of an occurrence. *)
Lemma indexOf_found s t :
  0 <= indexOf s t ->
  occurs_at t s (Z.to_nat (indexOf s t))
  /\ forall k, (k < Z.to_nat (indexOf s t))%nat -> ~ occurs_at t s k.
Proof.
  unfold indexOf. destruct (String.index 0 t s) as [i|] eqn:Hi; [|lia].
  intros _. rewrite Nat2Z.id. split.
  - split; [now apply index_bound | now apply (index_correct1 0 i)].
  - intros k Hk [_ Hocc].
    now apply (index_correct2 _ _ _ _ Hi k); [lia | |].
Qed.

(** [indexOf] returns [-1] only when there is no occurrence. *)
Lemma indexOf_none s t : indexOf s t < 0 -> forall k, ~ occurs_at t s k.
Proof.
  unfold indexOf. destruct (String.index 0 t s) as [i|] eqn:Hi; [lia|].
  intros _ k [Hb Hocc]. destruct t as [|c t].
  - apply index_correct4 in Hi. lia.
  - now apply (index_correct3 _ k _ _ Hi); [| lia |].
Qed.

Lemma indexOf_complete s t k : occurs_at t s k -> 0 <= indexOf s t.
Proof.
  intros Hocc. destruct (Z_lt_le_dec (indexOf s t) 0) as [Hneg|]; [|assumption].
  exfalso. exact (indexOf_none _ _ Hneg k Hocc).
Qed.

End JSFacts.

(** ** Positions in the document *)

Module PMFacts.
Import PM.

Lemma nodeSize_ge b : 2 <= nodeSize b.
Proof. unfold nodeSize, JS.len. lia. Qed.

Lemma contentSize_nonneg d : 0 <= contentSize d.
Proof. induction d as [|b r IH]; simpl; [lia | pose proof (nodeSize_ge b); lia]. Qed.

Lemma contentSize_app d1 d2 :
  contentSize (d1 ++ d2) = contentSize d1 + contentSize d2.
Proof. induction d1 as [|b r IH]; simpl; [reflexivity | rewrite IH; lia]. Qed.

Lemma block_start_0 d : block_start d 0 = 0.
Proof. reflexivity. Qed.

Lemma block_start_S (d : Doc) i b :
  d !! i = Some b -> block_start d (S i) = block_start d i + nodeSize b.
Proof.
  intros Hb. unfold block_start.
  rewrite (take_S_r _ _ _ Hb), contentSize_app. simpl. lia.
Qed.

Lemma block_start_cons b d i :
  block_start (b :: d) (S i) = nodeSize b + block_start d i.
Proof. reflexivity. Qed.

Lemma block_start_nonneg d i : 0 <= block_start d i.
Proof. apply contentSize_nonneg. Qed.

Lemma block_start_all (d : Doc) : block_start d (length d) = contentSize d.
Proof. unfold block_start. now rewrite firstn_all. Qed.

(** What [resolve_from] answers, read backwards. *)
Lemma resolve_from_inv d : forall i0 p r,
  0 <= p -> resolve_from d i0 p = Some r ->
  match r with
  | Depth0 j =>
      exists i, j = (i0 + i)%nat /\ (i <= length d)%nat /\ p = block_start d i
  | Depth1 j k =>
      exists i b, j = (i0 + i)%nat /\ d !! i = Some b
                  /\ (k <= String.length (text b))%nat
                  /\ p = text_start d i + Z.of_nat k
  end.
Proof.
  induction d as [|b d IH]; intros i0 p r Hp; simpl.
  - destruct (Z.eqb_spec p 0); [|discriminate].
    intros [= <-]. exists 0%nat. repeat split; [lia | simpl; lia | now subst].
  - destruct (Z.eqb_spec p 0).
    { intros [= <-]. exists 0%nat. repeat split; [lia | simpl; lia | now subst]. }
    destruct (Z.ltb_spec p (nodeSize b)).
    { intros [= <-]. exists 0%nat, b. repeat split; [lia | |].
      - unfold nodeSize, JS.len in *. lia.
      - unfold text_start. rewrite block_start_0. lia. }
    intros Hr. pose proof (nodeSize_ge b).
    specialize (IH (S i0) (p - nodeSize b) r ltac:(lia) Hr).
    destruct r as [j|j k].
    + destruct IH as (i & -> & Hi & Hpi). exists (S i).
      repeat split; [lia | simpl; lia | rewrite block_start_cons; lia].
    + destruct IH as (i & b' & -> & Hb' & Hk & Hpi). exists (S i), b'.
      repeat split; [lia | assumption | assumption |].
      unfold text_start in *. rewrite block_start_cons. lia.
Qed.

Lemma resolve_from_block_start d : forall i0 i,
  (i <= length d)%nat ->
  resolve_from d i0 (block_start d i) = Some (Depth0 (i0 + i)).
Proof.
  induction d as [|b d IH]; intros i0 i Hi; simpl in Hi.
  - replace i with 0%nat by lia. simpl. do 2 f_equal. lia.
  - destruct i as [|i].
    + simpl. do 2 f_equal. lia.
    + rewrite block_start_cons. simpl.
      pose proof (nodeSize_ge b). pose proof (block_start_nonneg d i).
      destruct (Z.eqb_spec (nodeSize b + block_start d i) 0); [lia|].
      destruct (Z.ltb_spec (nodeSize b + block_start d i) (nodeSize b)); [lia|].
      replace (nodeSize b + block_start d i - nodeSize b)
        with (block_start d i) by lia.
      rewrite IH by lia. do 2 f_equal. lia.
Qed.

Lemma resolve_from_text d : forall i0 i b k,
  d !! i = Some b -> (k <= String.length (text b))%nat ->
  resolve_from d i0 (text_start d i + Z.of_nat k) = Some (Depth1 (i0 + i) k).
Proof.
  induction d as [|b0 d IH]; intros i0 i b k Hb Hk; [discriminate|].
  destruct i as [|i]; simpl in Hb.
  - injection Hb as ->. unfold text_start. rewrite block_start_0. simpl.
    destruct (Z.eqb_spec (0 + 1 + Z.of_nat k) 0); [lia|].
    destruct (Z.ltb_spec (0 + 1 + Z.of_nat k) (nodeSize b)) as [_|Hge].
    + do 2 f_equal; lia.
    + unfold nodeSize, JS.len in Hge. lia.
  - unfold text_start. rewrite block_start_cons. simpl.
    pose proof (nodeSize_ge b0). pose proof (block_start_nonneg d i).
    destruct (Z.eqb_spec (nodeSize b0 + block_start d i + 1 + Z.of_nat k) 0); [lia|].
    destruct (Z.ltb_spec (nodeSize b0 + block_start d i + 1 + Z.of_nat k)
                (nodeSize b0)); [lia|].
    replace (nodeSize b0 + block_start d i + 1 + Z.of_nat k - nodeSize b0)
      with (text_start d i + Z.of_nat k) by (unfold text_start; lia).
    rewrite (IH (S i0) i b k Hb Hk). do 2 f_equal. lia.
Qed.

(** A position between two blocks resolves at depth 0. *)
Lemma resolve_block_start d i :
  (i <= length d)%nat -> resolve d (block_start d i) = inr (Depth0 i).
Proof.
  intros Hi. unfold resolve. pose proof (block_start_nonneg d i).
  destruct (Z.ltb_spec (block_start d i) 0); [lia|].
  now rewrite (resolve_from_block_start d 0 i Hi).
Qed.

(** A position inside the text of a block resolves at depth 1. *)
Lemma resolve_text (d : Doc) i b k :
  d !! i = Some b -> (k <= String.length (text b))%nat ->
  resolve d (text_start d i + Z.of_nat k) = inr (Depth1 i k).
Proof.
  intros Hb Hk. unfold resolve. pose proof (block_start_nonneg d i).
  destruct (Z.ltb_spec (text_start d i + Z.of_nat k) 0) as [Hneg|_].
  { unfold text_start in Hneg. lia. }
  now rewrite (resolve_from_text d 0 i b k Hb Hk).
Qed.

Lemma resolve_inv (d : Doc) p r :
  resolve d p = inr r ->
  match r with
  | Depth0 i => (i <= length d)%nat /\ p = block_start d i
  | Depth1 i k =>
      exists b, d !! i = Some b /\ (k <= String.length (text b))%nat
                /\ p = text_start d i + Z.of_nat k
  end.
Proof.
  unfold resolve. destruct (Z.ltb_spec p 0) as [|Hp]; [discriminate|].
  destruct (resolve_from d 0 p) as [r'|] eqn:Hr; [|discriminate].
  intros [= <-]. pose proof (resolve_from_inv d 0 p r' Hp Hr) as Hinv.
  destruct r' as [j|j k].
  - destruct Hinv as (i & -> & Hi & ->). now split.
  - destruct Hinv as (i & b & -> & Hb & Hk & ->). now exists b.
Qed.

End PMFacts.

(** ** Steps keep the selection inside the document *)

Module StepFacts.
Import PM JSFacts PMFacts.

Lemma resolve_from_total d : forall i0 p,
  0 <= p <= contentSize d -> exists r, resolve_from d i0 p = Some r.
Proof.
  induction d as [|b d IH]; intros i0 p Hp; simpl in *.
  - replace p with 0 by lia. now eexists.
  - destruct (Z.eqb_spec p 0); [now eexists|].
    destruct (Z.ltb_spec p (nodeSize b)); [now eexists|].
    apply IH. lia.
Qed.

(** Every position from 0 to the size of the content resolves. *)
Lemma resolve_total d p :
  0 <= p <= contentSize d -> exists r, resolve d p = inr r.
Proof.
  intros Hp. unfold resolve. destruct (Z.ltb_spec p 0); [lia|].
  destruct (resolve_from_total d 0 p Hp) as [r ->]. now eexists.
Qed.

Lemma resolve_range d p r : resolve d p = inr r -> 0 <= p <= contentSize d.
Proof.
  intros Hr. pose proof (resolve_inv d p r Hr) as Hinv. destruct r as [i|i k].
  - destruct Hinv as [Hi ->]. split; [apply block_start_nonneg|].
    unfold block_start. rewrite <- (take_drop i d) at 2.
    rewrite contentSize_app. pose proof (contentSize_nonneg (drop i d)). lia.
  - destruct Hinv as (b & Hb & Hk & ->).
    pose proof (block_start_nonneg d i). split; [unfold text_start; lia|].
    pose proof (block_start_S d i b Hb) as HS.
    assert (block_start d (S i) <= contentSize d).
    { unfold block_start. rewrite <- (take_drop (S i) d) at 2.
      rewrite contentSize_app. pose proof (contentSize_nonneg (drop (S i) d)). lia. }
    unfold text_start, nodeSize, JS.len in *. lia.
Qed.

Lemma map_pos_range m p size :
  0 <= sm_start m -> 0 <= sm_old m -> 0 <= sm_new m ->
  sm_start m + sm_old m <= size -> 0 <= p <= size ->
  0 <= map_pos m p <= size - sm_old m + sm_new m.
Proof.
  intros. unfold map_pos.
  destruct (Z.ltb_spec p (sm_start m)); [lia|].
  destruct (Z.leb_spec p (sm_start m + sm_old m)); [|lia].
  destruct (Z.eqb_spec (sm_old m) 0); [lia|].
  destruct (Z.eqb_spec p (sm_start m)); lia.
Qed.

(** Mapping a valid selection through a step whose map fits the old and the
    new document never throws. *)
Lemma map_selection_ok d d' m s :
  valid_selection d s ->
  0 <= sm_start m -> 0 <= sm_old m -> 0 <= sm_new m ->
  sm_start m + sm_old m <= contentSize d ->
  contentSize d' = contentSize d - sm_old m + sm_new m ->
  exists s', map_selection d' m s = inr s'.
Proof.
  intros Hv H0 H1 H2 H3 Hsize. destruct s as [a h|]; [|now eexists].
  destruct Hv as [Ha Hh]. unfold map_selection.
  pose proof (map_pos_range m a _ H0 H1 H2 H3 Ha) as Ha'.
  pose proof (map_pos_range m h _ H0 H1 H2 H3 Hh) as Hh'.
  rewrite <- Hsize in Ha', Hh'.
  destruct (resolve_total d' _ Hh') as [[i|i k] ->]; [now eexists|].
  destruct (resolve_total d' _ Ha') as [[j|j l] ->]; now eexists.
Qed.

Lemma step_ok t d' m :
  valid_selection (tr_doc t) (tr_selection t) ->
  0 <= sm_start m -> 0 <= sm_old m -> 0 <= sm_new m ->
  sm_start m + sm_old m <= contentSize (tr_doc t) ->
  contentSize d' = contentSize (tr_doc t) - sm_old m + sm_new m ->
  exists s', step t d' m = inr {| tr_doc := d'; tr_selection := s' |}.
Proof.
  intros Hv H0 H1 H2 H3 Hsize. unfold step.
  destruct (map_selection_ok _ d' m _ Hv H0 H1 H2 H3 Hsize) as [s' ->].
  now eexists.
Qed.

Lemma step_inv t d' m t' : step t d' m = inr t' -> tr_doc t' = d'.
Proof.
  unfold step. destruct (map_selection d' m (tr_selection t)); [discriminate|].
  now intros [= <-].
Qed.

Lemma contentSize_split (d : Doc) i :
  contentSize d = contentSize (take i d) + contentSize (drop i d).
Proof. now rewrite <- contentSize_app, take_drop. Qed.

Lemma drop_lookup_cons (d : Doc) i b :
  d !! i = Some b -> drop i d = b :: drop (S i) d.
Proof. intros Hb. now apply drop_S. Qed.

Lemma all_text_app d1 d2 : all_text (d1 ++ d2) = all_text d1 +:+ all_text d2.
Proof.
  induction d1 as [|b r IH]; simpl; [reflexivity|].
  rewrite IH. clear IH. generalize (text b) as s.
  induction s as [|c s IHs]; [reflexivity|].
  rewrite !app_cons. now rewrite IHs.
Qed.

Lemma text_before_length k s :
  (k <= String.length s)%nat -> String.length (text_before k s) = k.
Proof. intros Hk. unfold text_before. rewrite substring_length. lia. Qed.

Lemma text_from_length k s :
  (k <= String.length s)%nat ->
  String.length (text_from k s) = (String.length s - k)%nat.
Proof. intros Hk. unfold text_from. rewrite substring_length. lia. Qed.

Lemma block_end_le (d : Doc) i b :
  d !! i = Some b -> block_start d i + nodeSize b <= contentSize d.
Proof.
  intros Hb. rewrite <- (block_start_S d i b Hb). unfold block_start.
  rewrite (contentSize_split d (S i)).
  pose proof (contentSize_nonneg (drop (S i) d)). lia.
Qed.

(** [tr.insert] of a block at a position of the document succeeds: the new
    block stands between blocks that carry the old text, one of the old
    blocks being split in two when the position was inside it. *)
Lemma tr_insert_ok t pos n :
  valid_selection (tr_doc t) (tr_selection t) ->
  0 <= pos <= contentSize (tr_doc t) ->
  exists t' pre post,
    tr_insert t pos n = inr t'
    /\ tr_doc t' = pre ++ n :: post
    /\ all_text (pre ++ post) = all_text (tr_doc t)
    /\ (length (pre ++ post) = length (tr_doc t)
        \/ length (pre ++ post) = S (length (tr_doc t))).
Proof.
  destruct t as [d sel]. cbn [tr_doc tr_selection]. intros Hv Hpos.
  set (t := {| tr_doc := d; tr_selection := sel |}).
  unfold tr_insert. cbn [tr_doc t].
  destruct (resolve_total d pos Hpos) as [r Hr]. rewrite Hr.
  pose proof (resolve_inv d pos r Hr) as Hinv.
  pose proof (nodeSize_ge n) as Hn.
  destruct r as [i|i k].
  - destruct Hinv as [Hi ->].
    destruct (step_ok t (take i d ++ n :: drop i d)
                {| sm_start := block_start d i; sm_old := 0;
                   sm_new := nodeSize n |}) as [s' Hs']; simpl; try lia;
      try assumption.
    { rewrite contentSize_app. simpl. rewrite (contentSize_split d i). lia. }
    exists {| tr_doc := take i d ++ n :: drop i d; tr_selection := s' |},
      (take i d), (drop i d).
    rewrite take_drop. auto.
  - destruct Hinv as (b & Hb & Hk & ->). rewrite Hb.
    pose proof (block_start_nonneg d i) as Hbs.
    pose proof (block_end_le d i b Hb) as Hend.
    pose proof (contentSize_split d i) as Hsplit.
    rewrite (drop_lookup_cons d i b Hb) in Hsplit. simpl in Hsplit.
    destruct (Nat.eqb_spec k (String.length (text b))) as [->|Hne].
    + destruct (step_ok t (take i d ++ b :: n :: drop (S i) d)
                  {| sm_start := text_start d i + Z.of_nat (String.length (text b));
                     sm_old := 1; sm_new := nodeSize n + 1 |})
        as [s' Hs']; simpl; try assumption;
        try (unfold text_start, nodeSize, JS.len in *; lia).
      { rewrite contentSize_app. simpl.
        unfold block_start, text_start, nodeSize, JS.len in *. lia. }
      exists {| tr_doc := take i d ++ b :: n :: drop (S i) d; tr_selection := s' |},
        (take i d ++ [b]), (drop (S i) d).
      rewrite <- !app_assoc. simpl.
      rewrite <- (drop_lookup_cons d i b Hb), take_drop. auto.
    + set (b1 := {| ntype := ntype b; text := text_before k (text b) |}).
      set (b2 := {| ntype := ntype b; text := text_from k (text b) |}).
      assert (Hsz : nodeSize b1 + nodeSize b2 = nodeSize b + 2).
      { unfold nodeSize, JS.len, b1, b2. simpl.
        rewrite text_before_length, text_from_length by lia. lia. }
      destruct (step_ok t (take i d ++ b1 :: n :: b2 :: drop (S i) d)
                  {| sm_start := text_start d i + Z.of_nat k;
                     sm_old := 0; sm_new := nodeSize n + 2 |})
        as [s' Hs']; simpl; try assumption;
        try (unfold text_start, nodeSize, JS.len in *; lia).
      { rewrite contentSize_app. simpl.
        unfold block_start in *. lia. }
      exists {| tr_doc := take i d ++ b1 :: n :: b2 :: drop (S i) d;
                tr_selection := s' |},
        (take i d ++ [b1]), (b2 :: drop (S i) d).
      rewrite <- !app_assoc. simpl. repeat split; try assumption.
      * rewrite <- (take_drop i d) at 3.
        rewrite (drop_lookup_cons d i b Hb), !all_text_app. simpl.
        f_equal. unfold b1, b2. simpl.
        rewrite <- (substring_split (text b) k) at 3 by lia.
        unfold text_before, text_from.
        generalize (substring 0 k (text b)) as p.
        induction p as [|c p IHp]; [reflexivity|].
        rewrite !app_cons. now rewrite IHp.
      * right. rewrite <- (take_drop i d) at 3.
        rewrite (drop_lookup_cons d i b Hb), !length_app. simpl. lia.
Qed.

(** Deleting the span of block [i] from a document with more than one block
    removes that block and nothing else. *)
Lemma tr_delete_block_ok t i b :
  valid_selection (tr_doc t) (tr_selection t) ->
  tr_doc t !! i = Some b -> (1 < length (tr_doc t))%nat ->
  exists t',
    tr_delete t (block_start (tr_doc t) i) (block_start (tr_doc t) (S i)) = inr t'
    /\ tr_doc t' = take i (tr_doc t) ++ drop (S i) (tr_doc t).
Proof.
  destruct t as [d sel]. cbn [tr_doc tr_selection]. intros Hv Hb Hlen.
  set (t := {| tr_doc := d; tr_selection := sel |}).
  unfold tr_delete. cbn [tr_doc t].
  pose proof (block_start_S d i b Hb) as HS.
  pose proof (nodeSize_ge b) as Hnb.
  pose proof (lookup_lt_Some _ _ _ Hb) as Hi.
  pose proof (block_start_nonneg d i) as Hbs.
  pose proof (block_end_le d i b Hb) as Hend.
  destruct (Z.eqb_spec (block_start d i) (block_start d (S i))); [lia|].
  rewrite (resolve_block_start d i) by lia.
  rewrite (resolve_block_start d (S i)) by lia.
  destruct (Nat.ltb_spec i (S i)); [|lia].
  assert (Hsize : contentSize (take i d ++ drop (S i) d)
                  = contentSize d - nodeSize b).
  { rewrite contentSize_app, (contentSize_split d i),
      (drop_lookup_cons d i b Hb). simpl. lia. }
  destruct (take i d ++ drop (S i) d) as [|b0 rest] eqn:Hrest.
  - exfalso. apply (f_equal length) in Hrest.
    rewrite length_app, length_take, length_drop in Hrest. simpl in Hrest. lia.
  - destruct (step_ok t (b0 :: rest)
                {| sm_start := block_start d i;
                   sm_old := block_start d (S i) - block_start d i;
                   sm_new := 0 |}) as [s' Hs'];
      cbn [sm_start sm_old sm_new tr_doc tr_selection t]; try assumption;
      try lia.
    exists {| tr_doc := b0 :: rest; tr_selection := s' |}. auto.
Qed.

(** What a successful [tr.replaceWith] with a text did. *)
Lemma tr_replaceWith_inv t from to s t' :
  tr_replaceWith t from to s = inr t' ->
  exists i b k1 k2,
    resolve (tr_doc t) from = inr (Depth1 i k1)
    /\ resolve (tr_doc t) to = inr (Depth1 i k2)
    /\ tr_doc t !! i = Some b /\ (k1 <= k2)%nat
    /\ tr_doc t'
       = <[ i := {| ntype := ntype b;
                    text := text_before k1 (text b) +:+ s
                            +:+ text_from k2 (text b) |} ]> (tr_doc t).
Proof.
  unfold tr_replaceWith.
  destruct (resolve (tr_doc t) from) as [e|[i|i k1]] eqn:Hf; try discriminate.
  { destruct (resolve (tr_doc t) to) as [e|[j|j k2]]; discriminate. }
  destruct (resolve (tr_doc t) to) as [e|[j|j k2]] eqn:Ht; try discriminate.
  destruct (tr_doc t !! i) as [b|] eqn:Hb; [|discriminate].
  destruct (bool_decide_reflect (i = j)) as [<-|]; [|discriminate].
  destruct (Nat.leb_spec k1 k2); [|discriminate]. simpl.
  intros Hstep. exists i, b, k1, k2. repeat split; try assumption.
  now apply step_inv in Hstep.
Qed.

(** *** Steps leave a selection of the new document *)

Lemma near_depth0_valid d i :
  (i <= length d)%nat -> valid_selection d (near_depth0 d i).
Proof.
  intros Hi. unfold near_depth0. destruct (Nat.ltb_spec i (length d)) as [Hlt|Hge].
  - destruct (lookup_lt_is_Some_2 d i Hlt) as [b Hb].
    pose proof (block_end_le d i b Hb). pose proof (nodeSize_ge b).
    pose proof (block_start_nonneg d i). unfold text_start. simpl. lia.
  - destruct i as [|j]; [exact I|].
    assert (S j = length d) as -> by lia. rewrite block_start_all.
    destruct d as [|b d]; [simpl in Hi; lia|].
    pose proof (nodeSize_ge b). pose proof (contentSize_nonneg d).
    simpl. lia.
Qed.

Lemma map_selection_valid d m s s' :
  map_selection d m s = inr s' -> valid_selection d s'.
Proof.
  destruct s as [a h|]; [|now intros [= <-]]. unfold map_selection.
  destruct (resolve d (map_pos m h)) as [e|[i|i k]] eqn:Hh; [discriminate| |].
  - intros [= <-]. apply near_depth0_valid.
    now destruct (resolve_inv _ _ _ Hh).
  - pose proof (resolve_range _ _ _ Hh).
    destruct (resolve d (map_pos m a)) as [e|[j|j l]] eqn:Ha; [discriminate| |];
      intros [= <-]; simpl; [tauto|].
    pose proof (resolve_range _ _ _ Ha). tauto.
Qed.

Lemma step_valid t d' m t' :
  step t d' m = inr t' -> valid_selection (tr_doc t') (tr_selection t').
Proof.
  unfold step. destruct (map_selection d' m (tr_selection t)) as [e|s] eqn:Hm;
    [discriminate|].
  intros [= <-]. exact (map_selection_valid _ _ _ _ Hm).
Qed.

Lemma tr_insert_valid t pos n t' :
  tr_insert t pos n = inr t' -> valid_selection (tr_doc t') (tr_selection t').
Proof.
  unfold tr_insert. destruct (resolve (tr_doc t) pos) as [e|[i|i k]];
    [discriminate | apply step_valid |].
  destruct (tr_doc t !! i) as [b|]; [|discriminate].
  destruct (k =? String.length (text b))%nat; apply step_valid.
Qed.

Lemma tr_delete_valid t from to t' :
  valid_selection (tr_doc t) (tr_selection t) ->
  tr_delete t from to = inr t' -> valid_selection (tr_doc t') (tr_selection t').
Proof.
  intros Hv. unfold tr_delete. destruct (from =? to); [now intros [= <-]|].
  destruct (resolve (tr_doc t) from) as [e|[i|i k]]; [discriminate| |];
    (destruct (resolve (tr_doc t) to) as [e|[j|j l]]; try discriminate).
  destruct (i <? j)%nat; [|discriminate].
  destruct (take i (tr_doc t) ++ drop j (tr_doc t)); apply step_valid.
Qed.

Lemma tr_replaceWith_valid t from to s t' :
  tr_replaceWith t from to s = inr t' ->
  valid_selection (tr_doc t') (tr_selection t').
Proof.
  unfold tr_replaceWith.
  destruct (resolve (tr_doc t) from) as [e|[i|i k]]; [discriminate| |];
    (destruct (resolve (tr_doc t) to) as [e|[j|j l]]; try discriminate).
  destruct (tr_doc t !! i) as [b|]; [|discriminate].
  destruct (bool_decide (i = j) && (k <=? l)%nat); [apply step_valid|discriminate].
Qed.

Lemma TextSelection_create_valid d a h s :
  TextSelection_create d a h = inr s -> valid_selection d s.
Proof.
  unfold TextSelection_create.
  destruct (resolve d a) as [e|ra] eqn:Ha; [discriminate|].
  destruct (resolve d h) as [e|rh] eqn:Hh; [discriminate|].
  intros [= <-]. pose proof (resolve_range _ _ _ Ha).
  pose proof (resolve_range _ _ _ Hh). simpl. tauto.
Qed.

Lemma atStart_valid d : valid_selection d (atStart d).
Proof.
  destruct d as [|b d]; [exact I|]. simpl.
  pose proof (nodeSize_ge b). pose proof (contentSize_nonneg d). lia.
Qed.

(** *** The engine stays inside the modelled fragment *)

Lemma resolve_throws d p e : resolve d p = inl e -> e <> Unmodelled.
Proof.
  unfold resolve. destruct (if p <? 0 then None else resolve_from d 0 p);
    [discriminate|]. now intros [= <-].
Qed.

Lemma map_selection_throws d m s e :
  map_selection d m s = inl e -> e <> Unmodelled.
Proof.
  destruct s as [a h|]; [|discriminate]. unfold map_selection.
  destruct (resolve d (map_pos m h)) as [e1|[i|i k]] eqn:Hh.
  - intros [= <-]. exact (resolve_throws _ _ _ Hh).
  - discriminate.
  - destruct (resolve d (map_pos m a)) as [e1|[j|j l]] eqn:Ha; try discriminate.
    intros [= <-]. exact (resolve_throws _ _ _ Ha).
Qed.

Lemma step_modelled t d' m : step t d' m <> inl Unmodelled.
Proof.
  unfold step. destruct (map_selection d' m (tr_selection t)) as [e|s] eqn:Hm;
    [|discriminate].
  intros [= ->]. exact (map_selection_throws _ _ _ _ Hm eq_refl).
Qed.

Lemma tr_insert_modelled t pos n : tr_insert t pos n <> inl Unmodelled.
Proof.
  unfold tr_insert.
  destruct (resolve (tr_doc t) pos) as [e|[i|i k]] eqn:Hr.
  - intros [= ->]. exact (resolve_throws _ _ _ Hr eq_refl).
  - apply step_modelled.
  - destruct (resolve_inv _ _ _ Hr) as (b & -> & _).
    destruct (k =? String.length (text b))%nat; apply step_modelled.
Qed.

(** [deleteBlock] passes [$from.before()] and [$from.after()]. *)
Lemma tr_delete_modelled t p r from to :
  resolve (tr_doc t) p = inr r ->
  before (tr_doc t) r = inr from -> after (tr_doc t) r = inr to ->
  tr_delete t from to <> inl Unmodelled.
Proof.
  intros Hr Hbefore Hafter. destruct r as [i|i k]; [discriminate|].
  destruct (resolve_inv _ _ _ Hr) as (b & Hb & _).
  injection Hbefore as <-. injection Hafter as <-.
  pose proof (lookup_lt_Some _ _ _ Hb) as Hi.
  unfold tr_delete.
  destruct (block_start (tr_doc t) i =? block_start (tr_doc t) (S i));
    [discriminate|].
  rewrite (resolve_block_start _ i) by lia.
  rewrite (resolve_block_start _ (S i)) by lia.
  destruct (Nat.ltb_spec i (S i)); [|lia].
  destruct (take i (tr_doc t) ++ drop (S i) (tr_doc t)); apply step_modelled.
Qed.

End StepFacts.

(** ** The search of [findText] *)

Section FindText.

Import PM JSFacts PMFacts.

Variable searchText : string.

Lemma visit_found_stays d : forall pos x,
  descendants_from (findText_visit searchText) d pos (true, x) = (true, x).
Proof. induction d as [|b r IH]; intros pos x; simpl; [reflexivity | apply IH]. Qed.

Lemma first_match_cons_here b d k :
  matches_at searchText b k ->
  (forall k', (k' < k)%nat -> ~ matches_at searchText b k') ->
  first_match searchText (b :: d) 0 k.
Proof.
  intros Hm Hmin. exists b. repeat split; try assumption; try apply Hm.
  intros j b' k' Hj. lia.
Qed.

Lemma first_match_cons_later b d i k :
  (forall k', ~ matches_at searchText b k') ->
  first_match searchText d i k -> first_match searchText (b :: d) (S i) k.
Proof.
  intros Hno (b0 & Hb0 & Hm & Hmin & Hbefore). exists b0.
  repeat split; try assumption; try apply Hm.
  intros [|j] b' k' Hj Hb'; simpl in Hb'.
  - injection Hb' as <-. apply Hno.
  - apply (Hbefore j b' k'); [lia | assumption].
Qed.

Lemma occurs_in_cons_inv b d :
  occurs_in searchText (b :: d) ->
  (exists k, matches_at searchText b k) \/ occurs_in searchText d.
Proof.
  intros ([|i] & b' & k & Hb' & Hm); simpl in Hb'.
  - injection Hb' as <-. left. now exists k.
  - right. now exists i, b', k.
Qed.

(** The traversal either leaves the callback's state alone, and then the text
    occurs nowhere, or stops at the first occurrence in document order. *)
Lemma visit_cases d : forall pos x,
  (descendants_from (findText_visit searchText) d pos (false, x) = (false, x)
   /\ ~ occurs_in searchText d)
  \/ (exists i k,
        first_match searchText d i k
        /\ descendants_from (findText_visit searchText) d pos (false, x)
           = (true, pos + text_start d i + Z.of_nat k)).
Proof.
  induction d as [|b r IH]; intros pos x.
  - left. split; [reflexivity|]. intros (i & b & k & Hb & _). destruct i; discriminate.
  - cbn [descendants_from findText_visit fst snd andb].
    destruct (decide (text b = EmptyString)) as [Hempty|Hne].
    + rewrite bool_decide_eq_true_2 by assumption. cbn [negb andb].
      assert (Hno : forall k', ~ matches_at searchText b k')
        by (intros k' [Ht _]; congruence).
      destruct (IH (pos + nodeSize b) x) as [[Hr Hn]|(i & k & Hfm & Hr)].
      * left. split; [assumption|]. intros Hocc.
        destruct (occurs_in_cons_inv _ _ Hocc) as [[k Hk]|Hd];
          [exact (Hno k Hk) | exact (Hn Hd)].
      * right. exists (S i), k. split; [now apply first_match_cons_later|].
        rewrite Hr. f_equal. unfold text_start. rewrite block_start_cons. lia.
    + rewrite !bool_decide_eq_false_2 by assumption. cbn [negb andb].
      pose proof (indexOf_ge (JS.toLowerCase (text b)) (JS.toLowerCase searchText)).
      destruct (Z.leb_spec 0 (JS.indexOf (JS.toLowerCase (text b))
                                         (JS.toLowerCase searchText))) as [Hfound|Hnone].
      * right. destruct (indexOf_found _ _ Hfound) as [Hocc Hmin].
        exists 0%nat, (Z.to_nat (JS.indexOf (JS.toLowerCase (text b))
                                            (JS.toLowerCase searchText))).
        split.
        { apply first_match_cons_here; [now split|].
          intros k' Hk' [_ Hocc']. exact (Hmin k' Hk' Hocc'). }
        cbn [snd]. rewrite visit_found_stays. f_equal.
        unfold text_start. rewrite block_start_0. lia.
      * assert (Hno : forall k', ~ matches_at searchText b k')
          by (intros k' [_ Hocc]; exact (indexOf_none _ _ Hnone k' Hocc)).
        cbn [snd].
        destruct (IH (pos + nodeSize b) x) as [[Hr Hn]|(i & k & Hfm & Hr)].
        -- left. split; [assumption|]. intros Hocc.
           destruct (occurs_in_cons_inv _ _ Hocc) as [[k Hk]|Hd];
             [exact (Hno k Hk) | exact (Hn Hd)].
        -- right. exists (S i), k. split; [now apply first_match_cons_later|].
           rewrite Hr. f_equal. unfold text_start. rewrite block_start_cons. lia.
Qed.

Lemma first_match_occurs d i k :
  first_match searchText d i k -> occurs_in searchText d.
Proof. intros (b & Hb & Hm & _). now exists i, b, k. Qed.

(** There is at most one first occurrence. *)
Lemma first_match_unique d i k i' k' :
  first_match searchText d i k -> first_match searchText d i' k' ->
  i = i' /\ k = k'.
Proof.
  intros (b & Hb & Hm & Hmin & Hbef) (b' & Hb' & Hm' & Hmin' & Hbef').
  assert (i = i') as <-.
  { destruct (lt_eq_lt_dec i i') as [[Hlt|Heq]|Hgt]; [|assumption|].
    - exfalso. exact (Hbef' i b k Hlt Hb Hm).
    - exfalso. exact (Hbef i' b' k' Hgt Hb' Hm'). }
  split; [reflexivity|]. assert (b = b') as <- by congruence.
  destruct (lt_eq_lt_dec k k') as [[Hlt|Heq]|Hgt]; [|assumption|].
  - exfalso. exact (Hmin' k Hlt Hm).
  - exfalso. exact (Hmin k' Hgt Hm').
Qed.

(** [findText] returns [null] exactly when the text does not occur. *)
Lemma findText_absent v :
  ~ occurs_in searchText (doc v) -> findText v searchText = None.
Proof.
  intros Hn. unfold findText, descendants.
  destruct (visit_cases (doc v) 0 (-1)) as [[-> _]|(i & k & Hfm & _)];
    [reflexivity|].
  exfalso. exact (Hn (first_match_occurs _ _ _ Hfm)).
Qed.

(** [findText] returns the span of the first occurrence. *)
Lemma findText_first v i k :
  first_match searchText (doc v) i k ->
  findText v searchText
  = Some (text_start (doc v) i + Z.of_nat k,
          text_start (doc v) i + Z.of_nat k + JS.len searchText).
Proof.
  intros Hfm. unfold findText, descendants.
  destruct (visit_cases (doc v) 0 (-1)) as [[_ Hn]|(i' & k' & Hfm' & ->)].
  - exfalso. exact (Hn (first_match_occurs _ _ _ Hfm)).
  - destruct (first_match_unique _ _ _ _ _ Hfm Hfm') as [<- <-].
    now rewrite Z.add_0_l.
Qed.

(** A text that occurs has a first occurrence. *)
Lemma occurs_first_match d :
  occurs_in searchText d -> exists i k, first_match searchText d i k.
Proof.
  intros Hocc. destruct (visit_cases d 0 0) as [[_ Hn]|(i & k & Hfm & _)].
  - contradiction.
  - now exists i, k.
Qed.

(** What [findText] returns is the span of a first occurrence. *)
Lemma findText_inv v from to :
  findText v searchText = Some (from, to) ->
  exists i k, first_match searchText (doc v) i k
              /\ from = text_start (doc v) i + Z.of_nat k
              /\ to = from + JS.len searchText.
Proof.
  unfold findText, descendants.
  destruct (visit_cases (doc v) 0 (-1)) as [[-> _]|(i & k & Hfm & ->)];
    [discriminate|].
  intros [= <- <-]. exists i, k. split; [assumption|]. split; lia.
Qed.

(** The span of an occurrence lies inside the text of its block, and its
    characters are those of the search text up to case. *)
Lemma matches_at_span b k :
  matches_at searchText b k ->
  (k + String.length searchText <= String.length (text b))%nat
  /\ JS.toLowerCase (substring k (String.length searchText) (text b))
     = JS.toLowerCase searchText.
Proof.
  intros [_ [Hb Hs]]. rewrite !toLowerCase_length in *. split; [assumption|].
  now rewrite toLowerCase_substring.
Qed.

Lemma first_match_positions (d : Doc) i k :
  first_match searchText d i k ->
  resolve d (text_start d i + Z.of_nat k) = inr (Depth1 i k)
  /\ resolve d (text_start d i + Z.of_nat k + JS.len searchText)
     = inr (Depth1 i (k + String.length searchText)).
Proof.
  intros (b & Hb & Hm & _). destruct (matches_at_span _ _ Hm) as [Hk _].
  split.
  - apply (resolve_text d i b k Hb). lia.
  - unfold JS.len. rewrite <- Z.add_assoc, <- Nat2Z.inj_add.
    now apply (resolve_text d i b).
Qed.

(** A search that leaves the callback's state alone shows that the text
    occurs nowhere. *)
Lemma absent_by_search d :
  descendants_from (findText_visit searchText) d 0 (false, 0) = (false, 0) ->
  ~ occurs_in searchText d.
Proof.
  intros Hrun. destruct (visit_cases d 0 0) as [[_ Hn]|(i & k & _ & Hr)];
    [assumption|]. rewrite Hrun in Hr. discriminate.
Qed.

(** [replaceText] passes the span [findText] returned. *)
Lemma tr_replaceWith_modelled v from to s :
  findText v searchText = Some (from, to) ->
  tr_replaceWith (tr v) from to s <> inl Unmodelled.
Proof.
  intros Hf. destruct (findText_inv _ _ _ Hf) as (i & k & Hfm & -> & ->).
  pose proof Hfm as (b & Hb & _).
  destruct (first_match_positions _ _ _ Hfm) as [Hfrom Hto].
  unfold tr_replaceWith. cbn [tr tr_doc]. rewrite Hfrom, Hto, Hb.
  rewrite bool_decide_eq_true_2 by reflexivity.
  destruct (Nat.leb_spec k (k + String.length searchText)); [|lia].
  apply StepFacts.step_modelled.
Qed.

End FindText.

(** ** The session connection manager *)

Section EngineFacts.

Import PM JSFacts PMFacts.

Context `{YBinding}.
Variable net : Network.

(** A cached connection is returned as it is, and nothing else changes. *)
Lemma connect_cached docUrl collabUrl st h :
  connections st !! cache_key docUrl collabUrl = Some h ->
  connect net docUrl collabUrl st = (inr h, st).
Proof. intros Hc. unfold connect, connect_begin. now rewrite Hc. Qed.

(** After a successful [connect] the cache holds the returned connection. *)
Lemma connect_ok_inv docUrl collabUrl st h st1 :
  connect net docUrl collabUrl st = (inr h, st1) ->
  connections st1 !! cache_key docUrl collabUrl = Some h.
Proof.
  unfold connect, connect_begin.
  destruct (connections st !! cache_key docUrl collabUrl) as [h0|] eqn:Hc; simpl.
  - intros [= <- <-]. assumption.
  - destruct (sync_resolves _); [|discriminate].
    intros [= <- <-]. simpl. apply lookup_insert_eq.
Qed.

(** A [connect] that throws threw the sync timeout, found nothing in the
    cache and left the cache as it was. *)
Lemma connect_err_inv docUrl collabUrl st e st1 :
  connect net docUrl collabUrl st = (inl e, st1) ->
  e = Error "Sync timeout"
  /\ connections st !! cache_key docUrl collabUrl = None
  /\ connections st1 = connections st.
Proof.
  unfold connect, connect_begin.
  destruct (connections st !! cache_key docUrl collabUrl) as [h0|] eqn:Hc; simpl.
  - discriminate.
  - destruct (sync_resolves _); [discriminate|].
    intros [= <- <-]. auto.
Qed.

Lemma view_state_ok st h s v :
  sessions st !! h = Some s -> view s = Some v ->
  view_state h st = (inr v, st).
Proof. intros Hs Hv. unfold view_state. rewrite Hs. destruct s; simpl in *. now subst. Qed.

Lemma view_state_inv st h v st1 :
  view_state h st = (inr v, st1) ->
  st1 = st /\ exists s, sessions st !! h = Some s /\ view s = Some v.
Proof.
  unfold view_state. destruct (sessions st !! h) as [s|] eqn:Hs; [|discriminate].
  destruct s as [cu du aw [v'|] de]; [|discriminate].
  intros [= <- <-]. split; [reflexivity|]. now eexists.
Qed.

Lemma dispatch_sessions st h t s :
  sessions st !! h = Some s ->
  sessions (snd (dispatch h t st)) !! h = Some (dispatch_session t s).
Proof. intros Hs. simpl. now rewrite lookup_alter_eq, Hs. Qed.

Lemma dispatch_connections st h t :
  connections (snd (dispatch h t st)) = connections st.
Proof. reflexivity. Qed.


(** ** The selection of every view stays inside its document *)

Lemma selections_valid_initial : selections_valid initial.
Proof. intros h s v Hs. cbn [initial sessions] in Hs. now rewrite lookup_empty in Hs. Qed.

Lemma connect_valid docUrl collabUrl st r st1 :
  selections_valid st -> connect net docUrl collabUrl st = (r, st1) ->
  selections_valid st1.
Proof.
  intros Hwf. unfold connect, connect_begin.
  destruct (connections st !! cache_key docUrl collabUrl) as [h0|]; simpl.
  { now intros [= _ <-]. }
  set (sess := <[opened st := _]> (sessions st)).
  assert (Hbegin : forall h s v,
             sess !! h = Some s -> view s = Some v ->
             valid_selection (doc v) (selection v)).
  { subst sess. intros h s v Hs Hv. destruct (decide (opened st = h)) as [<-|Hne].
    - rewrite lookup_insert_eq in Hs. injection Hs as <-. discriminate.
    - rewrite lookup_insert_ne in Hs by assumption. exact (Hwf h s v Hs Hv). }
  destruct (sync_resolves _); intros [= _ <-]; [|exact Hbegin].
  intros h s v Hs Hv. cbn [sessions] in Hs.
  destruct (decide (opened st = h)) as [<-|Hne].
  - rewrite lookup_alter_eq in Hs.
    destruct (sess !! opened st) as [s0|]; [|discriminate].
    injection Hs as <-. injection Hv as <-. apply StepFacts.atStart_valid.
  - rewrite lookup_alter_ne in Hs by assumption. exact (Hbegin h s v Hs Hv).
Qed.

Lemma dispatch_valid h t st :
  selections_valid st -> valid_selection (tr_doc t) (tr_selection t) ->
  selections_valid (snd (dispatch h t st)).
Proof.
  intros Hwf Ht h' s v Hs Hv. cbn [dispatch snd sessions] in Hs.
  destruct (decide (h = h')) as [<-|Hne].
  - rewrite lookup_alter_eq in Hs.
    destruct (sessions st !! h) as [s0|]; [|discriminate].
    injection Hs as <-. injection Hv as <-. exact Ht.
  - rewrite lookup_alter_ne in Hs by assumption. exact (Hwf h' s v Hs Hv).
Qed.

Lemma view_state_same h st r st' : view_state h st = (r, st') -> st' = st.
Proof.
  unfold view_state. destruct (sessions st !! h) as [[? ? ? [v|] ?]|];
    now intros [= _ <-].
Qed.

(** Run a connected operation up to the state of its view. *)
Ltac enter_operation Hwf h v st1 Hwf1 Hs Hvs :=
  unfold try_catch, bind, lift;
  let Hc := fresh "Hc" in
  let Hv := fresh "Hv" in
  match goal with
  | |- context [connect ?n ?d ?c ?st] =>
      destruct (connect n d c st) as [[?|h] st1] eqn:Hc;
      pose proof (connect_valid _ _ _ _ _ Hwf Hc) as Hwf1;
      [exact Hwf1|];
      destruct (view_state h st1) as [[?|v] ?] eqn:Hv;
      [now rewrite (view_state_same _ _ _ _ Hv)|];
      destruct (view_state_inv _ _ _ _ Hv) as [-> (? & Hs & Hvs)]
  end.

(** Every operation keeps the selections of all views inside their
    documents. *)
Lemma operations_keep_selections_valid docUrl collabUrl st :
  selections_valid st ->
  (forall searchText,
     selections_valid (snd (positionCursor net docUrl collabUrl searchText st)))
  /\ selections_valid (snd (deleteBlock net docUrl collabUrl st))
  /\ (forall text nodeType,
        selections_valid
          (snd (insertAtCursor net docUrl collabUrl text nodeType st)))
  /\ (forall find repl,
        selections_valid (snd (replaceText net docUrl collabUrl find repl st))).
Proof.
  intros Hwf. repeat split.
  - intros searchText. unfold positionCursor.
    enter_operation Hwf h v st1 Hwf1 Hs Hvs.
    destruct (findText v searchText) as [[from to]|]; [|exact Hwf1].
    destruct (TextSelection_create (doc v) from to) as [e|sel] eqn:Hsel;
      [exact Hwf1|].
    apply dispatch_valid; [exact Hwf1|].
    exact (StepFacts.TextSelection_create_valid _ _ _ _ Hsel).
  - unfold deleteBlock. enter_operation Hwf h v st1 Hwf1 Hs Hvs.
    destruct (resolve (doc v) (sel_from (doc v) (selection v))) as [e|r];
      [exact Hwf1|].
    destruct (parent (doc v) r); [|exact Hwf1].
    destruct (before (doc v) r) as [e|from]; [exact Hwf1|].
    destruct (after (doc v) r) as [e|to]; [exact Hwf1|].
    destruct (tr_delete (tr v) from to) as [e|t] eqn:Ht; [exact Hwf1|].
    apply dispatch_valid; [exact Hwf1|].
    exact (StepFacts.tr_delete_valid (tr v) _ _ _ (Hwf1 _ _ _ Hs Hvs) Ht).
  - intros text nodeType. unfold insertAtCursor. cbv zeta.
    enter_operation Hwf h v st1 Hwf1 Hs Hvs.
    destruct (create_node text (default "paragraph" nodeType)) as [e|n];
      [exact Hwf1|].
    destruct (tr_insert (tr v) (sel_to (doc v) (selection v)) n) as [e|t] eqn:Ht;
      [exact Hwf1|].
    apply dispatch_valid; [exact Hwf1|].
    exact (StepFacts.tr_insert_valid _ _ _ _ Ht).
  - intros find repl. unfold replaceText.
    enter_operation Hwf h v st1 Hwf1 Hs Hvs.
    destruct (findText v find) as [[from to]|]; [|exact Hwf1].
    destruct (schema_text repl) as [e|r]; [exact Hwf1|].
    destruct (tr_replaceWith (tr v) from to r) as [e|t] eqn:Ht; [exact Hwf1|].
    apply dispatch_valid; [exact Hwf1|].
    exact (StepFacts.tr_replaceWith_valid _ _ _ _ _ Ht).
Qed.

(** ** [disconnect] *)

(** On an identity without a cache entry [disconnect] does nothing. *)
Lemma disconnect_unknown docUrl collabUrl st :
  connections st !! cache_key docUrl collabUrl = None ->
  disconnect docUrl collabUrl st = st.
Proof. intros Hc. unfold disconnect. now rewrite Hc. Qed.

(** After [disconnect] the identity has no cache entry, and a second
    [disconnect] changes nothing. *)
Lemma disconnect_idempotent docUrl collabUrl st :
  connections (disconnect docUrl collabUrl st) !! cache_key docUrl collabUrl = None
  /\ disconnect docUrl collabUrl (disconnect docUrl collabUrl st)
     = disconnect docUrl collabUrl st.
Proof.
  assert (Hnone : connections (disconnect docUrl collabUrl st)
                  !! cache_key docUrl collabUrl = None).
  { unfold disconnect.
    destruct (connections st !! cache_key docUrl collabUrl) eqn:Hc;
      [apply lookup_delete_eq | exact Hc]. }
  split; [exact Hnone | now apply disconnect_unknown].
Qed.

(** ** [positionCursor] *)



(** C2. For a search text that occurs nowhere in the inline text of the
    document, [positionCursor] and [replaceText] both return
    [success: false] with the message [Text "<searchText>" not found], and
    dispatch nothing: the state is the one [connect] left, so document and
    selection are unchanged. *)
Theorem absent_text_is_reported_and_nothing_changes
    docUrl collabUrl searchText replacement st h st1 s v :
  connect net docUrl collabUrl st = (inr h, st1) ->
  sessions st1 !! h = Some s -> view s = Some v ->
  ~ occurs_in searchText (doc v) ->
  positionCursor net docUrl collabUrl searchText st
  = ({| success := false;
        message := "Text " +:+ JS.dquote +:+ searchText +:+ JS.dquote
                   +:+ " not found";
        position := None |}, st1)
  /\ replaceText net docUrl collabUrl searchText replacement st
     = ({| success := false;
           message := "Text " +:+ JS.dquote +:+ searchText +:+ JS.dquote
                      +:+ " not found";
           position := None |}, st1).
Proof.
  intros Hc Hs Hv Habs. split.
  - unfold positionCursor, try_catch, bind.
    now rewrite Hc, (view_state_ok _ _ _ _ Hs Hv), (findText_absent _ _ Habs).
  - unfold replaceText, try_catch, bind.
    now rewrite Hc, (view_state_ok _ _ _ _ Hs Hv), (findText_absent _ _ Habs).
Qed.

(** ** [connect]: cache, timeout, overlap, keys *)

Lemma sync_times_out_spec o : sync_times_out o <-> sync_resolves o = false.
Proof.
  unfold sync_times_out, sync_resolves, SYNC_TIMEOUT.
  destruct (synced o); simpl; [split; [intros [? _] | intros ?]; discriminate|].
  destruct (sync_event o) as [t|].
  - destruct (Z.ltb_spec t 10000); split; try reflexivity; try discriminate.
    + intros [_ Ht]. specialize (Ht t eq_refl). lia.
    + intros _. split; [reflexivity|]. now intros ? [= <-].
  - split; [reflexivity|]. intros _. split; [reflexivity | discriminate].
Qed.

(** C4. When the cache already holds a connection for the identity, [connect]
    returns exactly that connection and changes nothing: no provider is
    opened, no session is built, the cache is as before.  In particular a
    [connect] that follows a successful one returns the same connection. *)
Theorem connect_returns_cached_session docUrl collabUrl st h :
  connections st !! cache_key docUrl collabUrl = Some h ->
  connect net docUrl collabUrl st = (inr h, st)
  /\ forall h' st', connect net docUrl collabUrl st = (inr h', st') ->
       h' = h /\ opened st' = opened st /\ sessions st' = sessions st
       /\ connect net docUrl collabUrl st' = (inr h, st').
Proof.
  intros Hc. pose proof (connect_cached _ _ _ _ Hc) as Hconn.
  split; [assumption|]. intros h' st'. rewrite Hconn. intros [= <- <-]. auto.
Qed.

(** C5. When nothing is cached for the identity and the initial sync does not
    complete before the 10000 ms timer fires, [connect] throws
    [Error('Sync timeout')] and the cache is exactly what it was.  And
    whenever [connect] throws, what it throws is that error and the cache
    holds no entry for the identity afterwards. *)
Theorem sync_timeout_is_never_cached docUrl collabUrl st :
  (connections st !! cache_key docUrl collabUrl = None ->
   sync_times_out (net collabUrl docUrl (opened st)) ->
   exists st1,
     connect net docUrl collabUrl st = (inl (Error "Sync timeout"), st1)
     /\ connections st1 = connections st)
  /\ (forall e st1,
        connect net docUrl collabUrl st = (inl e, st1) ->
        e = Error "Sync timeout"
        /\ connections st1 !! cache_key docUrl collabUrl = None).
Proof.
  split.
  - intros Hc Hto. apply sync_times_out_spec in Hto.
    unfold connect, connect_begin. rewrite Hc. cbn [connect_resume].
    rewrite Hto. eexists. split; reflexivity.
  - intros e st1 Hfail.
    destruct (connect_err_inv _ _ _ _ _ Hfail) as (-> & Hnone & Hsame).
    split; [reflexivity|]. now rewrite Hsame.
Qed.

(** C3 (as the code behaves). Two overlapping calls of [connect] for one
    identity that is not cached, both of whose providers sync in time, open
    two providers and return two different connections; the cache ends up
    with the second. *)
Theorem overlapping_connects_build_two_sessions docUrl collabUrl st :
  connections st !! cache_key docUrl collabUrl = None ->
  sync_resolves (net collabUrl docUrl (opened st)) = true ->
  sync_resolves (net collabUrl docUrl (S (opened st))) = true ->
  exists st',
    connect_overlapping net docUrl collabUrl st
    = ((inr (opened st), inr (S (opened st))), st')
    /\ opened st <> S (opened st)
    /\ opened st' = S (S (opened st))
    /\ connections st' !! cache_key docUrl collabUrl = Some (S (opened st)).
Proof.
  intros Hc H1 H2. unfold connect_overlapping, connect_begin.
  rewrite Hc. cbn [connections opened]. rewrite Hc.
  cbn [connect_resume connections opened]. rewrite H1, H2.
  eexists. split; [reflexivity|]. cbn [connections opened].
  split; [lia|]. split; [reflexivity|]. apply lookup_insert_eq.
Qed.

(** C10. The cache key is the concatenation [collabUrl:docUrl], which is not
    injective: two different identities whose URLs contain [:] have the same
    key.  Whenever two identities have the same key, a [connect] for the
    second after a successful [connect] for the first returns the connection
    of the first and opens nothing. *)
Theorem cache_key_collisions_share_a_session :
  (("4711:doc", "ws://localhost") <> ("doc", "ws://localhost:4711")
   /\ cache_key "4711:doc" "ws://localhost"
      = cache_key "doc" "ws://localhost:4711")
  /\ forall docUrl1 collabUrl1 docUrl2 collabUrl2 st h st1,
       cache_key docUrl1 collabUrl1 = cache_key docUrl2 collabUrl2 ->
       connect net docUrl1 collabUrl1 st = (inr h, st1) ->
       connect net docUrl2 collabUrl2 st1 = (inr h, st1).
Proof.
  split; [split; [discriminate | reflexivity]|].
  intros d1 c1 d2 c2 st h st1 Hkey Hc.
  apply connect_cached. rewrite <- Hkey. exact (connect_ok_inv _ _ _ _ _ Hc).
Qed.

(** ** The cursor projection plugin *)

(** C9. On a view update whose selection is the whole-document selection,
    [updateCursorInfo] returns before touching the awareness: the local state
    and the list of published states are unchanged.  So a transaction that
    installs that selection publishes nothing when it is dispatched. *)
Theorem placeholder_selection_is_never_published h t st s :
  sessions st !! h = Some s ->
  tr_selection t = AllSelection ->
  updateCursorInfo (apply t) (awareness s) = awareness s
  /\ exists s',
       sessions (snd (dispatch h t st)) !! h = Some s'
       /\ awareness s' = awareness s
       /\ published (awareness s') = published (awareness s).
Proof.
  intros Hs Hsel.
  assert (Hu : updateCursorInfo (apply t) (awareness s) = awareness s).
  { unfold updateCursorInfo, apply. cbn [selection]. now rewrite Hsel. }
  split; [assumption|]. exists (dispatch_session t s).
  split; [now apply dispatch_sessions|].
  unfold dispatch_session. cbn [awareness]. now rewrite Hu.
Qed.

(** ** [replaceText], [insertAtCursor], [deleteBlock] *)

Import StepFacts.


Lemma schema_text_ok s : s <> EmptyString -> schema_text s = inr s.
Proof. intros Hs. unfold schema_text. now destruct (decide (s = EmptyString)). Qed.




Lemma create_node_fallback text nodeType :
  text <> EmptyString -> nodeType <> "paragraph" ->
  JS.startsWith nodeType "heading" = false ->
  create_node text nodeType = inr {| ntype := paragraph; PM.text := text |}.
Proof.
  intros Ht Hp Hh. unfold create_node.
  rewrite bool_decide_eq_false_2 by assumption. rewrite Hh.
  now rewrite (schema_text_ok _ Ht).
Qed.

Lemma sel_to_range d s :
  valid_selection d s -> 0 <= sel_to d s <= contentSize d.
Proof.
  destruct s as [a h|]; simpl.
  - intros [Ha Hh]. lia.
  - intros _. pose proof (contentSize_nonneg d). lia.
Qed.

(** C6 (as the code behaves). For a non-empty text and a [nodeType] that is
    neither ['paragraph'] nor starts with ['heading'], [insertAtCursor] on a
    session with a valid selection returns success with the message
    [<nodeType> inserted successfully], throws nothing, and the document
    then contains a new paragraph with exactly that text; the blocks around
    it carry the text the document had before (the block at the cursor being
    split in two when the cursor was inside it). *)
Theorem insertAtCursor_falls_back_to_paragraph
    docUrl collabUrl text nodeType st h st1 s v :
  connect net docUrl collabUrl st = (inr h, st1) ->
  sessions st1 !! h = Some s -> view s = Some v ->
  valid_selection (doc v) (selection v) ->
  text <> EmptyString ->
  nodeType <> "paragraph" ->
  JS.startsWith nodeType "heading" = false ->
  exists st2 s2 v2 pre post,
    insertAtCursor net docUrl collabUrl text (Some nodeType) st
    = ({| success := true;
          message := nodeType +:+ " inserted successfully";
          position := None |}, st2)
    /\ sessions st2 !! h = Some s2 /\ view s2 = Some v2
    /\ doc v2 = pre ++ {| ntype := paragraph; PM.text := text |} :: post
    /\ all_text (pre ++ post) = all_text (doc v)
    /\ (length (pre ++ post) = length (doc v)
        \/ length (pre ++ post) = S (length (doc v))).
Proof.
  intros Hc Hs Hv Hsel Ht Hp Hh.
  destruct (tr_insert_ok (tr v) (sel_to (doc v) (selection v))
              {| ntype := paragraph; PM.text := text |} Hsel
              (sel_to_range _ _ Hsel))
    as (t' & pre & post & Hins & Hdoc & Htext & Hlen).
  exists (snd (dispatch h t' st1)), (dispatch_session t' s), (apply t'), pre, post.
  split.
  - unfold insertAtCursor.
    change (default "paragraph" (Some nodeType)) with nodeType. cbv zeta.
    unfold try_catch, bind, lift.
    now rewrite Hc, (view_state_ok _ _ _ _ Hs Hv),
      (create_node_fallback _ _ Ht Hp Hh), Hins.
  - split; [now apply dispatch_sessions|]. split; [reflexivity|].
    split; [exact Hdoc|]. split; assumption.
Qed.


End EngineFacts.

(* ===================================================================== *)
(** * Further properties of the engine and its callers *)
(* ===================================================================== *)

(** ** Steps keep a selection forwards *)

Module ForwardFacts.
Import PM PMFacts StepFacts.

Lemma block_start_mono d : forall i j,
  (i <= j)%nat -> block_start d i <= block_start d j.
Proof.
  induction d as [|b d IH]; intros i j Hij.
  - unfold block_start. rewrite !take_nil. lia.
  - destruct i as [|i]; [rewrite block_start_0; apply block_start_nonneg|].
    destruct j as [|j]; [lia|]. rewrite !block_start_cons.
    specialize (IH i j ltac:(lia)). lia.
Qed.

(** Mapping positions through a step keeps their order. *)
Lemma map_pos_mono m p q :
  0 <= sm_old m -> 0 <= sm_new m -> p <= q -> map_pos m p <= map_pos m q.
Proof.
  intros Hold Hnew Hpq. unfold map_pos.
  destruct (Z.ltb_spec p (sm_start m)); destruct (Z.ltb_spec q (sm_start m));
    destruct (Z.leb_spec p (sm_start m + sm_old m));
    destruct (Z.leb_spec q (sm_start m + sm_old m));
    destruct (Z.eqb_spec (sm_old m) 0);
    destruct (Z.eqb_spec p (sm_start m));
    destruct (Z.eqb_spec q (sm_start m)); lia.
Qed.

Lemma near_depth0_forward d i : forward_selection (near_depth0 d i).
Proof.
  unfold near_depth0. destruct (i <? length d)%nat; [simpl; lia|].
  destruct i; simpl; [exact I | lia].
Qed.

Lemma map_selection_forward d m s s' :
  0 <= sm_old m -> 0 <= sm_new m -> forward_selection s ->
  map_selection d m s = inr s' -> forward_selection s'.
Proof.
  intros Hold Hnew Hf. destruct s as [a h|]; [|now intros [= <-]].
  unfold map_selection.
  destruct (resolve d (map_pos m h)) as [e|[i|i k]]; [discriminate| |].
  - intros [= <-]. apply near_depth0_forward.
  - destruct (resolve d (map_pos m a)) as [e|[j|j l]]; [discriminate| |];
      intros [= <-]; simpl; [lia|]. now apply map_pos_mono.
Qed.

Lemma step_forward t d' m t' :
  0 <= sm_old m -> 0 <= sm_new m -> forward_selection (tr_selection t) ->
  step t d' m = inr t' -> forward_selection (tr_selection t').
Proof.
  intros Hold Hnew Hf. unfold step.
  destruct (map_selection d' m (tr_selection t)) as [e|s] eqn:Hm;
    [discriminate|].
  intros [= <-]. exact (map_selection_forward _ _ _ _ Hold Hnew Hf Hm).
Qed.

Lemma tr_insert_forward t pos n t' :
  forward_selection (tr_selection t) ->
  tr_insert t pos n = inr t' -> forward_selection (tr_selection t').
Proof.
  intros Hf. unfold tr_insert. pose proof (nodeSize_ge n).
  destruct (resolve (tr_doc t) pos) as [e|[i|i k]]; [discriminate| |].
  - apply step_forward; simpl; [lia | lia | assumption].
  - destruct (tr_doc t !! i) as [b|]; [|discriminate].
    destruct (k =? String.length (text b))%nat;
      apply step_forward; simpl; try lia; assumption.
Qed.

Lemma tr_delete_forward t from to t' :
  forward_selection (tr_selection t) ->
  tr_delete t from to = inr t' -> forward_selection (tr_selection t').
Proof.
  intros Hf. unfold tr_delete. destruct (from =? to); [now intros [= <-]|].
  destruct (resolve (tr_doc t) from) as [e|[i|i k]] eqn:Hfrom;
    [discriminate| |];
    (destruct (resolve (tr_doc t) to) as [e|[j|j l]] eqn:Hto; try discriminate).
  destruct (Nat.ltb_spec i j); [|discriminate].
  destruct (resolve_inv _ _ _ Hfrom) as [_ ->].
  destruct (resolve_inv _ _ _ Hto) as [_ ->].
  pose proof (block_start_mono (tr_doc t) i j ltac:(lia)).
  destruct (take i (tr_doc t) ++ drop j (tr_doc t));
    apply step_forward; simpl; try lia; assumption.
Qed.

Lemma tr_replaceWith_forward t from to s t' :
  forward_selection (tr_selection t) ->
  tr_replaceWith t from to s = inr t' -> forward_selection (tr_selection t').
Proof.
  intros Hf. unfold tr_replaceWith.
  destruct (resolve (tr_doc t) from) as [e|[i|i k]] eqn:Hfrom;
    [discriminate| |];
    (destruct (resolve (tr_doc t) to) as [e|[j|j l]] eqn:Hto; try discriminate).
  destruct (tr_doc t !! i) as [b|]; [|discriminate].
  destruct (bool_decide_reflect (i = j)) as [<-|]; [|discriminate].
  destruct (Nat.leb_spec k l); [|discriminate]. simpl.
  destruct (resolve_inv _ _ _ Hfrom) as (b1 & _ & _ & ->).
  destruct (resolve_inv _ _ _ Hto) as (b2 & _ & _ & ->).
  apply step_forward; simpl; unfold JS.len; try lia; assumption.
Qed.

End ForwardFacts.

(** ** What an operation does to the process state *)

Section Invariants.

Import PM JSFacts PMFacts StepFacts ForwardFacts.

Context `{YBinding}.
Variable net : Network.

Lemma TextSelection_create_inv d a h s :
  TextSelection_create d a h = inr s -> s = TextSelection a h.
Proof.
  unfold TextSelection_create.
  destruct (resolve d a); [discriminate|]. destruct (resolve d h);
    [discriminate|]. now intros [= <-].
Qed.

(** An operation either leaves the state [connect] produced, or dispatches
    one transaction on the view of the connection [connect] returned. *)
Lemma run_call_shape docUrl collabUrl c st :
  exists r1 st1,
    connect net docUrl collabUrl st = (r1, st1)
    /\ (snd (run_call net docUrl collabUrl c st) = st1
        \/ exists h s v t,
             r1 = inr h /\ sessions st1 !! h = Some s /\ view s = Some v
             /\ operation_transaction v t
             /\ snd (run_call net docUrl collabUrl c st)
                = snd (dispatch h t st1)).
Proof.
  destruct (connect net docUrl collabUrl st) as [r1 st1] eqn:Hc.
  exists r1, st1. split; [reflexivity|].
  destruct r1 as [e|h].
  { left. destruct c; cbn [run_call];
      unfold positionCursor, deleteBlock, insertAtCursor, replaceText,
        try_catch, bind; now rewrite Hc. }
  destruct (view_state h st1) as [[e|v] st1'] eqn:Hv.
  { left. rewrite (view_state_same _ _ _ _ Hv) in Hv.
    destruct c; cbn [run_call];
      unfold positionCursor, deleteBlock, insertAtCursor, replaceText,
        try_catch, bind; now rewrite Hc, Hv. }
  destruct (view_state_inv _ _ _ _ Hv) as [-> (s & Hs & Hvs)].
  destruct c as [text| |text nt|find repl]; cbn [run_call].
  - unfold positionCursor, try_catch, bind, lift. rewrite Hc, Hv.
    destruct (findText v text) as [[from to]|] eqn:Hf; [|now left].
    destruct (TextSelection_create (doc v) from to) as [e|sel] eqn:Hsel;
      [now left|].
    pose proof (TextSelection_create_inv _ _ _ _ Hsel) as ->.
    right. exists h, s, v, (setSelection (tr v) (TextSelection from to)).
    repeat split; try assumption. left. exists from, to.
    destruct (findText_inv _ _ _ _ Hf) as (i & k & _ & _ & ->).
    unfold JS.len. repeat split; [lia | assumption].
  - unfold deleteBlock, try_catch, bind, lift. rewrite Hc, Hv.
    destruct (resolve (doc v) (sel_from (doc v) (selection v))) as [e|r];
      [now left|].
    destruct (parent (doc v) r); [|now left].
    destruct (before (doc v) r) as [e|from]; [now left|].
    destruct (after (doc v) r) as [e|to]; [now left|].
    destruct (tr_delete (tr v) from to) as [e|t] eqn:Ht; [now left|].
    right. exists h, s, v, t. repeat split; try assumption.
    right. left. now exists from, to.
  - unfold insertAtCursor. cbv zeta. unfold try_catch, bind, lift.
    rewrite Hc, Hv.
    destruct (create_node text (default "paragraph" nt)) as [e|n]; [now left|].
    destruct (tr_insert (tr v) (sel_to (doc v) (selection v)) n) as [e|t] eqn:Ht;
      [now left|].
    right. exists h, s, v, t. repeat split; try assumption.
    right. right. left. now exists (sel_to (doc v) (selection v)), n.
  - unfold replaceText, try_catch, bind, lift. rewrite Hc, Hv.
    destruct (findText v find) as [[from to]|]; [|now left].
    destruct (schema_text repl) as [e|r]; [now left|].
    destruct (tr_replaceWith (tr v) from to r) as [e|t] eqn:Ht; [now left|].
    right. exists h, s, v, t. repeat split; try assumption.
    right. right. right. now exists from, to, r.
Qed.

Lemma operation_transaction_valid v t :
  valid_selection (doc v) (selection v) -> operation_transaction v t ->
  valid_selection (tr_doc t) (tr_selection t).
Proof.
  intros Hv [(from & to & _ & Hsel & ->)|[(from & to & Ht)|[(pos & n & Ht)
            |(from & to & s & Ht)]]].
  - exact (TextSelection_create_valid _ _ _ _ Hsel).
  - exact (tr_delete_valid (tr v) _ _ _ Hv Ht).
  - exact (tr_insert_valid _ _ _ _ Ht).
  - exact (tr_replaceWith_valid _ _ _ _ _ Ht).
Qed.

Lemma operation_transaction_forward v t :
  forward_selection (selection v) -> operation_transaction v t ->
  forward_selection (tr_selection t).
Proof.
  intros Hv [(from & to & Hle & _ & ->)|[(from & to & Ht)|[(pos & n & Ht)
            |(from & to & s & Ht)]]].
  - exact Hle.
  - exact (tr_delete_forward (tr v) _ _ _ Hv Ht).
  - exact (tr_insert_forward (tr v) _ _ _ Hv Ht).
  - exact (tr_replaceWith_forward (tr v) _ _ _ _ Hv Ht).
Qed.

(** *** Selections stay forwards *)

Lemma selections_forward_at st h s v :
  selections_forward st -> sessions st !! h = Some s -> view s = Some v ->
  forward_selection (selection v).
Proof.
  intros Hf Hs Hv. destruct (selection v) as [a hd|] eqn:Hsel; [|exact I].
  exact (Hf h s v a hd Hs Hv Hsel).
Qed.

Lemma dispatch_forward h t st :
  selections_forward st -> forward_selection (tr_selection t) ->
  selections_forward (snd (dispatch h t st)).
Proof.
  intros Hf Ht h' s v a hd Hs Hv Hsel. cbn [dispatch snd sessions] in Hs.
  destruct (decide (h = h')) as [<-|Hne].
  - rewrite lookup_alter_eq in Hs.
    destruct (sessions st !! h) as [s0|]; [|discriminate].
    injection Hs as <-. injection Hv as <-. cbn [apply selection] in Hsel.
    rewrite Hsel in Ht. exact Ht.
  - rewrite lookup_alter_ne in Hs by assumption. exact (Hf h' s v a hd Hs Hv Hsel).
Qed.

Lemma connect_sessions_inv docUrl collabUrl st r st1 h s v :
  connect net docUrl collabUrl st = (r, st1) ->
  sessions st1 !! h = Some s -> view s = Some v ->
  (sessions st !! h = Some s)
  \/ (h = opened st /\ connections st !! cache_key docUrl collabUrl = None
      /\ v = EditorState_create
               (remote_doc (net collabUrl docUrl (opened st)))).
Proof.
  unfold connect, connect_begin.
  destruct (connections st !! cache_key docUrl collabUrl) as [h0|]; simpl.
  { intros [= _ <-]. now left. }
  destruct (sync_resolves _); intros [= _ <-]; cbn [sessions]; intros Hs Hv.
  - destruct (decide (opened st = h)) as [<-|Hne].
    + rewrite lookup_alter_eq, lookup_insert_eq in Hs. injection Hs as <-.
      injection Hv as <-. now right.
    + rewrite lookup_alter_ne, lookup_insert_ne in Hs by assumption. now left.
  - destruct (decide (opened st = h)) as [<-|Hne].
    + rewrite lookup_insert_eq in Hs. injection Hs as <-. discriminate.
    + rewrite lookup_insert_ne in Hs by assumption. now left.
Qed.

Lemma connect_forward docUrl collabUrl st r st1 :
  selections_forward st -> connect net docUrl collabUrl st = (r, st1) ->
  selections_forward st1.
Proof.
  intros Hf Hc h s v a hd Hs Hv Hsel.
  destruct (connect_sessions_inv _ _ _ _ _ _ _ _ Hc Hs Hv)
    as [Hold|(_ & _ & ->)].
  - exact (Hf h s v a hd Hold Hv Hsel).
  - cbn [EditorState_create selection] in Hsel.
    destruct (remote_doc _); [discriminate|]. injection Hsel as <- <-. lia.
Qed.

Lemma disconnect_sessions_inv docUrl collabUrl st h s :
  sessions (disconnect docUrl collabUrl st) !! h = Some s ->
  exists s0, sessions st !! h = Some s0 /\ view s = view s0
             /\ (s = s0 \/ s = destroy_session s0).
Proof.
  unfold disconnect.
  destruct (connections st !! cache_key docUrl collabUrl) as [h0|];
    [|intros Hs; exists s; auto].
  cbn [sessions]. destruct (decide (h0 = h)) as [<-|Hne].
  - rewrite lookup_alter_eq. destruct (sessions st !! h0) as [s0|];
      [|discriminate].
    intros [= <-]. exists s0. auto.
  - rewrite lookup_alter_ne by assumption. intros Hs. exists s. auto.
Qed.

Lemma setCursor_shape h pos st :
  snd (setCursor h pos st) = st
  \/ exists s v sel,
       sessions st !! h = Some s /\ view s = Some v
       /\ valid_selection (doc v) sel /\ forward_selection sel
       /\ snd (setCursor h pos st)
          = snd (dispatch h (setSelection (tr v) sel) st).
Proof.
  unfold setCursor, bind, lift.
  destruct (view_state h st) as [[e|v] st'] eqn:Hv.
  { left. now rewrite (view_state_same _ _ _ _ Hv). }
  destruct (view_state_inv _ _ _ _ Hv) as [-> (s & Hs & Hvs)].
  destruct (pos =? 0).
  { right. exists s, v, (atStart (doc v)). repeat split; try assumption.
    - apply atStart_valid.
    - destruct (doc v); simpl; [exact I | lia]. }
  destruct (pos <? 0).
  { right. exists s, v, (Selection_atEnd (doc v)). repeat split; try assumption.
    - destruct (doc v) as [|b d]; [exact I|].
      pose proof (nodeSize_ge b). pose proof (contentSize_nonneg d).
      simpl. lia.
    - destruct (doc v); simpl; [exact I | lia]. }
  destruct (TextSelection_create (doc v) pos pos) as [e|sel] eqn:Hsel;
    [now left|].
  right. exists s, v, sel. repeat split; try assumption.
  - exact (TextSelection_create_valid _ _ _ _ Hsel).
  - rewrite (TextSelection_create_inv _ _ _ _ Hsel). simpl. lia.
Qed.

Lemma selections_forward_reachable st :
  reachable net st -> selections_forward st.
Proof.
  induction 1 as [|d c st _ IH|d c st _ IH|d c call st _ IH|h pos st _ IH].
  - intros h s v a hd Hs. cbn [initial sessions] in Hs.
    now rewrite lookup_empty in Hs.
  - destruct (connect net d c st) as [r st1] eqn:Hc.
    exact (connect_forward _ _ _ _ _ IH Hc).
  - intros h s v a hd Hs Hv Hsel.
    destruct (disconnect_sessions_inv _ _ _ _ _ Hs) as (s0 & Hs0 & Hview & _).
    rewrite Hview in Hv. exact (IH h s0 v a hd Hs0 Hv Hsel).
  - destruct (run_call_shape d c call st) as (r1 & st1 & Hc & Hshape).
    pose proof (connect_forward _ _ _ _ _ IH Hc) as IH1.
    destruct Hshape as [->|(h & s & v & t & _ & Hs & Hv & Ht & ->)];
      [exact IH1|].
    apply dispatch_forward; [exact IH1|].
    apply (operation_transaction_forward v); [|exact Ht].
    exact (selections_forward_at _ _ _ _ IH1 Hs Hv).
  - destruct (setCursor_shape h pos st)
      as [->|(s & v & sel & Hs & Hv & _ & Hfw & ->)]; [exact IH|].
    now apply dispatch_forward.
Qed.

Lemma selections_valid_reachable st :
  reachable net st -> selections_valid st.
Proof.
  induction 1 as [|d c st _ IH|d c st _ IH|d c call st _ IH|h pos st _ IH].
  - apply selections_valid_initial.
  - destruct (connect net d c st) as [r st1] eqn:Hc.
    exact (connect_valid _ _ _ _ _ _ IH Hc).
  - intros h s v Hs Hv.
    destruct (disconnect_sessions_inv _ _ _ _ _ Hs) as (s0 & Hs0 & Hview & _).
    rewrite Hview in Hv. exact (IH h s0 v Hs0 Hv).
  - destruct (run_call_shape d c call st) as (r1 & st1 & Hc & Hshape).
    pose proof (connect_valid _ _ _ _ _ _ IH Hc) as IH1.
    destruct Hshape as [->|(h & s & v & t & _ & Hs & Hv & Ht & ->)];
      [exact IH1|].
    apply dispatch_valid; [exact IH1|].
    exact (operation_transaction_valid v t (IH1 h s v Hs Hv) Ht).
  - destruct (setCursor_shape h pos st)
      as [->|(s & v & sel & Hs & Hv & Hval & _ & ->)]; [exact IH|].
    now apply dispatch_valid.
Qed.

(** X1. In every state the process reaches by calls that run one after the
    other, each text selection runs forwards (anchor not after head), so its
    start [$from] is its anchor. *)
Theorem reachable_selections_forward st :
  reachable net st -> selections_forward st.
Proof. exact (selections_forward_reachable st). Qed.

(** X2. In every state the process reaches, both endpoints of every
    selection are positions of its document. *)
Theorem reachable_selections_valid st :
  reachable net st -> selections_valid st.
Proof. exact (selections_valid_reachable st). Qed.


(** *** The cache and the sessions fit together *)

Lemma connect_fresh_eq docUrl collabUrl st :
  connections st !! cache_key docUrl collabUrl = None ->
  let h := opened st in
  let o := net collabUrl docUrl h in
  let s0 := {| s_collabUrl := collabUrl; s_docUrl := docUrl;
               awareness :=
                 setLocalStateField_user new_awareness
                   {| color := "#667eea"; name := "🤖 DA Agent";
                      id := "da-agent-" +:+ pretty (clientID o) |};
               view := None; destroyed := false |} in
  connect net docUrl collabUrl st
  = if sync_resolves o
    then (inr h,
          {| connections := <[cache_key docUrl collabUrl := h]> (connections st);
             sessions :=
               <[h := set_view (EditorState_create (remote_doc o)) s0]>
                 (sessions st);
             opened := S h |})
    else (inl (Error "Sync timeout"),
          {| connections := connections st;
             sessions := <[h := s0]> (sessions st);
             opened := S h |}).
Proof.
  intros Hc. cbv zeta. unfold connect, connect_begin. rewrite Hc.
  cbn [connect_resume connections sessions opened].
  destruct (sync_resolves _); [|reflexivity].
  do 2 f_equal. apply map_eq. intros i.
  destruct (decide (opened st = i)) as [<-|Hne].
  - now rewrite lookup_alter_eq, !lookup_insert_eq.
  - now rewrite lookup_alter_ne, !lookup_insert_ne by assumption.
Qed.

Lemma connect_consistent docUrl collabUrl st r st1 :
  cache_consistent st -> connect net docUrl collabUrl st = (r, st1) ->
  cache_consistent st1.
Proof.
  intros (HA & HB & HC) Hconn.
  destruct (connections st !! cache_key docUrl collabUrl) as [h0|] eqn:Hc.
  { rewrite (connect_cached _ _ _ _ _ Hc) in Hconn. injection Hconn as _ <-.
    exact (conj HA (conj HB HC)). }
  rewrite (connect_fresh_eq _ _ _ Hc) in Hconn. cbv zeta in Hconn.
  assert (Hfresh : sessions st !! opened st = None).
  { destruct (sessions st !! opened st) as [s|] eqn:Hs; [|reflexivity].
    specialize (HC _ _ Hs). lia. }
  destruct (sync_resolves _); injection Hconn as _ <-; (split; [|split]);
    cbn [connections sessions opened].
  - intros k h Hk. destruct (decide (cache_key docUrl collabUrl = k)) as [<-|Hne].
    + rewrite lookup_insert_eq in Hk. injection Hk as <-. split; [lia|].
      rewrite lookup_insert_eq. now eexists _, _.
    + rewrite lookup_insert_ne in Hk by assumption.
      destruct (HA k h Hk) as [Hlt Hs]. split; [lia|].
      rewrite lookup_insert_ne by lia. exact Hs.
  - intros k k' h Hk Hk'.
    destruct (decide (cache_key docUrl collabUrl = k)) as [<-|Hne];
      destruct (decide (cache_key docUrl collabUrl = k')) as [<-|Hne'];
      [reflexivity| | |].
    + rewrite lookup_insert_eq in Hk. injection Hk as <-.
      rewrite lookup_insert_ne in Hk' by assumption.
      destruct (HA _ _ Hk') as [Hlt _]. lia.
    + rewrite lookup_insert_eq in Hk'. injection Hk' as <-.
      rewrite lookup_insert_ne in Hk by assumption.
      destruct (HA _ _ Hk) as [Hlt _]. lia.
    + rewrite lookup_insert_ne in Hk, Hk' by assumption. exact (HB _ _ _ Hk Hk').
  - intros h s Hs. destruct (decide (opened st = h)) as [<-|Hne]; [lia|].
    rewrite lookup_insert_ne in Hs by assumption. specialize (HC _ _ Hs). lia.
  - intros k h Hk. destruct (HA k h Hk) as [Hlt Hs]. split; [lia|].
    rewrite lookup_insert_ne by lia. exact Hs.
  - exact HB.
  - intros h s Hs. destruct (decide (opened st = h)) as [<-|Hne]; [lia|].
    rewrite lookup_insert_ne in Hs by assumption. specialize (HC _ _ Hs). lia.
Qed.

Lemma dispatch_consistent h t st :
  cache_consistent st -> cache_consistent (snd (dispatch h t st)).
Proof.
  intros (HA & HB & HC).
  (split; [|split]); cbn [dispatch snd connections sessions opened].
  - intros k h' Hk. destruct (HA k h' Hk) as [Hlt (s & v & Hs & Hv & Hd)].
    split; [exact Hlt|]. destruct (decide (h = h')) as [<-|Hne].
    + rewrite lookup_alter_eq, Hs. now eexists _, _.
    + rewrite lookup_alter_ne by assumption. now exists s, v.
  - exact HB.
  - intros h' s Hs. destruct (decide (h = h')) as [<-|Hne].
    + rewrite lookup_alter_eq in Hs.
      destruct (sessions st !! h) as [s0|] eqn:Hs0; [|discriminate].
      exact (HC _ _ Hs0).
    + rewrite lookup_alter_ne in Hs by assumption. exact (HC _ _ Hs).
Qed.

Lemma disconnect_consistent docUrl collabUrl st :
  cache_consistent st -> cache_consistent (disconnect docUrl collabUrl st).
Proof.
  intros (HA & HB & HC). unfold disconnect.
  destruct (connections st !! cache_key docUrl collabUrl) as [h0|] eqn:Hc;
    [|exact (conj HA (conj HB HC))].
  (split; [|split]); cbn [connections sessions opened].
  - intros k h Hk. destruct (decide (cache_key docUrl collabUrl = k)) as [<-|Hne].
    { now rewrite lookup_delete_eq in Hk. }
    rewrite lookup_delete_ne in Hk by assumption.
    destruct (HA k h Hk) as [Hlt Hs]. split; [exact Hlt|].
    assert (h0 <> h) by (intros ->; exact (Hne (HB _ _ _ Hc Hk))).
    now rewrite lookup_alter_ne.
  - intros k k' h Hk Hk'.
    destruct (decide (cache_key docUrl collabUrl = k)) as [<-|Hne];
      [now rewrite lookup_delete_eq in Hk|].
    destruct (decide (cache_key docUrl collabUrl = k')) as [<-|Hne'];
      [now rewrite lookup_delete_eq in Hk'|].
    rewrite lookup_delete_ne in Hk, Hk' by assumption. exact (HB _ _ _ Hk Hk').
  - intros h s Hs. destruct (decide (h0 = h)) as [<-|Hne].
    + rewrite lookup_alter_eq in Hs.
      destruct (sessions st !! h0) as [s0|] eqn:Hs0; [|discriminate].
      exact (HC _ _ Hs0).
    + rewrite lookup_alter_ne in Hs by assumption. exact (HC _ _ Hs).
Qed.

Lemma run_call_consistent docUrl collabUrl c st :
  cache_consistent st ->
  cache_consistent (snd (run_call net docUrl collabUrl c st)).
Proof.
  intros Hcc. destruct (run_call_shape docUrl collabUrl c st)
    as (r1 & st1 & Hc & Hshape).
  pose proof (connect_consistent _ _ _ _ _ Hcc Hc) as Hcc1.
  destruct Hshape as [->|(h & s & v & t & _ & _ & _ & _ & ->)];
    [exact Hcc1 | now apply dispatch_consistent].
Qed.

Lemma cache_consistent_reachable st :
  reachable net st -> cache_consistent st.
Proof.
  induction 1 as [|d c st _ IH|d c st _ IH|d c call st _ IH|h pos st _ IH].
  - (split; [|split]); cbn [initial connections sessions].
    + intros k h Hk. now rewrite lookup_empty in Hk.
    + intros k k' h Hk. now rewrite lookup_empty in Hk.
    + intros h s Hs. now rewrite lookup_empty in Hs.
  - destruct (connect net d c st) as [r st1] eqn:Hc.
    exact (connect_consistent _ _ _ _ _ IH Hc).
  - now apply disconnect_consistent.
  - now apply run_call_consistent.
  - destruct (setCursor_shape h pos st)
      as [->|(s & v & sel & _ & _ & _ & _ & ->)]; [exact IH|].
    now apply dispatch_consistent.
Qed.

(** X3. In every state the process reaches, a cached connection belongs to a
    provider that was opened, its session has an editor view and has not been
    destroyed; no connection is cached under two keys; and every session
    belongs to a provider that was opened. *)
Theorem reachable_cache_consistent st :
  reachable net st -> cache_consistent st.
Proof. exact (cache_consistent_reachable st). Qed.


(** *** The agent's awareness entry *)

Lemma setLocalStateField_cursor_registered aw c :
  registered_awareness aw ->
  registered_awareness (setLocalStateField_cursor aw c).
Proof.
  intros [(ls & u & Hls & Hu & Hagent) Hpub]. unfold setLocalStateField_cursor.
  rewrite Hls. split; cbn [localState published].
  - now eexists _, u.
  - apply Forall_app. split; [exact Hpub|]. constructor; [|constructor].
    now exists u.
Qed.

Lemma updateCursorInfo_registered v aw :
  registered_awareness aw -> registered_awareness (updateCursorInfo v aw).
Proof.
  intros Hreg. unfold updateCursorInfo.
  destruct (selection v); [|exact Hreg].
  destruct (match cursor _ with None => true | Some _ => _ end);
    [now apply setLocalStateField_cursor_registered | exact Hreg].
Qed.

Lemma user_registered_spec st :
  user_registered st
  <-> forall h s, sessions st !! h = Some s -> registered_awareness (awareness s).
Proof. reflexivity. Qed.

Lemma connect_registered docUrl collabUrl st r st1 :
  user_registered st -> connect net docUrl collabUrl st = (r, st1) ->
  user_registered st1.
Proof.
  intros Hreg Hconn.
  destruct (connections st !! cache_key docUrl collabUrl) as [h0|] eqn:Hc.
  { rewrite (connect_cached _ _ _ _ _ Hc) in Hconn. injection Hconn as _ <-.
    exact Hreg. }
  rewrite (connect_fresh_eq _ _ _ Hc) in Hconn. cbv zeta in Hconn.
  assert (Hnew : forall o : SyncOutcome,
             registered_awareness
               (setLocalStateField_user new_awareness
                  {| color := "#667eea"; name := "🤖 DA Agent";
                     id := "da-agent-" +:+ pretty (clientID o) |})).
  { intros o. split; cbn.
    - eexists _, _. split; [reflexivity|]. split; [reflexivity|]. now split.
    - constructor; [|constructor]. eexists. split; [reflexivity|]. now split. }
  destruct (sync_resolves _); injection Hconn as _ <-; intros h s Hs;
    cbn [sessions] in Hs;
    (destruct (decide (opened st = h)) as [<-|Hne];
     [rewrite lookup_insert_eq in Hs; injection Hs as <-; apply Hnew
     |rewrite lookup_insert_ne in Hs by assumption; exact (Hreg h s Hs)]).
Qed.

Lemma dispatch_registered h t st :
  user_registered st -> user_registered (snd (dispatch h t st)).
Proof.
  intros Hreg h' s Hs. cbn [dispatch snd sessions] in Hs.
  destruct (decide (h = h')) as [<-|Hne].
  - rewrite lookup_alter_eq in Hs.
    destruct (sessions st !! h) as [s0|] eqn:Hs0; [|discriminate].
    injection Hs as <-. cbn [dispatch_session awareness].
    apply updateCursorInfo_registered. exact (Hreg h s0 Hs0).
  - rewrite lookup_alter_ne in Hs by assumption. exact (Hreg h' s Hs).
Qed.

Lemma user_registered_reachable st :
  reachable net st -> user_registered st.
Proof.
  induction 1 as [|d c st _ IH|d c st _ IH|d c call st _ IH|h pos st _ IH].
  - intros h s Hs. cbn [initial sessions] in Hs. now rewrite lookup_empty in Hs.
  - destruct (connect net d c st) as [r st1] eqn:Hc.
    exact (connect_registered _ _ _ _ _ IH Hc).
  - intros h s Hs.
    destruct (disconnect_sessions_inv _ _ _ _ _ Hs) as (s0 & Hs0 & _ & [->| ->]).
    + exact (IH h s0 Hs0).
    + cbn [destroy_session awareness]. unfold plugin_destroy.
      apply setLocalStateField_cursor_registered. exact (IH h s0 Hs0).
  - destruct (run_call_shape d c call st) as (r1 & st1 & Hc & Hshape).
    pose proof (connect_registered _ _ _ _ _ IH Hc) as IH1.
    destruct Hshape as [->|(h & s & v & t & _ & _ & _ & _ & ->)];
      [exact IH1 | now apply dispatch_registered].
  - destruct (setCursor_shape h pos st)
      as [->|(s & v & sel & _ & _ & _ & _ & ->)]; [exact IH|].
    now apply dispatch_registered.
Qed.

(** X4. In every state the process reaches, the local awareness state of
    every session, and every awareness state it has broadcast, carries the
    agent's [user] entry (its colour and its label): cursor updates and the
    null cursor of a teardown never drop it. *)
Theorem reachable_user_registered st :
  reachable net st -> user_registered st.
Proof. exact (user_registered_reachable st). Qed.

(** *** Isolation between identities *)

Lemma connect_other_key docUrl collabUrl st r st1 k :
  k <> cache_key docUrl collabUrl ->
  connect net docUrl collabUrl st = (r, st1) ->
  connections st1 !! k = connections st !! k.
Proof.
  intros Hk Hconn.
  destruct (connections st !! cache_key docUrl collabUrl) as [h0|] eqn:Hc.
  { rewrite (connect_cached _ _ _ _ _ Hc) in Hconn. now injection Hconn as _ <-. }
  rewrite (connect_fresh_eq _ _ _ Hc) in Hconn. cbv zeta in Hconn.
  destruct (sync_resolves _); injection Hconn as _ <-; cbn [connections];
    [now rewrite lookup_insert_ne | reflexivity].
Qed.

Lemma connect_old_session docUrl collabUrl st r st1 h :
  (h < opened st)%nat ->
  connect net docUrl collabUrl st = (r, st1) ->
  sessions st1 !! h = sessions st !! h.
Proof.
  intros Hh Hconn.
  destruct (connections st !! cache_key docUrl collabUrl) as [h0|] eqn:Hc.
  { rewrite (connect_cached _ _ _ _ _ Hc) in Hconn. now injection Hconn as _ <-. }
  rewrite (connect_fresh_eq _ _ _ Hc) in Hconn. cbv zeta in Hconn.
  destruct (sync_resolves _); injection Hconn as _ <-; cbn [sessions];
    now rewrite lookup_insert_ne by lia.
Qed.

(** X5. An operation on one identity leaves every other identity alone: in a
    reachable state, whatever is cached under a different key is still
    cached afterwards, and its session (document, selection, awareness) is
    exactly what it was. *)
Theorem operations_leave_other_identities_alone
    docUrl collabUrl c st k h s :
  reachable net st ->
  k <> cache_key docUrl collabUrl ->
  connections st !! k = Some h -> sessions st !! h = Some s ->
  connections (snd (run_call net docUrl collabUrl c st)) !! k = Some h
  /\ sessions (snd (run_call net docUrl collabUrl c st)) !! h = Some s.
Proof.
  intros Hreach Hk Hck Hs.
  pose proof (cache_consistent_reachable _ Hreach) as Hcc.
  destruct (run_call_shape docUrl collabUrl c st) as (r1 & st1 & Hc & Hshape).
  pose proof (connect_consistent _ _ _ _ _ Hcc Hc) as (_ & HB1 & _).
  destruct Hcc as (HA & _ & _). destruct (HA k h Hck) as [Hlt _].
  assert (Hck1 : connections st1 !! k = Some h)
    by (rewrite (connect_other_key _ _ _ _ _ _ Hk Hc); exact Hck).
  assert (Hs1 : sessions st1 !! h = Some s)
    by (rewrite (connect_old_session _ _ _ _ _ _ Hlt Hc); exact Hs).
  destruct Hshape as [->|(h1 & s1 & v & t & -> & _ & _ & _ & ->)];
    [now split|].
  split; [exact Hck1|]. cbn [dispatch snd sessions].
  assert (h1 <> h).
  { intros ->. apply Hk. symmetry.
    exact (HB1 _ _ _ (connect_ok_inv _ _ _ _ _ _ Hc) Hck1). }
  now rewrite lookup_alter_ne.
Qed.

(** *** [disconnect], then [connect] again *)

(** X6. After [disconnect], a new [connect] for the same identity does not
    revive the old connection: it opens a new provider and returns a
    different connection, while the old session stays destroyed with a null
    cursor as its local awareness cursor. *)
Theorem reconnect_builds_a_new_session docUrl collabUrl st h st1 :
  reachable net st ->
  connect net docUrl collabUrl st = (inr h, st1) ->
  sync_resolves (net collabUrl docUrl (opened st1)) = true ->
  exists st2 s_old ls,
    connect net docUrl collabUrl (disconnect docUrl collabUrl st1)
    = (inr (opened st1), st2)
    /\ h <> opened st1
    /\ opened st2 = S (opened st1)
    /\ sessions st2 !! h = Some s_old
    /\ destroyed s_old = true
    /\ localState (awareness s_old) = Some ls /\ cursor ls = None.
Proof.
  intros Hreach Hc Hsync.
  assert (Hreach1 : reachable net st1).
  { replace st1 with (snd (connect net docUrl collabUrl st)) by now rewrite Hc.
    now constructor. }
  pose proof (cache_consistent_reachable _ Hreach1) as (HA & _ & _).
  pose proof (connect_ok_inv _ _ _ _ _ _ Hc) as Hkey.
  destruct (HA _ _ Hkey) as [Hlt (s & v & Hs & _ & _)].
  destruct (user_registered_reachable _ Hreach1 h s Hs)
    as [(ls & u & Hls & _ & _) _].
  assert (Hdis : disconnect docUrl collabUrl st1
                 = {| connections := delete (cache_key docUrl collabUrl)
                                       (connections st1);
                      sessions := alter destroy_session h (sessions st1);
                      opened := opened st1 |})
    by (unfold disconnect; now rewrite Hkey).
  rewrite Hdis.
  pose proof (connect_fresh_eq docUrl collabUrl
                {| connections := delete (cache_key docUrl collabUrl)
                                    (connections st1);
                   sessions := alter destroy_session h (sessions st1);
                   opened := opened st1 |}
                (lookup_delete_eq _ _)) as Hfresh.
  cbv zeta in Hfresh. cbn [opened connections sessions] in Hfresh.
  rewrite Hsync in Hfresh.
  eexists _, (destroy_session s), _. split; [exact Hfresh|].
  split; [lia|]. split; [reflexivity|]. cbn [sessions].
  split; [rewrite lookup_insert_ne by lia; now rewrite lookup_alter_eq, Hs|].
  split; [reflexivity|]. cbn [destroy_session awareness].
  unfold plugin_destroy, setLocalStateField_cursor. rewrite Hls.
  split; reflexivity.
Qed.

(** *** Timeouts *)

Lemma connect_timeout_state docUrl collabUrl st :
  connections st !! cache_key docUrl collabUrl = None ->
  sync_resolves (net collabUrl docUrl (opened st)) = false ->
  let st1 := snd (connect net docUrl collabUrl st) in
  connections st1 = connections st /\ opened st1 = S (opened st)
  /\ (forall h, h <> opened st -> sessions st1 !! h = sessions st !! h)
  /\ exists s, sessions st1 !! opened st = Some s /\ view s = None
               /\ destroyed s = false.
Proof.
  intros Hc Hsync. cbv zeta.
  rewrite (connect_fresh_eq _ _ _ Hc). cbv zeta. rewrite Hsync.
  cbn [snd connections opened sessions].
  split; [reflexivity|]. split; [reflexivity|]. split.
  - intros h Hh. now rewrite lookup_insert_ne.
  - eexists. rewrite lookup_insert_eq. now split.
Qed.

(** X7. Against an endpoint that never syncs, [n] calls of [connect] for an
    identity that is not cached open [n] providers and cache nothing; each of
    these providers is new and still there afterwards, without an editor
    view and not destroyed: a timed-out [connect] does not tear down what it
    built. *)
Theorem timed_out_connects_leave_their_providers n : forall docUrl collabUrl st,
  reachable net st ->
  connections st !! cache_key docUrl collabUrl = None ->
  (forall h, sync_resolves (net collabUrl docUrl h) = false) ->
  opened (connect_attempts net n docUrl collabUrl st) = (opened st + n)%nat
  /\ connections (connect_attempts net n docUrl collabUrl st) = connections st
  /\ forall i, (i < n)%nat ->
       sessions st !! (opened st + i)%nat = None
       /\ exists s,
            sessions (connect_attempts net n docUrl collabUrl st)
              !! (opened st + i)%nat = Some s
            /\ view s = None /\ destroyed s = false.
Proof.
  induction n as [|n IH]; intros docUrl collabUrl st Hreach Hc Hsync.
  { cbn [connect_attempts]. split; [lia|]. split; [reflexivity|]. intros; lia. }
  cbn [connect_attempts].
  destruct (connect_timeout_state docUrl collabUrl st Hc (Hsync _))
    as (Hconn1 & Hopen1 & Hother & s0 & Hs0 & Hv0 & Hd0).
  set (st1 := snd (connect net docUrl collabUrl st)) in *.
  assert (Hreach1 : reachable net st1) by now constructor.
  assert (Hc1 : connections st1 !! cache_key docUrl collabUrl = None)
    by now rewrite Hconn1.
  destruct (IH docUrl collabUrl st1 Hreach1 Hc1 Hsync) as (Hopen & Hconn & Hsess).
  split; [lia|]. split; [congruence|]. intros i Hi.
  pose proof (cache_consistent_reachable _ Hreach) as (_ & _ & HC).
  split.
  { destruct (sessions st !! (opened st + i)%nat) as [s|] eqn:Hs; [|reflexivity].
    specialize (HC _ _ Hs). lia. }
  destruct i as [|i].
  - rewrite Nat.add_0_r.
    assert (Hkeep : forall m st2,
               (opened st < opened st2)%nat ->
               sessions (connect_attempts net m docUrl collabUrl st2)
                 !! opened st = sessions st2 !! opened st).
    { induction m as [|m IHm]; intros st2 Hlt; [reflexivity|].
      cbn [connect_attempts].
      destruct (connect net docUrl collabUrl st2) as [r st3] eqn:Hc2.
      cbn [snd]. rewrite IHm.
      - exact (connect_old_session _ _ _ _ _ _ Hlt Hc2).
      - unfold connect, connect_begin in Hc2.
        destruct (connections st2 !! cache_key docUrl collabUrl); simpl in Hc2.
        + injection Hc2 as _ <-. exact Hlt.
        + destruct (sync_resolves _); injection Hc2 as _ <-; simpl; lia. }
    rewrite Hkeep by lia. now exists s0.
  - destruct (Hsess i ltac:(lia)) as [_ (s & Hs & Hv & Hd)].
    exists s. rewrite Hopen1 in Hs.
    replace (opened st + S i)%nat with (S (opened st) + i)%nat by lia.
    now split.
Qed.

End Invariants.

(** ** What [findText] returns *)

Section OperationFacts.

Import PM JSFacts PMFacts StepFacts ForwardFacts.

Context `{YBinding}.
Variable net : Network.


Lemma all_text_empty d :
  all_text d = EmptyString <-> forall i b, d !! i = Some b -> text b = EmptyString.
Proof.
  induction d as [|b0 d IH]; simpl.
  - split; [intros _ i b Hb; destruct i; discriminate | reflexivity].
  - split.
    + intros Hall. destruct (text b0) eqn:Hb0; [|discriminate].
      rewrite app_empty in Hall. intros [|i] b Hb; simpl in Hb.
      * now injection Hb as <-.
      * exact (proj1 IH Hall i b Hb).
    + intros Hall. rewrite (Hall 0%nat b0 eq_refl), app_empty.
      apply IH. intros i b Hb. exact (Hall (S i) b Hb).
Qed.

Lemma matches_at_empty b : text b <> EmptyString -> matches_at "" b 0.
Proof.
  intros Hb. split; [exact Hb|]. split; [simpl; lia|].
  simpl. now destruct (JS.toLowerCase (text b)).
Qed.

(** X9. With the empty search text, [findText] returns the collapsed span at
    the first character of the first block that has text, and [null] exactly
    when the document has no text at all. *)
Theorem findText_of_the_empty_text v :
  (findText v "" = None <-> all_text (doc v) = EmptyString)
  /\ forall from to,
       findText v "" = Some (from, to) ->
       to = from
       /\ exists i b,
            doc v !! i = Some b /\ text b <> EmptyString
            /\ from = text_start (doc v) i
            /\ forall j b', (j < i)%nat -> doc v !! j = Some b' ->
                            text b' = EmptyString.
Proof.
  split.
  - split.
    + intros Hnone. apply all_text_empty. intros i b Hb.
      destruct (decide (text b = EmptyString)) as [|Hne]; [assumption|].
      exfalso.
      destruct (occurs_first_match "" (doc v)) as (i' & k' & Hfm).
      { exists i, b, 0%nat. split; [exact Hb | now apply matches_at_empty]. }
      rewrite (findText_first _ _ _ _ Hfm) in Hnone. discriminate.
    + intros Hall. apply findText_absent. intros (i & b & k & Hb & [Hne _]).
      exact (Hne (proj1 (all_text_empty _) Hall i b Hb)).
  - intros from to Hf.
    destruct (findText_inv _ _ _ _ Hf) as (i & k & Hfm & -> & ->).
    destruct Hfm as (b & Hb & [Hne Hocc] & Hmin & Hbefore).
    assert (k = 0%nat) as ->.
    { destruct k as [|k]; [reflexivity|]. exfalso.
      apply (Hmin 0%nat); [lia | now apply matches_at_empty]. }
    split; [unfold JS.len; simpl; lia|]. exists i, b.
    repeat split; try assumption; [lia|].
    intros j b' Hj Hb'. destruct (decide (text b' = EmptyString)); [assumption|].
    exfalso. exact (Hbefore j b' 0%nat Hj Hb' (matches_at_empty _ n)).
Qed.

(** ** [replaceText] *)




(** X11. An empty replacement makes [replaceText] fail even though the text
    is found: [schema.text] throws, the operation reports
    [Error: Empty text nodes are not allowed] and changes nothing.  So
    [replaceText] cannot delete text. *)
Theorem replaceText_rejects_the_empty_replacement
    docUrl collabUrl find st h st1 s v :
  connect net docUrl collabUrl st = (inr h, st1) ->
  sessions st1 !! h = Some s -> view s = Some v ->
  occurs_in find (doc v) ->
  replaceText net docUrl collabUrl find "" st
  = ({| success := false;
        message := "Error: Empty text nodes are not allowed";
        position := None |}, st1).
Proof.
  intros Hc Hs Hv Hocc.
  destruct (occurs_first_match _ _ Hocc) as (i & k & Hfm).
  unfold replaceText, try_catch, bind, lift.
  now rewrite Hc, (view_state_ok _ _ _ _ Hs Hv), (findText_first _ _ _ _ Hfm).
Qed.

(** ** [insertAtCursor] *)









(** X13. An empty text makes [insertAtCursor] fail for every [nodeType]:
    the operation reports [Error: Empty text nodes are not allowed] and
    changes nothing. *)
Theorem insertAtCursor_rejects_the_empty_text
    docUrl collabUrl nodeType st h st1 s v :
  connect net docUrl collabUrl st = (inr h, st1) ->
  sessions st1 !! h = Some s -> view s = Some v ->
  insertAtCursor net docUrl collabUrl "" nodeType st
  = ({| success := false;
        message := "Error: Empty text nodes are not allowed";
        position := None |}, st1).
Proof.
  intros Hc Hs Hv. unfold insertAtCursor. cbv zeta.
  unfold try_catch, bind, lift.
  rewrite Hc, (view_state_ok _ _ _ _ Hs Hv). unfold create_node.
  destruct (bool_decide _); [reflexivity|].
  destruct (JS.startsWith _ _); reflexivity.
Qed.

Lemma tr_insert_doc t pos n t' :
  tr_insert t pos n = inr t' ->
  match resolve (tr_doc t) pos with
  | inr (Depth0 i) => tr_doc t' = take i (tr_doc t) ++ n :: drop i (tr_doc t)
  | inr (Depth1 i k) =>
      exists b,
        tr_doc t !! i = Some b
        /\ tr_doc t'
           = if (k =? String.length (text b))%nat
             then take (S i) (tr_doc t) ++ n :: drop (S i) (tr_doc t)
             else take i (tr_doc t)
                  ++ {| ntype := ntype b; text := text_before k (text b) |}
                  :: n
                  :: {| ntype := ntype b; text := text_from k (text b) |}
                  :: drop (S i) (tr_doc t)
  | inl _ => False
  end.
Proof.
  unfold tr_insert. destruct (resolve (tr_doc t) pos) as [e|[i|i k]];
    [discriminate | apply step_inv |].
  destruct (tr_doc t !! i) as [b|] eqn:Hb; [|discriminate].
  intros Hstep. exists b. split; [reflexivity|].
  destruct (k =? String.length (text b))%nat; apply step_inv in Hstep;
    [|exact Hstep].
  rewrite Hstep, (take_S_r _ _ _ Hb), <- app_assoc. reflexivity.
Qed.

(** X14. Where [insertAtCursor] puts the node, and how many blocks there are
    afterwards.  With the end of the selection between two blocks, or at the
    end of the text of a block, the node becomes the next block and the
    document has one block more.  With the end of the selection before a
    character of a block, that block is split there into two blocks of its
    type, the node stands between them, and the document has two blocks
    more. *)
Theorem insertAtCursor_places_the_node
    docUrl collabUrl text nodeType st h st1 s v n :
  connect net docUrl collabUrl st = (inr h, st1) ->
  sessions st1 !! h = Some s -> view s = Some v ->
  valid_selection (doc v) (selection v) ->
  create_node text (default "paragraph" nodeType) = inr n ->
  exists st2 s2 v2,
    snd (insertAtCursor net docUrl collabUrl text nodeType st) = st2
    /\ sessions st2 !! h = Some s2 /\ view s2 = Some v2
    /\ match resolve (doc v) (sel_to (doc v) (selection v)) with
       | inr (Depth0 i) =>
           doc v2 = take i (doc v) ++ n :: drop i (doc v)
           /\ length (doc v2) = S (length (doc v))
       | inr (Depth1 i k) =>
           exists b,
             doc v !! i = Some b
             /\ if (k =? String.length (PM.text b))%nat
                then doc v2 = take (S i) (doc v) ++ n :: drop (S i) (doc v)
                     /\ length (doc v2) = S (length (doc v))
                else doc v2
                     = take i (doc v)
                       ++ {| ntype := ntype b;
                             PM.text := text_before k (PM.text b) |}
                       :: n
                       :: {| ntype := ntype b;
                             PM.text := text_from k (PM.text b) |}
                       :: drop (S i) (doc v)
                     /\ length (doc v2) = S (S (length (doc v)))
       | inl _ => False
       end.
Proof.
  intros Hc Hs Hv Hsel Hn.
  destruct (tr_insert_ok (tr v) (sel_to (doc v) (selection v)) n Hsel
              (sel_to_range _ _ Hsel))
    as (t' & pre & post & Hins & _).
  exists (snd (dispatch h t' st1)), (dispatch_session t' s), (apply t').
  split.
  { unfold insertAtCursor. cbv zeta. unfold try_catch, bind, lift.
    now rewrite Hc, (view_state_ok _ _ _ _ Hs Hv), Hn, Hins. }
  split; [now apply dispatch_sessions|]. split; [reflexivity|].
  pose proof (tr_insert_doc _ _ _ _ Hins) as Hdoc. cbn [tr tr_doc] in Hdoc.
  cbn [apply doc].
  destruct (resolve (doc v) (sel_to (doc v) (selection v))) as [e|[i|i k]] eqn:Hr;
    [contradiction| |].
  - split; [exact Hdoc|]. rewrite Hdoc, length_app. cbn [length].
    rewrite <- (take_drop i (doc v)) at 3. rewrite length_app. lia.
  - destruct Hdoc as (b & Hb & Hdoc). exists b. split; [exact Hb|].
    destruct (k =? String.length (PM.text b))%nat; (split; [exact Hdoc|]);
      rewrite Hdoc, length_app; cbn [length].
    + rewrite <- (take_drop (S i) (doc v)) at 3. rewrite length_app. lia.
    + rewrite <- (take_drop i (doc v)) at 3.
      rewrite (drop_lookup_cons _ _ _ Hb), length_app. cbn [length]. lia.
Qed.

(** ** [deleteBlock] *)

(** On a text selection whose start is inside block [i], [deleteBlock]
    dispatches the deletion of the span of that block. *)
Lemma deleteBlock_in_block docUrl collabUrl st h st1 s v a hd i k b t' :
  connect net docUrl collabUrl st = (inr h, st1) ->
  sessions st1 !! h = Some s -> view s = Some v ->
  selection v = TextSelection a hd ->
  resolve (doc v) (Z.min a hd) = inr (Depth1 i k) ->
  doc v !! i = Some b ->
  tr_delete (tr v) (block_start (doc v) i) (block_start (doc v) (S i)) = inr t' ->
  deleteBlock net docUrl collabUrl st
  = ({| success := true; message := "Block deleted successfully";
        position := None |}, snd (dispatch h t' st1)).
Proof.
  intros Hc Hs Hv Hsel Hfrom Hb Hdel.
  unfold deleteBlock, try_catch, bind, lift.
  rewrite Hc, (view_state_ok _ _ _ _ Hs Hv). rewrite Hsel. cbn [sel_from].
  rewrite Hfrom. cbn [parent before after]. rewrite Hb.
  cbn [fmap option_fmap option_map]. now rewrite Hdel.
Qed.

Lemma tr_delete_last_block t b :
  valid_selection (tr_doc t) (tr_selection t) ->
  tr_doc t = [b] ->
  exists t',
    tr_delete t (block_start (tr_doc t) 0) (block_start (tr_doc t) 1) = inr t'
    /\ tr_doc t' = [ {| ntype := paragraph; text := EmptyString |} ].
Proof.
  destruct t as [d sel]. cbn [tr_doc tr_selection]. intros Hv ->.
  set (t := {| tr_doc := [b]; tr_selection := sel |}).
  unfold tr_delete. cbn [tr_doc t].
  pose proof (nodeSize_ge b) as Hnb.
  assert (H1 : block_start [b] 1 = nodeSize b) by (unfold block_start; simpl; lia).
  pose proof (block_start_0 [b]) as H0.
  destruct (Z.eqb_spec (block_start [b] 0) (block_start [b] 1)); [lia|].
  rewrite (resolve_block_start [b] 0) by (simpl; lia).
  rewrite (resolve_block_start [b] 1) by (simpl; lia).
  cbn [Nat.ltb Nat.leb take drop app].
  destruct (step_ok t [ {| ntype := paragraph; text := EmptyString |} ]
              {| sm_start := block_start [b] 0;
                 sm_old := block_start [b] 1 - block_start [b] 0;
                 sm_new := 2 |})
    as [s' Hs']; cbn [sm_start sm_old sm_new tr_doc tr_selection t];
    try assumption; try (simpl; lia).
  { rewrite H1, H0. cbn [contentSize]. unfold nodeSize, JS.len. simpl. lia. }
  eexists. split; [exact Hs' | reflexivity].
Qed.

(** X15. On a document with a single block, [deleteBlock] returns success and
    the document becomes one empty paragraph, whatever the block was: the
    document is never left without a block. *)
Theorem deleteBlock_of_the_only_block
    docUrl collabUrl st h st1 s v a hd k b :
  connect net docUrl collabUrl st = (inr h, st1) ->
  sessions st1 !! h = Some s -> view s = Some v ->
  doc v = [b] ->
  selection v = TextSelection a hd ->
  valid_selection (doc v) (selection v) ->
  resolve (doc v) (Z.min a hd) = inr (Depth1 0 k) ->
  exists st2 s2 v2,
    deleteBlock net docUrl collabUrl st
    = ({| success := true; message := "Block deleted successfully";
          position := None |}, st2)
    /\ sessions st2 !! h = Some s2 /\ view s2 = Some v2
    /\ doc v2 = [ {| ntype := paragraph; PM.text := EmptyString |} ].
Proof.
  intros Hc Hs Hv Hdoc Hsel Hval Hfrom.
  destruct (tr_delete_last_block (tr v) b Hval Hdoc) as (t' & Hdel & Hdoc').
  exists (snd (dispatch h t' st1)), (dispatch_session t' s), (apply t').
  split.
  - apply (deleteBlock_in_block docUrl collabUrl st h st1 s v a hd 0%nat k b t');
      try assumption.
    now rewrite Hdoc.
  - split; [now apply dispatch_sessions|]. split; [reflexivity | exact Hdoc'].
Qed.

(** X16. In a reachable state, [deleteBlock] removes the block that contains
    the anchor of the selection: with more than one block and the anchor
    inside block [i], the document afterwards is the old one without block
    [i]. *)
Theorem deleteBlock_removes_the_anchor_block_when_reachable
    docUrl collabUrl st h st1 s v a hd i k :
  reachable net st ->
  connect net docUrl collabUrl st = (inr h, st1) ->
  sessions st1 !! h = Some s -> view s = Some v ->
  (1 < length (doc v))%nat ->
  selection v = TextSelection a hd ->
  resolve (doc v) a = inr (Depth1 i k) ->
  exists st2 s2 v2,
    deleteBlock net docUrl collabUrl st
    = ({| success := true; message := "Block deleted successfully";
          position := None |}, st2)
    /\ sessions st2 !! h = Some s2 /\ view s2 = Some v2
    /\ doc v2 = take i (doc v) ++ drop (S i) (doc v).
Proof.
  intros Hreach Hc Hs Hv Hlen Hsel Ha.
  assert (Hreach1 : reachable net st1).
  { replace st1 with (snd (connect net docUrl collabUrl st)) by now rewrite Hc.
    now constructor. }
  pose proof (selections_forward_reachable net _ Hreach1 h s v a hd Hs Hv Hsel)
    as Hfw.
  pose proof (selections_valid_reachable net _ Hreach1 h s v Hs Hv) as Hval.
  destruct (resolve_inv _ _ _ Ha) as (b & Hb & _ & _).
  destruct (tr_delete_block_ok (tr v) i b Hval Hb Hlen) as (t' & Hdel & Hdoc).
  exists (snd (dispatch h t' st1)), (dispatch_session t' s), (apply t').
  split.
  - apply (deleteBlock_in_block docUrl collabUrl st h st1 s v a hd i k b t');
      try assumption.
    now rewrite Z.min_l.
  - split; [now apply dispatch_sessions|]. split; [reflexivity | exact Hdoc].
Qed.


(** ** Documents are never emptied *)

Lemma operation_transaction_nonempty v t :
  doc v <> [] -> operation_transaction v t -> tr_doc t <> [].
Proof.
  intros Hne [(from & to & _ & _ & ->)|[(from & to & Ht)|[(pos & n & Ht)
            |(from & to & s & Ht)]]].
  - exact Hne.
  - unfold tr_delete in Ht. destruct (from =? to); [now injection Ht as <-|].
    destruct (resolve (tr_doc (tr v)) from) as [e|[i|i k]]; [discriminate| |];
      (destruct (resolve (tr_doc (tr v)) to) as [e|[j|j l]]; try discriminate).
    destruct (i <? j)%nat; [|discriminate].
    destruct (take i (tr_doc (tr v)) ++ drop j (tr_doc (tr v)));
      apply step_inv in Ht; rewrite Ht; discriminate.
  - pose proof (tr_insert_doc _ _ _ _ Ht) as Hdoc.
    destruct (resolve (tr_doc (tr v)) pos) as [e|[i|i k]]; [contradiction| |].
    + rewrite Hdoc. now destruct (take i (tr_doc (tr v))).
    + destruct Hdoc as (b & _ & ->).
      destruct (k =? String.length (text b))%nat.
      * now destruct (take (S i) (tr_doc (tr v))).
      * now destruct (take i (tr_doc (tr v))).
  - destruct (tr_replaceWith_inv _ _ _ _ _ Ht) as (i & b & k1 & k2 & _ & _ & _ & _ & ->).
    intros Hnil. apply (f_equal length) in Hnil. rewrite length_insert in Hnil.
    cbn [tr tr_doc] in Hnil. destruct (doc v); [contradiction | discriminate].
Qed.

(** X18. When the endpoint never serves an empty document, no sequence of
    calls leaves a view with an empty document: every document the process
    holds has at least one block. *)
Theorem documents_are_never_emptied st :
  (forall collabUrl docUrl n, remote_doc (net collabUrl docUrl n) <> []) ->
  reachable net st ->
  forall h s v, sessions st !! h = Some s -> view s = Some v -> doc v <> [].
Proof.
  intros Hnet.
  induction 1 as [|d c st _ IH|d c st _ IH|d c call st _ IH|h0 pos st _ IH];
    intros h s v Hs Hv.
  - cbn [initial sessions] in Hs. now rewrite lookup_empty in Hs.
  - destruct (connect net d c st) as [r st1] eqn:Hc. cbn [snd] in Hs.
    destruct (connect_sessions_inv _ _ _ _ _ _ _ _ _ Hc Hs Hv)
      as [Hold|(_ & _ & ->)]; [exact (IH h s v Hold Hv) | apply Hnet].
  - destruct (disconnect_sessions_inv _ _ _ _ _ Hs) as (s0 & Hs0 & Hview & _).
    rewrite Hview in Hv. exact (IH h s0 v Hs0 Hv).
  - destruct (run_call_shape net d c call st) as (r1 & st1 & Hc & Hshape).
    assert (IH1 : forall h s v, sessions st1 !! h = Some s -> view s = Some v ->
                                doc v <> []).
    { intros h' s' v' Hs' Hv'.
      destruct (connect_sessions_inv _ _ _ _ _ _ _ _ _ Hc Hs' Hv')
        as [Hold|(_ & _ & ->)]; [exact (IH h' s' v' Hold Hv') | apply Hnet]. }
    destruct Hshape as [Heq|(h1 & s1 & v1 & t & _ & Hs1 & Hv1 & Ht & Heq)];
      rewrite Heq in Hs; [exact (IH1 h s v Hs Hv)|].
    cbn [dispatch snd sessions] in Hs.
    destruct (decide (h1 = h)) as [<-|Hne].
    + rewrite lookup_alter_eq, Hs1 in Hs. injection Hs as <-.
      injection Hv as <-. cbn [apply doc].
      exact (operation_transaction_nonempty v1 t (IH1 h1 s1 v1 Hs1 Hv1) Ht).
    + rewrite lookup_alter_ne in Hs by assumption. exact (IH1 h s v Hs Hv).
  - destruct (setCursor_shape h0 pos st)
      as [Heq|(s1 & v1 & sel & Hs1 & Hv1 & _ & _ & Heq)];
      rewrite Heq in Hs; [exact (IH h s v Hs Hv)|].
    cbn [dispatch snd sessions] in Hs.
    destruct (decide (h0 = h)) as [<-|Hne].
    + rewrite lookup_alter_eq, Hs1 in Hs. injection Hs as <-.
      injection Hv as <-. cbn [apply doc setSelection tr tr_doc].
      exact (IH h0 s1 v1 Hs1 Hv1).
    + rewrite lookup_alter_ne in Hs by assumption. exact (IH h s v Hs Hv).
Qed.

(** ** [setCursor] *)

(** X19. [setCursor] always leaves a collapsed selection and the document as
    it is.  A position from 1 to the size of the document is taken as it is;
    0 means the start of the first block, which is position 1; a negative
    position means the end of the last block; on an empty document both give
    the whole-document selection.  A position beyond the document makes it
    throw a [RangeError], uncaught, and nothing changes. *)
Theorem setCursor_sets_a_collapsed_selection h pos st s v :
  sessions st !! h = Some s -> view s = Some v ->
  let moved_to sel :=
    setCursor h pos st
    = (inr tt, snd (dispatch h {| tr_doc := doc v; tr_selection := sel |} st)) in
  (0 < pos <= contentSize (doc v) -> moved_to (TextSelection pos pos))
  /\ (contentSize (doc v) < pos ->
      setCursor h pos st
      = (inl (RangeError ("Position " +:+ pretty pos +:+ " out of range")), st))
  /\ (doc v <> [] -> pos = 0 -> moved_to (TextSelection 1 1))
  /\ (doc v <> [] -> pos < 0 ->
      moved_to (TextSelection (contentSize (doc v) - 1)
                              (contentSize (doc v) - 1)))
  /\ (doc v = [] -> pos <= 0 -> moved_to AllSelection).
Proof.
  intros Hs Hv. cbv zeta. unfold setCursor, bind, lift.
  rewrite (view_state_ok _ _ _ _ Hs Hv).
  unfold setSelection, tr, atStart, Selection_atEnd. cbn [tr_doc].
  split; [|split; [|split; [|split]]].
  - intros Hpos. destruct (Z.eqb_spec pos 0); [lia|].
    destruct (Z.ltb_spec pos 0); [lia|].
    unfold TextSelection_create.
    destruct (resolve_total (doc v) pos ltac:(lia)) as [r ->]. reflexivity.
  - intros Hpos. pose proof (contentSize_nonneg (doc v)).
    destruct (Z.eqb_spec pos 0); [lia|]. destruct (Z.ltb_spec pos 0); [lia|].
    unfold TextSelection_create.
    destruct (resolve (doc v) pos) as [e|r] eqn:Hr.
    + unfold resolve in Hr.
      destruct (if pos <? 0 then None else resolve_from (doc v) 0 pos);
        [discriminate|]. now injection Hr as <-.
    + pose proof (resolve_range _ _ _ Hr). lia.
  - intros Hne ->. cbn [Z.eqb lift]. destruct (doc v); [contradiction | reflexivity].
  - intros Hne Hpos. destruct (Z.eqb_spec pos 0); [lia|].
    destruct (Z.ltb_spec pos 0); [|lia].
    destruct (doc v); [contradiction | reflexivity].
  - intros Hnil Hpos. rewrite Hnil.
    destruct (Z.eqb_spec pos 0); [reflexivity|].
    destruct (Z.ltb_spec pos 0); [reflexivity | lia].
Qed.

(** ** The cursor projection plugin, again *)

Lemma alter_idempotent (f : Session -> Session) (m : gmap nat Session) h :
  (forall s, m !! h = Some s -> f (f s) = f s) ->
  alter f h (alter f h m) = alter f h m.
Proof.
  intros Hf. apply map_eq. intros i. destruct (decide (h = i)) as [<-|Hne].
  - rewrite !lookup_alter_eq. destruct (m !! h) as [s|] eqn:Hs; [|reflexivity].
    simpl. f_equal. now apply Hf.
  - now rewrite !lookup_alter_ne.
Qed.

Lemma updateCursorInfo_again v aw :
  (forall r, compareRelativePositions r r = true) ->
  (length (published (updateCursorInfo v aw)) <= S (length (published aw)))%nat
  /\ updateCursorInfo v (updateCursorInfo v aw) = updateCursorInfo v aw.
Proof.
  intros Hrefl. unfold updateCursorInfo.
  destruct (selection v) as [a hd|]; [|split; [lia | reflexivity]].
  set (anchor := absolutePositionToRelativePosition a (doc v)).
  set (head := absolutePositionToRelativePosition hd (doc v)).
  set (changed := fun current : LocalState =>
         match cursor current with
         | None => true
         | Some c => negb (compareRelativePositions (c_anchor c) anchor)
                     || negb (compareRelativePositions (c_head c) head)
         end).
  set (c' := Some {| c_anchor := anchor; c_head := head |}).
  change (let current := default {| user := None; cursor := None |}
                                 (localState aw) in
          let aw1 := if changed current then setLocalStateField_cursor aw c'
                     else aw in
          (length (published aw1) <= S (length (published aw)))%nat
          /\ (if changed (default {| user := None; cursor := None |}
                                  (localState aw1))
              then setLocalStateField_cursor aw1 c' else aw1) = aw1).
  cbv zeta.
  destruct (changed (default {| user := None; cursor := None |} (localState aw)))
    eqn:Hch.
  - unfold setLocalStateField_cursor.
    destruct (localState aw) as [ls|] eqn:Hls.
    + cbn [localState published default from_option]. unfold Datatypes.id.
      unfold changed, c'. cbn [cursor c_anchor c_head]. rewrite !Hrefl.
      cbn [negb orb]. rewrite length_app. simpl. split; [lia | reflexivity].
    + rewrite ?Hls. cbn [default from_option]. unfold changed. cbn [cursor].
      rewrite ?Hls. split; [lia | reflexivity].
  - rewrite Hch. split; [lia | reflexivity].
Qed.

(** X20. [updateCursorInfo] broadcasts at most one awareness state per view
    update, and, [Y.compareRelativePositions] being reflexive, a second
    update for the same view state broadcasts nothing: the cursor is only
    republished when it changed. *)
Theorem updateCursorInfo_publishes_changes_only v aw :
  (forall r, compareRelativePositions r r = true) ->
  (length (published (updateCursorInfo v aw)) <= S (length (published aw)))%nat
  /\ updateCursorInfo v (updateCursorInfo v aw) = updateCursorInfo v aw.
Proof. exact (updateCursorInfo_again v aw). Qed.

(** X21. [positionCursor] is idempotent: after a successful call, the same
    call again returns the same result and leaves the whole process state,
    awareness included, as it is ([Y.compareRelativePositions] being
    reflexive). *)
Theorem positionCursor_twice_changes_nothing
    docUrl collabUrl searchText st r st2 :
  (forall p, compareRelativePositions p p = true) ->
  positionCursor net docUrl collabUrl searchText st = (r, st2) ->
  success r = true ->
  positionCursor net docUrl collabUrl searchText st2 = (r, st2).
Proof.
  intros Hrefl Hrun Hok. revert Hrun.
  unfold positionCursor at 1. unfold try_catch, bind, lift.
  destruct (connect net docUrl collabUrl st) as [[e|h] st1] eqn:Hc;
    [intros [= <- <-]; discriminate|].
  destruct (view_state h st1) as [[e|v] st1'] eqn:Hv;
    [intros [= <- <-]; discriminate|].
  destruct (view_state_inv _ _ _ _ Hv) as [-> (s & Hs & Hvs)].
  destruct (findText v searchText) as [[from to]|] eqn:Hf;
    [|intros [= <- <-]; discriminate].
  destruct (TextSelection_create (doc v) from to) as [e|sel] eqn:Hsel;
    [intros [= <- <-]; discriminate|].
  set (t := setSelection (tr v) sel).
  intros [= <- Hst2].
  assert (Hst : st2 = snd (dispatch h t st1)) by (symmetry; exact Hst2).
  clear Hst2.
  assert (Hc2 : connect net docUrl collabUrl st2 = (inr h, st2)).
  { apply connect_cached. rewrite Hst, dispatch_connections.
    exact (connect_ok_inv _ _ _ _ _ _ Hc). }
  assert (Hs2 : sessions st2 !! h = Some (dispatch_session t s)).
  { rewrite Hst. exact (dispatch_sessions st1 h t s Hs). }
  unfold positionCursor, try_catch, bind, lift.
  rewrite Hc2, (view_state_ok _ _ _ (apply t) Hs2 eq_refl).
  assert (Hf2 : findText (apply t) searchText = Some (from, to)) by exact Hf.
  rewrite Hf2. cbn [apply doc t setSelection tr tr_doc]. rewrite Hsel.
  f_equal. rewrite Hst at 2. cbn [dispatch snd].
  rewrite Hst. cbn [dispatch snd connections sessions opened]. f_equal.
  apply alter_idempotent. intros s0 Hs0. rewrite Hs in Hs0. injection Hs0 as <-.
  unfold dispatch_session. cbn [awareness s_collabUrl s_docUrl destroyed view].
  f_equal.
  exact (proj2 (updateCursorInfo_again _ _ Hrefl)).
Qed.

End OperationFacts.

(** ** The callers on small inputs *)

Example json_of_result_ex :
  json_of_result (found "a" 1 2)
  = "{" +:+ JS.dquote +:+ "success" +:+ JS.dquote +:+ ":true," +:+ JS.dquote
    +:+ "message" +:+ JS.dquote +:+ ":" +:+ JS.dquote +:+ "Found \"
    +:+ JS.dquote +:+ "a\" +:+ JS.dquote +:+ " at position 1-2" +:+ JS.dquote
    +:+ "," +:+ JS.dquote +:+ "position" +:+ JS.dquote +:+ ":{" +:+ JS.dquote
    +:+ "from" +:+ JS.dquote +:+ ":1," +:+ JS.dquote +:+ "to" +:+ JS.dquote
    +:+ ":2}}".
Proof. reflexivity. Qed.

Example executeOperations_ex :
  fst (executeOperations (@backend flat_binding quick_net)
         (Some scenario_context)
         [ operation "position-cursor" (Some "Old Title");
           operation "deleteBlock" None;
           operation "insert-at-cursor" None ] (@initial flat_binding))
  = BatchDone
      [ found "Old Title" 8 17;
        {| success := true; message := "Block deleted successfully";
           position := None |};
        {| success := false;
           message :=
             "Backend error: 400 - "
             +:+ json_of_result
                   (res_body (bad_request (missing_message insert_at_cursor)));
           position := None |} ]
      "⚠️ 2/3 operations succeeded".
Proof. reflexivity. Qed.

(** ** The routes *)

Section CallerFacts.

Import PM JSFacts.

Context `{YBinding}.
Variable net : Network.

Lemma truthy_inv x s : truthy x = Some s -> x = Some s /\ s <> EmptyString.
Proof.
  unfold truthy. destruct x as [t|]; [|discriminate].
  destruct (bool_decide_reflect (t = EmptyString)); [discriminate|].
  now intros [= <-].
Qed.

Ltac split_exists :=
  repeat match goal with
    | E : Exists _ (_ :: _) |- _ => apply Exists_cons in E; destruct E as [E|E]
    | E : Exists _ [] |- _ => apply Exists_nil in E; contradiction
    end.

Lemma router_missing e req st :
  Exists (fun f => truthy (f req) = None) (required_parameters e) ->
  router net e req st = (bad_request (missing_message e), st).
Proof.
  intros E.
  destruct e; cbn [router required_parameters missing_message] in *;
    unfold route_position_cursor, route_delete_block, route_insert_at_cursor,
      route_replace_text, route_disconnect;
    split_exists; rewrite E; repeat (destruct (truthy _)); reflexivity.
Qed.


Lemma router_reachable e req st :
  reachable net st -> reachable net (snd (router net e req st)).
Proof.
  intros Hr.
  destruct e; cbn [router];
    unfold route_position_cursor, route_delete_block, route_insert_at_cursor,
      route_replace_text, route_disconnect;
    repeat (destruct (truthy _) as [?|]; try exact Hr).
  - pose proof (reach_call net s s0 (call_positionCursor s1) st Hr) as Hc.
    cbn [run_call] in Hc. now destruct (positionCursor _ _ _ _ _).
  - pose proof (reach_call net s s0 call_deleteBlock st Hr) as Hc.
    cbn [run_call] in Hc. now destruct (deleteBlock _ _ _ _).
  - pose proof (reach_call net s s0
                  (call_insertAtCursor s1
                     (js_or (req_nodeType req) (Some "paragraph"))) st Hr) as Hc.
    cbn [run_call] in Hc. now destruct (insertAtCursor _ _ _ _ _ _).
  - pose proof (reach_call net s s0 (call_replaceText s1 s2) st Hr) as Hc.
    cbn [run_call] in Hc. now destruct (replaceText _ _ _ _ _ _).
  - exact (reach_disconnect net s s0 st Hr).
Qed.


(** X24. The disconnect route always answers 200 with [Disconnected], also
    for an identity that was never connected, where it changes nothing.
    Afterwards the identity is not cached, the session that was cached for
    it is torn down, and a second disconnect changes nothing more. *)
Theorem disconnect_route_forgets_the_identity req st docUrl collabUrl :
  truthy (req_docUrl req) = Some docUrl ->
  truthy (req_collabUrl req) = Some collabUrl ->
  let st' := snd (router net disconnect_route req st) in
  fst (router net disconnect_route req st)
  = ok {| success := true; message := "Disconnected"; position := None |}
  /\ connections st' !! cache_key docUrl collabUrl = None
  /\ (connections st !! cache_key docUrl collabUrl = None -> st' = st)
  /\ (forall h s,
        connections st !! cache_key docUrl collabUrl = Some h ->
        sessions st !! h = Some s ->
        sessions st' !! h = Some (destroy_session s))
  /\ snd (router net disconnect_route req st') = st'.
Proof.
  intros Hd Hc. cbn [router]. unfold route_disconnect. rewrite Hd, Hc.
  cbn [fst snd]. split; [reflexivity|].
  split; [|split; [|split]].
  - unfold disconnect.
    destruct (connections st !! cache_key docUrl collabUrl) eqn:Hk;
      [cbn [connections]; apply lookup_delete_eq | exact Hk].
  - apply disconnect_unknown.
  - intros h s Hk Hs. unfold disconnect. rewrite Hk. cbn [sessions].
    now rewrite lookup_alter_eq, Hs.
  - apply disconnect_idempotent.
Qed.

(** ** The client loop *)

Lemma count_success (results : list Result) :
  (successCount results + failCount results = length results)%nat.
Proof.
  unfold successCount, failCount. induction results as [|r rs IH]; [reflexivity|].
  rewrite !filter_cons. destruct r as [[|] m p]; cbn [success];
    repeat (destruct (decide _) as [?|?]; try discriminate; try contradiction);
    try congruence; cbn [length]; lia.
Qed.

Lemma execute_all_length {S : Type} (fetch : Transport S) docUrl collabUrl ops :
  forall st,
    length (fst (execute_all fetch docUrl collabUrl ops st)) = length ops.
Proof.
  induction ops as [|op rest IH]; intros st; [reflexivity|].
  cbn [execute_all]. destruct (execute_one fetch docUrl collabUrl op st) as [r st1].
  specialize (IH st1).
  destruct (execute_all fetch docUrl collabUrl rest st1) as [rs st2].
  cbn [fst length] in *. now rewrite IH.
Qed.

(** X25. [executeOperations] answers every operation of the batch, whatever
    the backend does: a result that fails, a response that is not ok or a
    rejected [fetch] do not end the loop.  There is one result for each
    operation, and each counts either as a success or as a failure. *)
Theorem executeOperations_answers_every_operation
    {S : Type} (fetch : Transport S) ctx ops st results summary st' :
  executeOperations fetch ctx ops st = (BatchDone results summary, st') ->
  length results = length ops
  /\ (successCount results + failCount results = length ops)%nat.
Proof.
  unfold executeOperations. destruct ctx as [[o r p]|]; [|discriminate].
  destruct (truthy o) as [org|]; [|discriminate].
  destruct (truthy r) as [repo|]; [|discriminate].
  destruct (truthy p) as [path|]; [|discriminate]. cbv zeta.
  match goal with |- context [execute_all fetch ?d ?c ops st] =>
    pose proof (execute_all_length fetch d c ops st) as Hlen;
    destruct (execute_all fetch d c ops st) as [rs st1] end.
  cbn [fst] in Hlen. intros [= <- _ _].
  split; [exact Hlen | now rewrite count_success].
Qed.

Lemma execute_one_unknown {S : Type} (fetch : Transport S) docUrl collabUrl op st :
  op_type op ∉ operation_types ->
  execute_one fetch docUrl collabUrl op st = (unknown_operation op, st).
Proof.
  intros Hty. unfold execute_one. cbv zeta.
  repeat match goal with
    | |- context [bool_decide (op_type op = ?t)] =>
        rewrite (bool_decide_eq_false_2 (op_type op = t))
          by (intros Heq; apply Hty; rewrite Heq; unfold operation_types;
              repeat first [apply list_elem_of_here | apply list_elem_of_further])
    end.
  reflexivity.
Qed.

(** X26. What the client never sends: without a complete page context
    (organisation, repository and path, none of them empty) nothing is sent
    at all, and an operation whose type is none of the eight names of the
    [switch] is answered on the spot with [Unknown operation type: <type>],
    without a request. *)
Theorem client_sends_nothing_it_cannot_address
    {S : Type} (fetch : Transport S) ctx docUrl collabUrl ops st :
  ((ctx = None
    \/ exists c, ctx = Some c
                 /\ (truthy (org c) = None \/ truthy (repo c) = None
                     \/ truthy (path c) = None)) ->
   executeOperations fetch ctx ops st = (ContextNotReady, st))
  /\ (Forall (fun op => op_type op ∉ operation_types) ops ->
      execute_all fetch docUrl collabUrl ops st
      = (unknown_operation <$> ops, st)).
Proof.
  split.
  - intros [->|(c & -> & Hc)]; [reflexivity|].
    unfold executeOperations. destruct c as [o r p]. cbn [org repo path] in Hc.
    destruct Hc as [Hc|[Hc|Hc]]; rewrite Hc;
      repeat (destruct (truthy _)); reflexivity.
  - induction 1 as [|op rest Hop _ IH]; [reflexivity|].
    cbn [execute_all]. rewrite (execute_one_unknown _ _ _ _ _ Hop), IH.
    reflexivity.
Qed.

(** ** The client loop against the routes *)

Ltac decide_types :=
  repeat match goal with
    | |- context [bool_decide (?a = ?b)] =>
        first [ rewrite (bool_decide_eq_true_2 (a = b)) by reflexivity
              | rewrite (bool_decide_eq_false_2 (a = b)) by discriminate ]
    end;
  cbn [orb].

Lemma callBackendOperation_state e body st :
  snd (callBackendOperation (backend net) e body st)
  = snd (router net e body st).
Proof.
  unfold callBackendOperation, backend.
  destruct (router net e body st) as [res st1]. cbn [snd].
  now destruct ((200 <=? res_status res) && (res_status res <=? 299)).
Qed.

Lemma callBackendOperation_ok e body st r st1 :
  router net e body st = (ok r, st1) ->
  callBackendOperation (backend net) e body st = (r, st1).
Proof. intros Hr. unfold callBackendOperation, backend. now rewrite Hr. Qed.

Lemma execute_one_reachable docUrl collabUrl op st :
  reachable net st ->
  reachable net (snd (execute_one (backend net) docUrl collabUrl op st)).
Proof.
  intros Hr. unfold execute_one. cbv zeta.
  repeat (destruct (_ || _);
          [rewrite callBackendOperation_state; now apply router_reachable|]).
  exact Hr.
Qed.

Lemma execute_all_reachable docUrl collabUrl ops :
  forall st,
    reachable net st ->
    reachable net (snd (execute_all (backend net) docUrl collabUrl ops st)).
Proof.
  induction ops as [|op rest IH]; intros st Hr; [exact Hr|].
  cbn [execute_all].
  pose proof (execute_one_reachable docUrl collabUrl op st Hr) as H1.
  destruct (execute_one (backend net) docUrl collabUrl op st) as [r st1].
  specialize (IH st1 H1).
  now destruct (execute_all (backend net) docUrl collabUrl rest st1).
Qed.

Lemma executeOperations_reachable ctx ops st :
  reachable net st ->
  reachable net (snd (executeOperations (backend net) ctx ops st)).
Proof.
  intros Hr. unfold executeOperations.
  destruct ctx as [[o r p]|]; [|exact Hr].
  repeat (destruct (truthy _) as [?|]; try exact Hr). cbv zeta.
  match goal with |- context [execute_all _ ?d ?c ops st] =>
    pose proof (execute_all_reachable d c ops st Hr) as Hall;
    destruct (execute_all (backend net) d c ops st) end.
  exact Hall.
Qed.

(** X27. A batch of the client, run against the routes, only does what a
    sequence of engine calls does: whatever the operations and the page
    context are, it leads from a state such a sequence reaches to a state
    such a sequence reaches, where the cache and the sessions fit together,
    every selection lies inside its document and runs forwards, and every
    awareness state carries the agent's user entry. *)
Theorem batches_stay_reachable ctx ops st :
  reachable net st ->
  reachable net (snd (executeOperations (backend net) ctx ops st))
  /\ well_formed (snd (executeOperations (backend net) ctx ops st)).
Proof.
  intros Hr. apply (executeOperations_reachable ctx ops) in Hr.
  split; [exact Hr|].
  exact (conj (cache_consistent_reachable net _ Hr)
           (conj (selections_valid_reachable net _ Hr)
              (conj (selections_forward_reachable net _ Hr)
                 (user_registered_reachable net _ Hr)))).
Qed.

(** X28. An operation that needs a text and carries none, neither in [text]
    nor in [params.text] (or only the empty string), reaches the route
    without it; the route answers 400, and the client reports the status and
    the JSON text of the answer as a failure.  The backend has called
    nothing: its state is what it was. *)
Theorem missing_text_comes_back_as_a_backend_error docUrl collabUrl op st :
  op_type op ∈ [ "position-cursor"; "positionCursor";
                 "insert-at-cursor"; "insertAtCursor" ] ->
  truthy (js_or (op_text op) (op_params op ≫= p_text)) = None ->
  execute_one (backend net) docUrl collabUrl op st
  = ({| success := false;
        message :=
          "Backend error: 400 - {" +:+ JS.dquote +:+ "success" +:+ JS.dquote
          +:+ ":false," +:+ JS.dquote +:+ "message" +:+ JS.dquote +:+ ":"
          +:+ JS.dquote
          +:+ "Missing required parameters: docUrl, collabUrl, text"
          +:+ JS.dquote +:+ "}";
        position := None |}, st).
Proof.
  intros Hty Htext. unfold execute_one. cbv zeta.
  repeat (apply elem_of_cons in Hty; destruct Hty as [Hty|Hty]);
    [| | | |now apply elem_of_nil in Hty]; rewrite Hty; decide_types;
    unfold callBackendOperation, backend;
    match goal with |- context [router net ?e ?b st] =>
      rewrite (router_missing e b st)
        by (cbn [required_parameters];
            apply Exists_cons; right; apply Exists_cons; right;
            apply Exists_cons; left; exact Htext)
    end;
    reflexivity.
Qed.

(** X29. A position-cursor that does not find its text does not stop the
    batch and moves nothing: it is answered with [Text "<text>" not found],
    and the operations after it run on the state as it was, with the
    selection the earlier operations left. *)
Theorem failed_positionCursor_does_not_stop_the_batch
    docUrl collabUrl op rest st h s v text :
  op_type op ∈ [ "position-cursor"; "positionCursor" ] ->
  truthy (js_or (op_text op) (op_params op ≫= p_text)) = Some text ->
  docUrl <> EmptyString -> collabUrl <> EmptyString ->
  connections st !! cache_key docUrl collabUrl = Some h ->
  sessions st !! h = Some s -> view s = Some v ->
  ~ occurs_in text (doc v) ->
  execute_all (backend net) docUrl collabUrl (op :: rest) st
  = ({| success := false;
        message := "Text " +:+ JS.dquote +:+ text +:+ JS.dquote
                   +:+ " not found";
        position := None |}
       :: fst (execute_all (backend net) docUrl collabUrl rest st),
     snd (execute_all (backend net) docUrl collabUrl rest st)).
Proof.
  intros Hty Htext Hd Hc Hk Hs Hv Habs.
  assert (Hone : execute_one (backend net) docUrl collabUrl op st
                 = ({| success := false;
                       message := "Text " +:+ JS.dquote +:+ text +:+ JS.dquote
                                  +:+ " not found";
                       position := None |}, st)).
  { unfold execute_one. cbv zeta.
    repeat (apply elem_of_cons in Hty; destruct Hty as [Hty|Hty]);
      [| |now apply elem_of_nil in Hty]; rewrite Hty; decide_types;
      apply callBackendOperation_ok; cbn [router];
      unfold route_position_cursor;
      cbn [req_docUrl req_collabUrl req_text]; rewrite Htext;
      unfold truthy;
      rewrite !bool_decide_eq_false_2 by assumption;
      unfold positionCursor, try_catch, bind;
      rewrite (connect_cached _ _ _ _ _ Hk), (view_state_ok _ _ _ _ Hs Hv),
        (findText_absent _ _ Habs); reflexivity. }
  cbn [execute_all]. rewrite Hone.
  now destruct (execute_all (backend net) docUrl collabUrl rest st).
Qed.

End CallerFacts.
(* ===================================================================== *)
(** * The theorems at concrete inputs *)
(* ===================================================================== *)

#[local] Existing Instance flat_binding.

Import PM.

(** The first [connect] of the scenario opens provider 0. *)
Lemma scenario_connect :
  connect quick_net "doc" "ws://c" initial
  = (inr 0%nat, snd (connect quick_net "doc" "ws://c" initial)).
Proof. reflexivity. Defined.


(** ["zebra"] occurs nowhere in the scenario document. *)
Lemma absent_text_is_reported_and_nothing_changes_witness :
  fst (positionCursor quick_net "doc" "ws://c" "zebra" initial)
  = not_found "zebra"
  /\ fst (replaceText quick_net "doc" "ws://c" "zebra" "horse" initial)
     = not_found "zebra".
Proof.
  destruct (absent_text_is_reported_and_nothing_changes quick_net
              "doc" "ws://c" "zebra" "horse" initial 0%nat _ _ _
              scenario_connect eq_refl eq_refl) as [-> ->].
  - apply absent_by_search. reflexivity.
  - split; reflexivity.
Defined.

(** Two overlapping first calls on the quick endpoint return the
    connections 0 and 1. *)
Lemma overlapping_connects_build_two_sessions_witness :
  exists st',
    connect_overlapping quick_net "doc" "ws://c" initial
    = ((inr 0%nat, inr 1%nat), st').
Proof.
  destruct (overlapping_connects_build_two_sessions quick_net
              "doc" "ws://c" initial eq_refl eq_refl eq_refl)
    as (st' & Hrun & _).
  now exists st'.
Defined.

(** A state whose cache holds connection 0 for the identity. *)
Lemma connect_returns_cached_session_witness :
  connect quick_net "doc" "ws://c" backward_state = (inr 0%nat, backward_state).
Proof.
  exact (proj1 (connect_returns_cached_session quick_net
                  "doc" "ws://c" backward_state 0%nat eq_refl)).
Defined.

(** The slow endpoint syncs after 15 s: the timer fires first. *)
Lemma sync_timeout_is_never_cached_witness :
  exists st1,
    connect slow_net "doc" "ws://c" initial = (inl (Error "Sync timeout"), st1)
    /\ connections st1 !! cache_key "doc" "ws://c" = None.
Proof.
  destruct (proj1 (sync_timeout_is_never_cached slow_net "doc" "ws://c" initial))
    as (st1 & Hrun & Hsame).
  - reflexivity.
  - split; [reflexivity|]. intros t [= <-]. unfold SYNC_TIMEOUT. lia.
  - exists st1. split; [exact Hrun|]. now rewrite Hsame.
Defined.

(** The two identities with the key [ws://localhost:4711:doc]. *)
Lemma cache_key_collisions_share_a_session_witness :
  connect quick_net "doc" "ws://localhost:4711"
    (snd (connect quick_net "4711:doc" "ws://localhost" initial))
  = (inr 0%nat, snd (connect quick_net "4711:doc" "ws://localhost" initial)).
Proof.
  apply (proj2 (cache_key_collisions_share_a_session quick_net)
           "4711:doc" "ws://localhost" "doc" "ws://localhost:4711" initial);
    reflexivity.
Defined.

(** Dispatching a transaction with the whole-document selection on a
    session that has published nothing leaves nothing published. *)
Lemma placeholder_selection_is_never_published_witness :
  exists s',
    sessions (snd (dispatch 0%nat
                     {| tr_doc := []; tr_selection := AllSelection |}
                     backward_state)) !! 0%nat = Some s'
    /\ published (awareness s') = [].
Proof.
  destruct (placeholder_selection_is_never_published 0%nat
              {| tr_doc := []; tr_selection := AllSelection |}
              backward_state _ eq_refl eq_refl)
    as (_ & s' & Hs' & _ & Hpub).
  now exists s'.
Defined.


(** C6, counterexample.  ['heading7'] is neither ['paragraph'] nor one of
    ['heading1'] .. ['heading6'], yet [insertAtCursor] returns success having
    built a heading of level 7 with the text: that heading is in the document
    afterwards, and no paragraph with that text is. *)
Lemma insertAtCursor_heading7_counterexample :
  "heading7" <> "paragraph"
  /\ Forall (fun known => "heading7" <> known)
        ["heading1"; "heading2"; "heading3"; "heading4"; "heading5"; "heading6"]
  /\ exists st2 s2 v2 j,
       insertAtCursor quick_net "doc" "ws://c" "Beaches" (Some "heading7") initial
       = ({| success := true; message := "heading7 inserted successfully";
             position := None |}, st2)
       /\ sessions st2 !! 0%nat = Some s2 /\ view s2 = Some v2
       /\ doc v2 !! j
          = Some {| ntype := heading (JS.Num 7); text := "Beaches" |}
       /\ Forall (fun b => b <> par "Beaches") (doc v2).
Proof.
  split; [discriminate|]. split; [repeat constructor; discriminate|].
  do 3 eexists. exists 1%nat. split; [reflexivity|]. split; [reflexivity|].
  split; [reflexivity|]. split; [reflexivity|].
  cbn [doc]. repeat constructor; discriminate.
Qed.

(** ['table'] is not a known node type. *)
Lemma insertAtCursor_falls_back_to_paragraph_witness :
  exists st2,
    insertAtCursor quick_net "doc" "ws://c" "Beaches" (Some "table") initial
    = ({| success := true; message := "table inserted successfully";
          position := None |}, st2).
Proof.
  destruct (insertAtCursor_falls_back_to_paragraph quick_net
              "doc" "ws://c" "Beaches" "table" initial 0%nat _ _ _
              scenario_connect eq_refl eq_refl)
    as (st2 & _ & _ & _ & _ & Hrun & _).
  - vm_compute. repeat split; intro; discriminate.
  - discriminate.
  - discriminate.
  - reflexivity.
  - now exists st2.
Defined.



(** ** The further properties at concrete inputs *)

(** The state after a first [positionCursor] is one the process reaches. *)
Lemma scenario_reachable :
  reachable quick_net
    (snd (positionCursor quick_net "doc" "ws://c" "Old Title" initial)).
Proof.
  exact (reach_call quick_net "doc" "ws://c" (call_positionCursor "Old Title")
           initial (reach_initial quick_net)).
Defined.

Lemma scenario_state_reachable : reachable quick_net scenario_state.
Proof.
  exact (reach_connect quick_net "doc" "ws://c" initial
           (reach_initial quick_net)).
Defined.

Lemma two_identities_reachable : reachable quick_net two_identities.
Proof.
  exact (reach_connect quick_net "other" "ws://c" scenario_state
           scenario_state_reachable).
Defined.

Lemma reachable_selections_forward_witness :
  selections_forward
    (snd (positionCursor quick_net "doc" "ws://c" "Old Title" initial)).
Proof.
  exact (reachable_selections_forward quick_net _ scenario_reachable).
Defined.

Lemma reachable_selections_valid_witness :
  selections_valid
    (snd (positionCursor quick_net "doc" "ws://c" "Old Title" initial)).
Proof.
  exact (reachable_selections_valid quick_net _ scenario_reachable).
Defined.

Lemma reachable_cache_consistent_witness : cache_consistent two_identities.
Proof.
  exact (reachable_cache_consistent quick_net _ two_identities_reachable).
Defined.

Lemma reachable_user_registered_witness : user_registered scenario_state.
Proof.
  exact (reachable_user_registered quick_net _ scenario_state_reachable).
Defined.

(** Deleting a block of ["other"] leaves the session of ["doc"] alone. *)
Lemma operations_leave_other_identities_alone_witness :
  connections (snd (deleteBlock quick_net "other" "ws://c" two_identities))
    !! cache_key "doc" "ws://c" = Some 0%nat
  /\ sessions (snd (deleteBlock quick_net "other" "ws://c" two_identities))
       !! 0%nat
     = sessions two_identities !! 0%nat.
Proof.
  destruct (operations_leave_other_identities_alone quick_net
              "other" "ws://c" call_deleteBlock two_identities
              (cache_key "doc" "ws://c") 0%nat _
              two_identities_reachable ltac:(discriminate) eq_refl eq_refl)
    as [Hk Hs].
  split; [exact Hk | exact Hs].
Defined.

(** Connect, disconnect and connect again on the quick endpoint. *)
Lemma reconnect_builds_a_new_session_witness :
  exists st2,
    connect quick_net "doc" "ws://c"
      (disconnect "doc" "ws://c" scenario_state)
    = (inr 1%nat, st2).
Proof.
  destruct (reconnect_builds_a_new_session quick_net "doc" "ws://c" initial
              0%nat scenario_state (reach_initial quick_net)
              scenario_connect eq_refl)
    as (st2 & _ & _ & Hrun & _).
  now exists st2.
Defined.

(** Three attempts on the slow endpoint leave three providers behind. *)
Lemma timed_out_connects_leave_their_providers_witness :
  opened (connect_attempts slow_net 3 "doc" "ws://c" initial) = 3%nat
  /\ connections (connect_attempts slow_net 3 "doc" "ws://c" initial) = ∅.
Proof.
  destruct (timed_out_connects_leave_their_providers slow_net 3
              "doc" "ws://c" initial (reach_initial slow_net) eq_refl
              (fun _ => eq_refl))
    as (Hopened & Hconn & _).
  split; [exact Hopened | exact Hconn].
Defined.



Lemma scenario_selection_valid :
  valid_selection scenario_doc (atStart scenario_doc).
Proof. apply StepFacts.atStart_valid. Defined.


Lemma scenario_occurs : occurs_in "Old Title" scenario_doc.
Proof.
  exists 1%nat, (par "Old Title"), 0%nat. split; [reflexivity|].
  split; [discriminate | split; [simpl; lia | reflexivity]].
Defined.

Lemma replaceText_rejects_the_empty_replacement_witness :
  fst (replaceText quick_net "doc" "ws://c" "Old Title" "" initial)
  = {| success := false; message := "Error: Empty text nodes are not allowed";
       position := None |}.
Proof.
  now rewrite (replaceText_rejects_the_empty_replacement quick_net
                 "doc" "ws://c" "Old Title" initial 0%nat _ _ _
                 scenario_connect eq_refl eq_refl scenario_occurs).
Defined.


Lemma insertAtCursor_rejects_the_empty_text_witness :
  fst (insertAtCursor quick_net "doc" "ws://c" "" None initial)
  = {| success := false; message := "Error: Empty text nodes are not allowed";
       position := None |}.
Proof.
  now rewrite (insertAtCursor_rejects_the_empty_text quick_net
                 "doc" "ws://c" None initial 0%nat _ _ _
                 scenario_connect eq_refl eq_refl).
Defined.

(** The cursor is at the start of ["Intro"]: the new paragraph comes after an
    empty paragraph that the split leaves before it. *)
Lemma insertAtCursor_places_the_node_witness :
  exists st2 s2 v2,
    snd (insertAtCursor quick_net "doc" "ws://c" "Beaches" None initial) = st2
    /\ sessions st2 !! 0%nat = Some s2 /\ view s2 = Some v2
    /\ doc v2 = [par ""; par "Beaches"; par "Intro"; par "Old Title";
                 par "Conclusion"].
Proof.
  destruct (insertAtCursor_places_the_node quick_net
              "doc" "ws://c" "Beaches" None initial 0%nat _ _ _ (par "Beaches")
              scenario_connect eq_refl eq_refl scenario_selection_valid
              eq_refl)
    as (st2 & s2 & v2 & Hrun & Hs2 & Hv2 & Hm).
  exists st2, s2, v2. repeat split; try assumption.
  vm_compute in Hm. destruct Hm as (b & Hb & Hm). injection Hb as <-.
  vm_compute in Hm. destruct Hm as [Hdoc _]. exact Hdoc.
Defined.

Lemma single_connect :
  connect single_net "doc" "ws://c" initial
  = (inr 0%nat, snd (connect single_net "doc" "ws://c" initial)).
Proof. reflexivity. Defined.

Lemma single_selection_valid :
  valid_selection [par "Only"] (TextSelection 1 1).
Proof. vm_compute. repeat split; intro; discriminate. Defined.

(** A document of one paragraph: an empty paragraph is left. *)
Lemma deleteBlock_of_the_only_block_witness :
  exists st2 s2 v2,
    deleteBlock single_net "doc" "ws://c" initial
    = ({| success := true; message := "Block deleted successfully";
          position := None |}, st2)
    /\ sessions st2 !! 0%nat = Some s2 /\ view s2 = Some v2
    /\ doc v2 = [par ""].
Proof.
  exact (deleteBlock_of_the_only_block single_net "doc" "ws://c" initial
           0%nat _ _ _ 1 1 0%nat (par "Only")
           single_connect eq_refl eq_refl eq_refl eq_refl
           single_selection_valid eq_refl).
Defined.

Lemma deleteBlock_removes_the_anchor_block_when_reachable_witness :
  exists st2 s2 v2,
    deleteBlock quick_net "doc" "ws://c" initial
    = ({| success := true; message := "Block deleted successfully";
          position := None |}, st2)
    /\ sessions st2 !! 0%nat = Some s2 /\ view s2 = Some v2
    /\ doc v2 = [par "Old Title"; par "Conclusion"].
Proof.
  exact (deleteBlock_removes_the_anchor_block_when_reachable quick_net
           "doc" "ws://c" initial 0%nat _ _ _ 1 1 0%nat 0%nat
           (reach_initial quick_net) scenario_connect eq_refl eq_refl
           ltac:(simpl; lia) eq_refl eq_refl).
Defined.


Lemma documents_are_never_emptied_witness :
  exists s v,
    sessions scenario_state !! 0%nat = Some s /\ view s = Some v
    /\ doc v <> [].
Proof.
  do 2 eexists. split; [reflexivity|]. split; [reflexivity|].
  exact (documents_are_never_emptied quick_net scenario_state
           (fun _ _ _ => ltac:(discriminate)) scenario_state_reachable
           0%nat _ _ eq_refl eq_refl).
Defined.

(** Position 8 is the start of ["Old Title"]; the document ends at 30. *)
Lemma setCursor_sets_a_collapsed_selection_witness :
  fst (setCursor 0 8 scenario_state) = inr tt
  /\ setCursor 0 31 scenario_state
     = (inl (RangeError "Position 31 out of range"), scenario_state).
Proof.
  split.
  - destruct (setCursor_sets_a_collapsed_selection 0%nat 8 scenario_state
                _ _ eq_refl eq_refl) as (Hin & _).
    rewrite Hin; [reflexivity|].
    vm_compute. split; [reflexivity | intro; discriminate].
  - destruct (setCursor_sets_a_collapsed_selection 0%nat 31 scenario_state
                _ _ eq_refl eq_refl) as (_ & Hout & _).
    apply Hout. vm_compute. reflexivity.
Defined.

Lemma flat_binding_reflexive :
  forall r : @RelPos flat_binding, compareRelativePositions r r = true.
Proof. intros r. apply Z.eqb_refl. Defined.

Lemma updateCursorInfo_publishes_changes_only_witness :
  let v := {| doc := scenario_doc; selection := TextSelection 8 17 |} in
  length (published (updateCursorInfo v new_awareness)) = 1%nat
  /\ updateCursorInfo v (updateCursorInfo v new_awareness)
     = updateCursorInfo v new_awareness.
Proof.
  split; [reflexivity|].
  exact (proj2 (updateCursorInfo_publishes_changes_only
                  {| doc := scenario_doc; selection := TextSelection 8 17 |}
                  new_awareness flat_binding_reflexive)).
Defined.

Lemma positionCursor_twice_changes_nothing_witness :
  let run := positionCursor quick_net "doc" "ws://c" "Old Title" initial in
  positionCursor quick_net "doc" "ws://c" "Old Title" (snd run)
  = (fst run, snd run).
Proof.
  exact (positionCursor_twice_changes_nothing quick_net
           "doc" "ws://c" "Old Title" initial _ _
           flat_binding_reflexive eq_refl eq_refl).
Defined.


(** Disconnecting the identity of the scenario, and one never connected. *)
Lemma disconnect_route_forgets_the_identity_witness :
  connections
    (snd (router quick_net disconnect_route
            (request (Some "doc") (Some "ws://c") None) scenario_state))
    !! cache_key "doc" "ws://c" = None
  /\ router quick_net disconnect_route
       (request (Some "doc") (Some "ws://c") None) initial
     = (ok {| success := true; message := "Disconnected"; position := None |},
        initial).
Proof.
  split.
  - exact (proj1 (proj2 (disconnect_route_forgets_the_identity quick_net
                           (request (Some "doc") (Some "ws://c") None)
                           scenario_state "doc" "ws://c" eq_refl eq_refl))).
  - destruct (disconnect_route_forgets_the_identity quick_net
                (request (Some "doc") (Some "ws://c") None)
                initial "doc" "ws://c" eq_refl eq_refl)
      as (Hres & _ & Hsame & _).
    apply injective_projections; [exact Hres | exact (Hsame eq_refl)].
Defined.

(** A batch of three: a text that is found, an unknown type, a text that is
    missing. *)
Lemma executeOperations_answers_every_operation_witness :
  exists results summary st',
    executeOperations (backend quick_net) (Some scenario_context)
      [ operation "position-cursor" (Some "Old Title");
        operation "move-cursor" None;
        operation "insertAtCursor" None ] initial
    = (BatchDone results summary, st')
    /\ length results = 3%nat
    /\ (successCount results + failCount results = 3)%nat.
Proof.
  do 3 eexists. split; [reflexivity|].
  exact (executeOperations_answers_every_operation (backend quick_net)
           (Some scenario_context)
           [ operation "position-cursor" (Some "Old Title");
             operation "move-cursor" None;
             operation "insertAtCursor" None ] initial _ _ _ eq_refl).
Defined.

Lemma batches_stay_reachable_witness :
  well_formed
    (snd (executeOperations (backend quick_net) (Some scenario_context)
            [ operation "position-cursor" (Some "Old Title");
              operation "delete-block" None ] initial)).
Proof.
  exact (proj2 (batches_stay_reachable quick_net (Some scenario_context)
                  [ operation "position-cursor" (Some "Old Title");
                    operation "delete-block" None ] initial
                  (reach_initial quick_net))).
Defined.

(** An insertion without a text. *)
Lemma missing_text_comes_back_as_a_backend_error_witness :
  success (fst (execute_one (backend quick_net) "doc" "ws://c"
                  (operation "insertAtCursor" None) scenario_state)) = false
  /\ snd (execute_one (backend quick_net) "doc" "ws://c"
            (operation "insertAtCursor" None) scenario_state)
     = scenario_state.
Proof.
  rewrite (missing_text_comes_back_as_a_backend_error quick_net
             "doc" "ws://c" (operation "insertAtCursor" None) scenario_state);
    [split; reflexivity | | reflexivity].
  do 3 apply list_elem_of_further. apply list_elem_of_here.
Defined.

Lemma zebra_absent : ~ occurs_in "zebra" scenario_doc.
Proof. apply absent_by_search. reflexivity. Defined.

(** A position-cursor that fails, then a delete-block: the first paragraph,
    where the cursor was, is deleted. *)
Lemma failed_positionCursor_does_not_stop_the_batch_witness :
  exists r2 st2 s2 v2,
    execute_all (backend quick_net) "doc" "ws://c"
      [ operation "position-cursor" (Some "zebra");
        operation "delete-block" None ] scenario_state
    = ([not_found "zebra"; r2], st2)
    /\ success r2 = true
    /\ sessions st2 !! 0%nat = Some s2 /\ view s2 = Some v2
    /\ doc v2 = [par "Old Title"; par "Conclusion"].
Proof.
  rewrite (failed_positionCursor_does_not_stop_the_batch quick_net
             "doc" "ws://c" (operation "position-cursor" (Some "zebra"))
             [operation "delete-block" None] scenario_state 0%nat _ _ "zebra"
             (list_elem_of_here _ _) eq_refl ltac:(discriminate)
             ltac:(discriminate) eq_refl eq_refl eq_refl zebra_absent).
  do 4 eexists. split; [reflexivity|]. split; [reflexivity|].
  split; [reflexivity|]. split; reflexivity.
Defined.
